(** * A shallow embedding of prettier-plugin-abap's layout rules

    The development follows the TypeScript sources module by module:
    the token and statement model ([parsers/types.ts]), the comment-sign
    and period spacing rules, the indentation engine, the closing-bracket
    repositioner with its comment-merge pass, the needless-spaces
    compressor and the statement printer.  Definitions come first, the
    properties proved about them follow in the second half of the file. *)

From Stdlib Require Import ZArith Lia String Ascii.
From stdpp Require Import base option list gmap sorting.

(** ** JavaScript strings

    A JavaScript string is a sequence of UTF-16 code units.  Only the
    operations used by the formatter are modelled. *)
Module Js.

Definition jsstring : Type := list N.

(** String literals of the source, written as Rocq strings. *)
Definition lit (s : string) : jsstring :=
  map N_of_ascii (list_ascii_of_string s).

(** The characters matched by [\s] (and removed by [trim]): ECMAScript
    WhiteSpace and LineTerminator. *)
Definition isWhiteSpace (c : N) : bool :=
  ((c =? 9) || (c =? 10) || (c =? 11) || (c =? 12) || (c =? 13) ||
   (c =? 32) || (c =? 160) || (c =? 5760) ||
   ((8192 <=? c) && (c <=? 8202)) ||
   (c =? 8232) || (c =? 8233) || (c =? 8239) || (c =? 8287) ||
   (c =? 12288) || (c =? 65279))%N.

Fixpoint takeWhile {A} (p : A -> bool) (l : list A) : list A :=
  match l with
  | [] => []
  | x :: r => if p x then x :: takeWhile p r else []
  end.

Fixpoint dropWhile {A} (p : A -> bool) (l : list A) : list A :=
  match l with
  | [] => []
  | x :: r => if p x then dropWhile p r else l
  end.

(** [s.trimStart()], [s.trimEnd()] (also [s.replace(/\s+$/u, "")]) and
    [s.trim()]. *)
Definition trimStart (s : jsstring) : jsstring := dropWhile isWhiteSpace s.
Definition trimEnd (s : jsstring) : jsstring :=
  rev (dropWhile isWhiteSpace (rev s)).
Definition trim (s : jsstring) : jsstring := trimEnd (trimStart s).

(** [s.startsWith(p)] *)
Fixpoint startsWith (p s : jsstring) : bool :=
  match p, s with
  | [], _ => true
  | _ :: _, [] => false
  | a :: p', b :: s' => (a =? b)%N && startsWith p' s'
  end.

(** [s.endsWith(p)] *)
Definition endsWith (p s : jsstring) : bool := startsWith (rev p) (rev s).

(** [s.slice(n)] for [0 <= n]. *)
Definition slice (n : nat) (s : jsstring) : jsstring := drop n s.

(** [" ".repeat(n)]; the callers only pass non-negative counts. *)
Definition spaces (n : Z) : jsstring := replicate (Z.to_nat n) 32%N.

(** The one-character string holding the double quote (code unit 34),
    the comment sign of the language. *)
Definition dquote : jsstring := [34%N].

(** Upper-casing of the letters [a]-[z]; on strings of ASCII characters
    this is what [toUpperCase] does. *)
Definition asciiUpper (s : jsstring) : jsstring :=
  map (fun c => if ((97 <=? c) && (c <=? 122))%N then (c - 32)%N else c) s.

Definition asciiLower (s : jsstring) : jsstring :=
  map (fun c => if ((65 <=? c) && (c <=? 90))%N then (c + 32)%N else c) s.

(** String equality [a === b]. *)
Definition eqb (a b : jsstring) : bool := bool_decide (a = b).

(** [set.has(s)] for a set given by its literal elements. *)
Definition has (set : list jsstring) (s : jsstring) : bool :=
  existsb (eqb s) set.

End Js.

(** ** The token and statement model: [parsers/types.ts]

    The records follow the interfaces of the source.  Their [type] tags
    and the fields that no rule reads ([leadingComments],
    [blankLinesBefore], [useTabs], [printWidth]) are left out.  Field
    names are those of the source, except that the location of a comment
    is [cloc], that of a statement is [sloc], and the fields of a chain
    entry carry the prefix [e]: record fields share one name space. *)
Module Types.
Import Js.

Record SourceLocation := {
  start : Z;
  end_ : Z;
  startLine : Z;
  startColumn : Z;
  endLine : Z;
  endColumn : Z
}.

Inductive TokenRole :=
| role_word | role_punctuation | role_comment | role_pragma
| role_string | role_colon | role_arrow | role_unknown.

#[global] Instance TokenRole_eq_dec : EqDecision TokenRole.
Proof. solve_decision. Defined.

(** [loc] is declared non-optional in [AbapToken], so the [?.] and [??]
    guards that the rules put on it never fire and are not modelled. *)
Record AbapToken := {
  role : TokenRole;
  text : jsstring;
  upper : jsstring;
  loc : SourceLocation;
  hasFollowingLineBreak : bool;
  original : option jsstring
}.

Definition set_hasFollowingLineBreak (b : bool) (t : AbapToken) : AbapToken :=
  {| role := role t; text := text t; upper := upper t; loc := loc t;
     hasFollowingLineBreak := b; original := original t |}.

Record AbapComment := {
  value : jsstring;
  inline : bool;
  cloc : SourceLocation
}.

Definition set_value (v : jsstring) (c : AbapComment) : AbapComment :=
  {| value := v; inline := inline c; cloc := cloc c |}.

(** Tokens are objects that the rules mutate in place and that several
    arrays share (a chain entry holds the very tokens of its statement),
    and the override tables are keyed by token identity.  A token is
    therefore referred to by a reference into a heap of token objects;
    every reference denotes an object. *)
Definition tokref : Type := nat.
Definition heap : Type := tokref -> AbapToken.

(** [token.hasFollowingLineBreak = b] *)
Definition writeBreak (token : tokref) (b : bool) (h : heap) : heap :=
  fun r => if decide (r = token) then set_hasFollowingLineBreak b (h r)
           else h r.

Inductive ChainEntryType := entry_entry | entry_comment.

Record AbapChainEntry := {
  etype : ChainEntryType;
  etokens : option (list tokref);
  etrailingComment : option AbapComment;
  ecomment : option AbapComment
}.

Record AbapChain := {
  keyword : tokref;
  entries : list AbapChainEntry
}.

Record AbapStatement := {
  kind : jsstring;
  tokens : list tokref;
  sloc : SourceLocation;
  indentLevel : Z;
  trailingComment : option AbapComment;
  pragmas : list tokref;
  raw : jsstring;
  chain : option AbapChain
}.

Definition set_trailingComment (c : option AbapComment) (s : AbapStatement)
    : AbapStatement :=
  {| kind := kind s; tokens := tokens s; sloc := sloc s;
     indentLevel := indentLevel s; trailingComment := c;
     pragmas := pragmas s; raw := raw s; chain := chain s |}.

Inductive KeywordCase := kc_upper | kc_lower.
Inductive ChainFormatting := cf_preserve | cf_expand.

(** Every option is optional in [AbapPluginOptions]: [None] is
    [undefined]. *)
Record AbapPluginOptions := {
  abapKeywordCase : option KeywordCase;
  abapSpaceBeforePeriod : option bool;
  abapSpaceBeforeCommentSign : option bool;
  abapSpaceAfterCommentSign : option bool;
  abapChainFormatting : option ChainFormatting;
  tabWidth : option Z
}.

End Types.

(** ** [rules/spaceAroundCommentSignRule.ts] *)
Module SpaceAroundCommentSignRule.
Import Js Types.

Definition COMMENT_SIGN : jsstring := dquote.

(** [/^[A-Za-z0-9]$/u] on a single code unit. *)
Definition isLetterOrDigit (c : N) : bool :=
  (((65 <=? c) && (c <=? 90)) || ((97 <=? c) && (c <=? 122)) ||
   ((48 <=? c) && (c <=? 57)))%N.

Definition formatCommentValue (rawValue : jsstring)
    (options : AbapPluginOptions) : jsstring :=
  if bool_decide (abapSpaceAfterCommentSign options = Some false)
  then rawValue
  else
    let leadingWhitespace := takeWhile isWhiteSpace rawValue in
    let rest := slice (length leadingWhitespace) rawValue in
    if negb (startsWith COMMENT_SIGN rest) then rawValue
    else if bool_decide (length rest <= 1) then rawValue
    else
      match rest !! 1 with
      | None => rawValue
      | Some nextChar =>
          if negb (isLetterOrDigit nextChar) then rawValue
          else leadingWhitespace ++ COMMENT_SIGN ++ lit " " ++ slice 1 rest
      end.

Definition needsSpaceBeforeCommentSign (options : AbapPluginOptions) : bool :=
  negb (bool_decide (abapSpaceBeforeCommentSign options = Some false)).

End SpaceAroundCommentSignRule.

(** ** [rules/spaceBeforePeriodRule.ts] *)
Module SpaceBeforePeriodRule.
Import Js Types SpaceAroundCommentSignRule.

Definition PUNCTUATION_TO_TRIM : list jsstring := [lit "."; lit ","].

Definition needsSpaceBefore (current : AbapToken)
    (previous : option AbapToken) (options : AbapPluginOptions) : bool :=
  match previous with
  | None => false
  | Some previous =>
    if eqb (trim (text current)) (lit "(") then false
    else if eqb (trim (text current)) (lit ")") then true
    else if bool_decide (role current = role_punctuation)
            && has PUNCTUATION_TO_TRIM (text current)
    then bool_decide (abapSpaceBeforePeriod options = Some true)
    else if bool_decide (role current = role_comment)
    then needsSpaceBeforeCommentSign options
    else if bool_decide (role current = role_arrow)
            || eqb (text current) (lit "->")
            || eqb (text current) (lit "=>")
    then false
    else if eqb (text current) (lit ")") || eqb (text current) (lit "]")
            || eqb (text current) (lit ":")
    then false
    else if bool_decide (role current = role_punctuation) then false
    else if eqb (text current) (lit ",") || eqb (text current) (lit ".")
    then false
    else if eqb (text previous) (lit "(") || eqb (text previous) (lit "[")
            || eqb (text previous) (lit ":") || eqb (text previous) (lit "-")
            || eqb (text previous) (lit "->") || eqb (text previous) (lit "=>")
    then false
    else if bool_decide (role previous = role_arrow) then false
    else if eqb (text current) (lit "=")
            && (eqb (text previous) (lit "+") || eqb (text previous) (lit "-")
                || eqb (text previous) (lit "*") || eqb (text previous) (lit "/")
                || eqb (text previous) (lit "&&"))
    then false
    else true
  end.

End SpaceBeforePeriodRule.

(** ** The tokenizer's statement nodes

    [@abaplint/core] is an external collaborator.  A statement node is
    modelled by what the formatter observes of it: its statement class
    ([get]), its first token and its token list, each token with a start
    and end position; a [VirtualPosition] (macro expansion) is a position
    flagged [isVirtual]. *)
Module Statements.

(** The statement classes named in the decision tables of [indentRule.ts];
    [Comment] is the class of a standalone comment and [Other] stands for
    every remaining class.  The classes are unrelated by inheritance, so
    [instanceof] is equality of classes. *)
Inductive kind :=
| If | Else | ElseIf | EndIf | While | EndWhile | Loop | EndLoop
| Select | SelectLoop | EndSelect | Do | EndDo | Try | EndTry
| Case | CaseType | EndCase | Catch | Cleanup | When | WhenType | WhenOthers
| ClassDefinition | ClassImplementation | EndClass
| MethodImplementation | EndMethod | FunctionModule | EndFunction
| Module_ | EndModule | Define | Form | EndForm | EndInterface | EndChain
| EndAt | EndExec | EndCatch | TestSeam | EndTestSeam
| TestInjection | EndTestInjection | Comment | Other.

#[global] Instance kind_eq_dec : EqDecision kind.
Proof. solve_decision. Defined.

End Statements.

Module Abaplint.
Import Js.

Record Position := { getRow : Z; getCol : Z; isVirtual : bool }.

Record AbstractToken := {
  getStart : Position;
  getEnd : Position;
  getStr : jsstring
}.

Record StatementNode := {
  get : Statements.kind;
  getFirstToken : option AbstractToken;
  getTokens : list AbstractToken
}.

End Abaplint.

(** ** [rules/indentRule.ts] *)
Module IndentRule.
Import Js Abaplint.
Local Open Scope Z_scope.

Definition DEDENT_BEFORE : list Statements.kind :=
  [ Statements.EndIf; Statements.EndWhile; Statements.EndLoop;
    Statements.EndSelect; Statements.EndTry; Statements.EndCase;
    Statements.EndDo; Statements.EndFunction; Statements.EndMethod;
    Statements.EndClass; Statements.EndModule; Statements.EndForm;
    Statements.EndInterface; Statements.EndChain; Statements.EndAt;
    Statements.EndExec; Statements.EndCatch; Statements.EndTestInjection;
    Statements.EndTestSeam ].

Definition MIDDLE_KEYWORDS : list Statements.kind :=
  [ Statements.Else; Statements.ElseIf; Statements.Catch;
    Statements.Cleanup; Statements.When; Statements.WhenType;
    Statements.WhenOthers ].

Definition INDENT_AFTER : list Statements.kind :=
  [ Statements.If; Statements.Else; Statements.ElseIf; Statements.While;
    Statements.Loop; Statements.Select; Statements.SelectLoop;
    Statements.Do; Statements.Try; Statements.Case; Statements.CaseType;
    Statements.Catch; Statements.Cleanup; Statements.ClassDefinition;
    Statements.ClassImplementation; Statements.MethodImplementation;
    Statements.FunctionModule; Statements.Module_; Statements.Define;
    Statements.Form; Statements.TestSeam; Statements.TestInjection ].

Definition ALIGN_WITH_NEXT : list Statements.kind :=
  [ Statements.Else; Statements.ElseIf; Statements.Catch;
    Statements.Cleanup; Statements.When; Statements.WhenType;
    Statements.WhenOthers ].

Definition KEEP_EXISTING_INDENT : Z := -1.

Definition matches (type : Statements.kind)
    (constructors : list Statements.kind) : bool :=
  existsb (fun Ctor => bool_decide (type = Ctor)) constructors.

Definition isStandaloneComment (statement : StatementNode) : bool :=
  bool_decide (get statement = Statements.Comment).

Definition hasBlankLineAbove (statement : StatementNode)
    (previous : option StatementNode) : bool :=
  match previous with
  | None => false
  | Some previous =>
      let prevTokens := getTokens previous in
      let currentTokens := getTokens statement in
      match last prevTokens, head currentTokens with
      | Some prevLast, Some currentFirst =>
          bool_decide
            (getRow (getStart currentFirst) - getRow (getEnd prevLast) >= 2)
      | _, _ => false
      end
  end.

(** The [while (cursor < statements.length)] loop of
    [findAlignmentTarget]: [rest] is [statements.slice(cursor)] and [prev]
    is [statements[cursor - 1]]. *)
Fixpoint skipAttachedComments (prev : option StatementNode)
    (rest : list StatementNode) (cursor : nat) : nat :=
  match rest with
  | [] => cursor
  | candidate :: rest' =>
      if isStandaloneComment candidate
         && negb (hasBlankLineAbove candidate prev)
      then skipAttachedComments (Some candidate) rest' (S cursor)
      else cursor
  end.

(** [statements[startIndex - 1]]; index [-1] reads [undefined]. *)
Definition before {A} (l : list A) (i : nat) : option A :=
  match i with
  | O => None
  | S j => l !! j
  end.

Definition findAlignmentTarget (statements : list StatementNode)
    (startIndex : nat) (currentDepth : Z) : option (nat * Z) :=
  if bool_decide (currentDepth <= 0) then None
  else
    match statements !! startIndex with
    | None => None
    | Some current =>
        if negb (hasBlankLineAbove current (before statements startIndex))
        then None
        else
          let cursor :=
            skipAttachedComments (Some current)
              (drop (S startIndex) statements) (S startIndex) in
          match statements !! cursor with
          | None => None
          | Some target =>
              if negb (matches (get target) ALIGN_WITH_NEXT) then None
              else Some (cursor, Z.max (currentDepth - 1) 0)
          end
    end.

Definition isSelect (type : Statements.kind) : bool :=
  bool_decide (type = Statements.Select)
  || bool_decide (type = Statements.SelectLoop).

(** The [for] loop of [findSelectBlocks]; the head of [stack] is its top. *)
Fixpoint findSelectBlocks_loop (statements : list StatementNode)
    (index : nat) (result : gset nat) (stack : list nat) : gset nat :=
  match statements with
  | [] => result
  | statement :: rest =>
      let type := get statement in
      if isSelect type
      then findSelectBlocks_loop rest (S index) result (index :: stack)
      else if bool_decide (type = Statements.EndSelect)
      then match stack with
           | selectIndex :: stack' =>
               findSelectBlocks_loop rest (S index)
                 ({[selectIndex]} ∪ result) stack'
           | [] => findSelectBlocks_loop rest (S index) result []
           end
      else findSelectBlocks_loop rest (S index) result stack
  end.

Definition findSelectBlocks (statements : list StatementNode) : gset nat :=
  findSelectBlocks_loop statements 0%nat ∅ [].

(** What the spec calls "a matching closer exists later", stated per
    opener instead of by a stack: scanning the statements that follow an
    opener, [pending] counts the optional-block openers met since and
    still unclosed; the opener is closed by the first [EndSelect] met
    while none is pending. *)
Fixpoint hasMatchingEndSelect (pending : nat) (later : list StatementNode)
    : bool :=
  match later with
  | [] => false
  | statement :: rest =>
      if isSelect (get statement)
      then hasMatchingEndSelect (S pending) rest
      else if bool_decide (get statement = Statements.EndSelect)
      then match pending with
           | O => true
           | S pending' => hasMatchingEndSelect pending' rest
           end
      else hasMatchingEndSelect pending rest
  end.

(** The variables of [computeIndentationLevels]. *)
Record IndentState := {
  result : list Z;
  depth : Z;
  activeAlignDepth : option Z;
  activeAlignTarget : option nat
}.

Definition initialState : IndentState :=
  {| result := []; depth := 0;
     activeAlignDepth := None; activeAlignTarget := None |}.

(** One iteration of the [for (const statement of statements)] loop. *)
Definition indentStep (statements : list StatementNode)
    (selectBlocks : gset nat) (st : IndentState)
    (statement : StatementNode) : IndentState :=
  let index := length (result st) in
  let reached :=
    match activeAlignTarget st with
    | Some target => bool_decide (target <= index)%nat
    | None => false
    end in
  let alignTarget := if reached then None else activeAlignTarget st in
  let alignDepth := if reached then None else activeAlignDepth st in
  let synthetic :=
    match getFirstToken statement with
    | None => true
    | Some firstToken => isVirtual (getStart firstToken)
    end in
  if synthetic
  then {| result := result st ++ [KEEP_EXISTING_INDENT]; depth := depth st;
          activeAlignDepth := alignDepth; activeAlignTarget := alignTarget |}
  else
    let type := get statement in
    let depth1 :=
      if matches type DEDENT_BEFORE || matches type MIDDLE_KEYWORDS
      then Z.max (depth st - 1) 0 else depth st in
    let '(indentLevel, alignDepth', alignTarget') :=
      match alignDepth with
      | Some d => (d, alignDepth, alignTarget)
      | None =>
          if isStandaloneComment statement
          then match findAlignmentTarget statements index depth1 with
               | Some (targetIndex, d) => (d, Some d, Some targetIndex)
               | None => (depth1, alignDepth, alignTarget)
               end
          else (depth1, alignDepth, alignTarget)
      end in
    let isSelectStatement := isSelect type in
    let shouldIndentAfter :=
      matches type INDENT_AFTER
      && (negb isSelectStatement || bool_decide (index ∈ selectBlocks)) in
    {| result := result st ++ [indentLevel];
       depth := if shouldIndentAfter then depth1 + 1 else depth1;
       activeAlignDepth := alignDepth'; activeAlignTarget := alignTarget' |}.

(** The loop state after the statements of [done] have been visited;
    [selectBlocks] is computed once, from the whole sequence, before the
    loop starts. *)
Definition indentLoop (statements done : list StatementNode) : IndentState :=
  let selectBlocks := findSelectBlocks statements in
  fold_left (indentStep statements selectBlocks) done initialState.

Definition computeIndentationLevels (statements : list StatementNode)
    : list Z :=
  result (indentLoop statements statements).

End IndentRule.

(** ** [rules/closingBracketsPositionRule.ts] *)
Module ClosingBracketsPositionRule.
Import Js Types.

Definition CLOSING_TOKENS : list jsstring := [lit ")"; lit "]"].
Definition PERIOD : jsstring := lit ".".

Record CommentParts := {
  pvalue : jsstring;
  isPseudo : bool
}.

(** What a formatting run reads and writes: the token objects, the
    statement array (a statement is identified by its index in it), and
    the module-level [postComments] table keyed by statement. *)
Record Store := {
  tokenHeap : heap;
  body : list AbapStatement;
  postComments : gmap nat AbapComment
}.

Definition takePostComment (statement : nat) (st : Store)
    : option AbapComment * Store :=
  match postComments st !! statement with
  | Some c =>
      (Some c, {| tokenHeap := tokenHeap st; body := body st;
                  postComments := delete statement (postComments st) |})
  | None => (None, st)
  end.

Definition hasPostComment (statement : nat) (st : Store) : bool :=
  bool_decide (is_Some (postComments st !! statement)).

Definition simplify (text : jsstring) : jsstring := trim text.

Definition shouldAttach (previous : option AbapToken) : bool :=
  match previous with
  | None => false
  | Some previous =>
      if negb (hasFollowingLineBreak previous) then false
      else if bool_decide (role previous = role_comment) then false
      else true
  end.

Definition shouldKeepTogether (next : AbapToken) : bool :=
  let text := simplify (text next) in
  if eqb text PERIOD then true
  else if has CLOSING_TOKENS text then true
  else if bool_decide (role next = role_pragma) then true
  else if bool_decide (role next = role_punctuation) then true
  else false.

(** The body of the [for] loop of [adjustClosingBracketsInTokens] at
    [index >= 1]; the state is the token heap and the [changed] flag.
    Every field is read from the heap at the point where the source reads
    it, so that writes to a token are seen by the reads that follow. *)
Definition adjustAt (tokens : list tokref) (acc : heap * bool)
    (index : nat) : heap * bool :=
  let '(h, changed) := acc in
  match tokens !! index, tokens !! (index - 1)%nat with
  | Some current, Some previous =>
      let currentText := simplify (text (h current)) in
      let previousText := simplify (text (h previous)) in
      let isClosingBracket := has CLOSING_TOKENS currentText in
      let isPeriod := eqb currentText PERIOD in
      let shouldMoveBracket :=
        isClosingBracket && shouldAttach (Some (h previous)) in
      let shouldMovePeriod :=
        isPeriod && shouldAttach (Some (h previous))
        && has CLOSING_TOKENS previousText in
      if negb shouldMoveBracket && negb shouldMovePeriod then acc
      else
        let '(h1, changed1) :=
          if hasFollowingLineBreak (h previous)
          then (writeBreak previous false h, true)
          else (h, changed) in
        if shouldMoveBracket
        then
          match tokens !! (index + 1)%nat with
          | None => (h1, changed1)
          | Some next =>
              let h2 :=
                if bool_decide (startLine (loc (h1 next))
                                = startLine (loc (h1 current)))
                   && negb (shouldKeepTogether (h1 next))
                then writeBreak current true h1 else h1 in
              let h3 :=
                if eqb (simplify (text (h2 next))) PERIOD
                   && hasFollowingLineBreak (h2 current)
                then writeBreak current false h2 else h2 in
              (h3, changed1)
          end
        else (h1, changed1)
  | _, _ => acc
  end.

Definition adjustClosingBracketsInTokens (tokens : option (list tokref))
    (h : heap) : heap * bool :=
  match tokens with
  | None => (h, false)
  | Some tokens =>
      if bool_decide (length tokens < 2) then (h, false)
      else fold_left (adjustAt tokens) (seq 1 (length tokens - 1)) (h, false)
  end.

Definition extractCommentParts (comment : AbapComment)
    : option CommentParts :=
  let trimmed := trimStart (value comment) in
  if negb (startsWith dquote trimmed) then None
  else
    let withoutQuote := trimStart (slice 1 trimmed) in
    let isPseudo := startsWith (lit "#") withoutQuote in
    Some {| pvalue := trim withoutQuote; isPseudo := isPseudo |}.

(** The pseudo-comment of the spec's data model, in its words: a comment
    whose text begins with [#] immediately after the sign. *)
Definition beginsWithHashAfterSign (comment : AbapComment) : bool :=
  startsWith (dquote ++ lit "#") (trimStart (value comment)).

Definition cloneComment (comment : AbapComment) : AbapComment :=
  {| value := value comment; inline := inline comment;
     cloc := cloc comment |}.

(** The downward [for] loop of [forcePeriodLine], entered at [index]:
    the last period that has a predecessor gets a break before it. *)
Fixpoint forcePeriodLine_from (tokens : list tokref) (index : nat)
    (h : heap) : heap :=
  match index with
  | O => h
  | S below =>
      match tokens !! index, tokens !! below with
      | Some current, Some previous =>
          if negb (eqb (simplify (text (h current))) PERIOD)
          then forcePeriodLine_from tokens below h
          else writeBreak previous true h
      | _, _ => forcePeriodLine_from tokens below h
      end
  end.

Definition forcePeriodLine (statement : AbapStatement) (h : heap) : heap :=
  let tokens := tokens statement in
  if bool_decide (length tokens < 2) then h
  else forcePeriodLine_from tokens (length tokens - 1) h.

(** The body of the [for] loop of [mergeTrailingComments] at index [i]:
    [current] is [statements[i]], [next] is [statements[i + 1]]. *)
Definition mergeAt (touched : gset nat) (st : Store) (i : nat) : Store :=
  match body st !! i, body st !! S i with
  | Some current, Some next =>
      if negb (bool_decide (i ∈ touched)) then st
      else
        match trailingComment next with
        | None => st
        | Some nextComment =>
            if negb (inline nextComment) then st
            else if negb (bool_decide (startLine (cloc nextComment)
                                       = endLine (sloc current)))
            then st
            else
              match extractCommentParts nextComment with
              | None => st
              | Some nextParts =>
                  let currentComment := trailingComment current in
                  let currentParts :=
                    currentComment ≫= extractCommentParts in
                  if isPseudo nextParts
                     || from_option isPseudo false currentParts
                  then
                    {| tokenHeap := forcePeriodLine current (tokenHeap st);
                       body :=
                         <[S i := set_trailingComment None next]> (body st);
                       postComments :=
                         <[i := cloneComment nextComment]>
                           (postComments st) |}
                  else
                    let combinedText :=
                      match currentParts with
                      | Some currentParts =>
                          pvalue currentParts ++ lit "; "
                          ++ pvalue nextParts
                      | None => pvalue nextParts
                      end in
                    let baseComment :=
                      match currentComment with
                      | Some currentComment => currentComment
                      | None => nextComment
                      end in
                    let baseComment :=
                      set_value (dquote ++ lit " " ++ combinedText)
                        baseComment in
                    {| tokenHeap := tokenHeap st;
                       body :=
                         <[S i := set_trailingComment None next]>
                           (<[i := set_trailingComment (Some baseComment)
                                     current]> (body st));
                       postComments := postComments st |}
              end
        end
  | _, _ => st
  end.

Definition mergeTrailingComments (touched : gset nat) (st : Store)
    : Store :=
  fold_left (mergeAt touched) (seq 0 (length (body st) - 1)) st.

(** The [for (const entry of statement.chain.entries)] loop. *)
Definition adjustChainEntries (entries : list AbapChainEntry) (h : heap)
    : heap :=
  fold_left
    (fun h entry =>
       match etokens entry with
       | Some tokens => fst (adjustClosingBracketsInTokens (Some tokens) h)
       | None => h
       end)
    entries h.

(** The body of the first loop of [applyClosingBracketsPosition] for the
    statement at index [i]; [acc] carries the store and the set of
    touched statements. *)
Definition repositionStatement (acc : Store * gset nat)
    (indexed : nat * AbapStatement) : Store * gset nat :=
  let '(st, touchedStatements) := acc in
  let '(i, statement) := indexed in
  let postComments1 := delete i (postComments st) in
  let '(h1, changed) :=
    adjustClosingBracketsInTokens (Some (tokens statement)) (tokenHeap st) in
  let touchedStatements1 :=
    if changed then {[i]} ∪ touchedStatements else touchedStatements in
  let h2 :=
    match chain statement with
    | Some chain => adjustChainEntries (entries chain) h1
    | None => h1
    end in
  ({| tokenHeap := h2; body := body st; postComments := postComments1 |},
   touchedStatements1).

Definition applyClosingBracketsPosition (st : Store) : Store :=
  if bool_decide (length (body st) = 0) then st
  else
    let '(st1, touchedStatements) :=
      fold_left repositionStatement (imap pair (body st)) (st, ∅) in
    mergeTrailingComments touchedStatements st1.

(** The text that the token-order property compares: all token texts of
    all statements in order (statement tokens, then the chain keyword and
    the tokens of the chain entries), concatenated, whitespace dropped. *)
Definition statementTokenRefs (statement : AbapStatement) : list tokref :=
  tokens statement
  ++ match chain statement with
     | Some chain =>
         keyword chain
         :: concat (map (fun entry => default [] (etokens entry))
                        (entries chain))
     | None => []
     end.

Definition concatTokenTexts (st : Store) : jsstring :=
  filter (fun c => isWhiteSpace c = false)
    (concat (map (fun r => text (tokenHeap st r))
                 (concat (map statementTokenRefs (body st))))).

End ClosingBracketsPositionRule.

(** ** [rules/needlessSpacesRule.ts] *)
Module NeedlessSpacesRule.
Import Js Types.
Local Open Scope Z_scope.

Definition ASSIGNMENT_OPERATORS : list jsstring :=
  [ lit "="; lit ":="; lit "+="; lit "-="; lit "*="; lit "/="; lit "&&=";
    lit "&&= "; lit "?=" ].

Definition COMPARISON_OPERATORS : list jsstring :=
  [ lit "="; lit "=="; lit "<>"; lit "!="; lit "<"; lit "<="; lit ">";
    lit ">=" ].

Definition isDigit (c : N) : bool := ((48 <=? c) && (c <=? 57))%N.

(** The tail [(?:\.\d+)?$] of [NUMERIC_LITERAL]. *)
Definition numericTail (s : jsstring) : bool :=
  match s with
  | [] => true
  | c :: fraction =>
      (c =? 46)%N && negb (bool_decide (fraction = []))
      && forallb isDigit fraction
  end.

(** [NUMERIC_LITERAL.test(s)] for
    [/^[+-]?(?:\d+|'[\d.]+')(?:\.\d+)?$/u]: an optional sign, then digits
    or a quoted run of digits and dots, then an optional fraction. *)
Definition NUMERIC_LITERAL (s : jsstring) : bool :=
  let unsigned :=
    match s with
    | c :: r => if ((c =? 43) || (c =? 45))%N then r else s
    | [] => s
    end in
  match unsigned with
  | [] => false
  | c :: r =>
      if (c =? 39)%N
      then
        let inQuotes c := isDigit c || (c =? 46)%N in
        negb (bool_decide (takeWhile inQuotes r = []))
        && match dropWhile inQuotes r with
           | q :: tail => (q =? 39)%N && numericTail tail
           | [] => false
           end
      else
        isDigit c && numericTail (dropWhile isDigit unsigned)
  end.

Inductive TokenType :=
| COLON | COMMA | PERIOD | ASSIGNMENT_OP | COMPARISON_OP
| COMMENT | PRAGMA | LITERAL | IDENTIFIER.

#[global] Instance TokenType_eq_dec : EqDecision TokenType.
Proof. solve_decision. Defined.

Record TokenPos := {
  token : tokref;
  startColumn : Z;
  endColumn : Z;
  lineNumber : Z;
  commandNumber : Z;
  spacesLeft : Z;
  isFirstInLine : bool;
  startIndexInLine : Z;
  prevEndColumn : Z;
  tokenType : TokenType;
  prevTokenType : option TokenType
}.

(** The three tables that the passes of the rule write:
    [processedTokens] and [groupedTokens] are sets of tokens, [overrides]
    maps a token to the number of spaces to put before it. *)
Record Tables := {
  processedTokens : gset tokref;
  overrides : gmap tokref Z;
  groupedTokens : gset tokref
}.

Definition isAssignmentOperatorToken (t : AbapToken) : bool :=
  has ASSIGNMENT_OPERATORS (trim (text t)).

Definition isComparisonOperatorToken (t : AbapToken) : bool :=
  has COMPARISON_OPERATORS (trim (text t)).

Definition isNumericLiteralToken (t : AbapToken) : bool :=
  NUMERIC_LITERAL (trim (text t)).

Definition classifyTokenType (t : AbapToken) : TokenType :=
  if eqb (text t) (lit ":") then COLON
  else if eqb (text t) (lit ",") then COMMA
  else if eqb (text t) (lit ".") then PERIOD
  else if isAssignmentOperatorToken t then ASSIGNMENT_OP
  else if isComparisonOperatorToken t then COMPARISON_OP
  else if bool_decide (role t = role_comment) then COMMENT
  else if bool_decide (role t = role_pragma) then PRAGMA
  else if bool_decide (role t = role_string) || isNumericLiteralToken t
  then LITERAL
  else IDENTIFIER.

Definition getTokenLength (t : AbapToken) : Z :=
  Z.max 1 (Types.endColumn (loc t) - Types.startColumn (loc t)).

(** [trimmed.indexOf(".")], [None] for [-1]. *)
Fixpoint indexOfDot (s : jsstring) (index : Z) : option Z :=
  match s with
  | [] => None
  | c :: r => if (c =? 46)%N then Some index else indexOfDot r (index + 1)
  end.

(** The downward loop of [getNumericAlignmentIndex] over the reversed
    string: [index] is the position of the head of [reversed]. *)
Fixpoint lastAlignmentChar (reversed : jsstring) (index : Z) : option Z :=
  match reversed with
  | [] => None
  | c :: r =>
      if negb (c =? 45)%N && negb (c =? 39)%N then Some index
      else lastAlignmentChar r (index - 1)
  end.

Definition getNumericAlignmentIndex (text : jsstring) : Z :=
  let trimmed := trim text in
  match indexOfDot trimmed 0 with
  | Some dotIndex => Z.max 0 (dotIndex - 1)
  | None =>
      match lastAlignmentChar (rev trimmed) (Z.of_nat (length trimmed) - 1) with
      | Some index => index
      | None => Z.of_nat (length trimmed)
      end
  end.

Definition isSequenceBridgeKeyword (t : AbapToken) : bool :=
  eqb (upper t) (lit "ELSE") || eqb (upper t) (lit "ELSEIF")
  || eqb (upper t) (lit "WHEN").

Definition compareTokenPos (a b : TokenPos) : Z :=
  if negb (bool_decide (lineNumber a = lineNumber b))
  then lineNumber a - lineNumber b
  else if negb (bool_decide (commandNumber a = commandNumber b))
  then commandNumber a - commandNumber b
  else startColumn a - startColumn b.

(** [array.sort(compare)]: the sort of the language is stable; an
    insertion sort that keeps equal elements in their order models it. *)
Fixpoint insertSorted {A} (compare : A -> A -> Z) (x : A) (l : list A)
    : list A :=
  match l with
  | [] => [x]
  | y :: r =>
      if bool_decide (compare x y <= 0) then x :: l
      else y :: insertSorted compare x r
  end.

Definition sort {A} (compare : A -> A -> Z) (l : list A) : list A :=
  foldr (insertSorted compare) [] l.

Definition addTokenPos (tokensOfXPos : gmap Z (list TokenPos))
    (tokenPos : TokenPos) (key : Z) : gmap Z (list TokenPos) :=
  match tokensOfXPos !! key with
  | Some list => <[key := list ++ [tokenPos]]> tokensOfXPos
  | None => <[key := [tokenPos]]> tokensOfXPos
  end.

Definition tokenTypesMatch (type1 type2 : TokenType) : bool :=
  let exact (t : TokenType) :=
    bool_decide (type1 = t) || bool_decide (type2 = t) in
  if exact COLON then bool_decide (type1 = type2)
  else if exact COMMA then bool_decide (type1 = type2)
  else if exact PERIOD then bool_decide (type1 = type2)
  else if exact ASSIGNMENT_OP then bool_decide (type1 = type2)
  else if exact COMPARISON_OP then bool_decide (type1 = type2)
  else if exact COMMENT then bool_decide (type1 = type2)
  else if exact PRAGMA then bool_decide (type1 = type2)
  else true.

(** What [collectTokenPositions] fills in. *)
Record Collected := {
  tokensOfXPos : gmap Z (list TokenPos);
  firstTokenOfLine : gmap Z TokenPos;
  collectedTokens : list TokenPos
}.

(** The body of the [for (const token of tokens)] loop of
    [collectFromTokens]; the state is the tables and [previous]. *)
Definition collectToken (h : heap) (commandNumber : Z)
    (acc : Collected * option TokenPos) (token : tokref)
    : Collected * option TokenPos :=
  let '(c, previous) := acc in
  let t := h token in
  let startColumn := Z.max 0 (Types.startColumn (loc t)) in
  let endColumn := Z.max startColumn (Types.endColumn (loc t)) in
  let lineNumber := Types.startLine (loc t) in
  let isNewLine :=
    match previous with
    | None => true
    | Some previous => negb (bool_decide (NeedlessSpacesRule.lineNumber previous = lineNumber))
    end in
  let '(prevEndColumn, spacesLeft) :=
    match previous with
    | Some previous =>
        if isNewLine then (startColumn - 1, startColumn)
        else (NeedlessSpacesRule.endColumn previous,
              Z.max 0 (startColumn - NeedlessSpacesRule.endColumn previous - 1))
    | None => (startColumn - 1, startColumn)
    end in
  let tokenType := classifyTokenType t in
  let tokenPos :=
    {| token := token; startColumn := startColumn; endColumn := endColumn;
       lineNumber := lineNumber; commandNumber := commandNumber;
       spacesLeft := spacesLeft; isFirstInLine := isNewLine;
       startIndexInLine := startColumn; prevEndColumn := prevEndColumn;
       tokenType := tokenType;
       prevTokenType := NeedlessSpacesRule.tokenType <$> previous |} in
  let firstTokenOfLine1 :=
    if isNewLine && negb (bool_decide (is_Some (firstTokenOfLine c !! lineNumber)))
    then <[lineNumber := tokenPos]> (firstTokenOfLine c)
    else firstTokenOfLine c in
  let tokensOfXPos1 :=
    addTokenPos (tokensOfXPos c) tokenPos (2 * startIndexInLine tokenPos) in
  let tokensOfXPos2 :=
    if isAssignmentOperatorToken t
    then
      let specialXPos := startIndexInLine tokenPos + getTokenLength t - 1 in
      addTokenPos tokensOfXPos1 tokenPos (2 * specialXPos + 1)
    else if isComparisonOperatorToken t
    then
      let specialXPos := startIndexInLine tokenPos + getTokenLength t - 1 in
      addTokenPos tokensOfXPos1 tokenPos (2 * specialXPos + 1)
    else if isNumericLiteralToken t
    then
      let specialXPos :=
        startIndexInLine tokenPos + getNumericAlignmentIndex (text t) in
      addTokenPos tokensOfXPos1 tokenPos (2 * specialXPos + 1)
    else tokensOfXPos1 in
  ({| tokensOfXPos := tokensOfXPos2; firstTokenOfLine := firstTokenOfLine1;
      collectedTokens := collectedTokens c ++ [tokenPos] |},
   Some tokenPos).

Definition collectFromTokens (h : heap) (tokens : list tokref)
    (commandNumber : Z) (c : Collected) : Collected :=
  fst (fold_left (collectToken h commandNumber) tokens (c, None)).

(** The token arrays of a statement in the order in which the rule
    visits them: the statement's own, then those of its chain entries of
    type ["entry"]. *)
Definition tokenArrays (statement : AbapStatement) : list (list tokref) :=
  tokens statement
  :: match chain statement with
     | Some chain =>
         omap (fun entry =>
                 match etype entry, etokens entry with
                 | entry_entry, Some tokens => Some tokens
                 | _, _ => None
                 end)
              (entries chain)
     | None => []
     end.

Definition collectTokenPositions (h : heap)
    (statements : list AbapStatement) : Collected :=
  fst (fold_left
         (fun '(c, commandNumber) statement =>
            (fold_left (fun c tokens => collectFromTokens h tokens commandNumber c)
                       (tokenArrays statement) c,
             commandNumber + 1))
         statements
         ({| tokensOfXPos := ∅; firstTokenOfLine := ∅; collectedTokens := [] |},
          0)).

Definition tokenBreaksSequence (h : heap)
    (firstTokenPos prevTokenPos testTokenPos : TokenPos) (xPos : Z)
    (firstTokenOfLine : gmap Z TokenPos) : bool :=
  if negb (bool_decide (tokenType firstTokenPos = COMMENT))
     && negb (bool_decide (commandNumber prevTokenPos = commandNumber testTokenPos))
     && bool_decide (lineNumber testTokenPos > lineNumber prevTokenPos + 1)
     && existsb
          (fun line =>
             match firstTokenOfLine !! line with
             | None => false
             | Some firstOfLine =>
                 bool_decide (startIndexInLine firstOfLine < xPos)
                 && negb (isSequenceBridgeKeyword (h (token firstOfLine)))
             end)
          (seqZ (lineNumber prevTokenPos + 1)
                (lineNumber testTokenPos - lineNumber prevTokenPos - 1))
  then true
  else if bool_decide (prevTokenType firstTokenPos = Some ASSIGNMENT_OP)
          && bool_decide (prevTokenType testTokenPos = Some ASSIGNMENT_OP)
  then false
  else if negb (tokenTypesMatch (tokenType firstTokenPos) (tokenType testTokenPos))
  then true
  else false.

(** The members [tokenPosList[startIndex .. endIndex - 1]] of a run. *)
Definition runMembers (tokenPosList : list TokenPos)
    (startIndex endIndex : nat) : list TokenPos :=
  take (endIndex - startIndex) (drop startIndex tokenPosList).

(** [Math.min(spacesToSpare, x)] where [None] is [POSITIVE_INFINITY]. *)
Definition minSpare (spacesToSpare : option Z) (x : Z) : option Z :=
  match spacesToSpare with
  | None => Some x
  | Some s => Some (Z.min s x)
  end.

Definition isSeparatorType (t : TokenType) : bool :=
  bool_decide (t = COMMA) || bool_decide (t = PERIOD)
  || bool_decide (t = COLON).

(** [maxPrevEndColumn] as the first loop of the special-alignment branch
    leaves it. *)
Definition runMaxPrevEndColumn (members : list TokenPos) : Z :=
  fold_left
    (fun m testTokenPos =>
       if negb (isFirstInLine testTokenPos)
       then Z.max m (prevEndColumn testTokenPos) else m)
    members 0.

(** What one member contributes to [spacesToSpare]. *)
Definition testSpacesToSpare (isSpecialAlignment : bool)
    (maxPrevEndColumn : Z) (testTokenPos : TokenPos) : Z :=
  let spacesLeft := Z.max 0 (spacesLeft testTokenPos) in
  if isSpecialAlignment
  then startIndexInLine testTokenPos - maxPrevEndColumn - 1
  else spacesLeft - 1.

(** [spacesToSpare] as the loop over the run leaves it. *)
Definition runSpacesToSpare (isSpecialAlignment : bool)
    (maxPrevEndColumn : Z) (members : list TokenPos) : option Z :=
  fold_left
    (fun spacesToSpare testTokenPos =>
       minSpare spacesToSpare
         (testSpacesToSpare isSpecialAlignment maxPrevEndColumn testTokenPos))
    members None.

(** The last loop of [processSequence]: the overrides of the run. *)
Definition writeRunOverrides (spacesToSpare : Z) (members : list TokenPos)
    (overrides : gmap tokref Z) : gmap tokref Z :=
  fold_left
    (fun o tokenPos =>
       if isSeparatorType (tokenType tokenPos) then o
       else if isFirstInLine tokenPos then o
       else if bool_decide (tokenType tokenPos = COMMENT) then o
       else
         let newSpaces := Z.max 0 (spacesLeft tokenPos - spacesToSpare) in
         <[token tokenPos := newSpaces]> o)
    members overrides.

(** [processSequence]; its callers pass
    [startIndex < endIndex <= tokenPosList.length]. *)
Definition processSequence (tokenPosList : list TokenPos)
    (startIndex endIndex : nat) (isSpecialAlignment : bool)
    (tb : Tables) : Tables :=
  if bool_decide (Z.of_nat endIndex - Z.of_nat startIndex < 2) then tb
  else
    let members := runMembers tokenPosList startIndex endIndex in
    let groupedTokens1 :=
      fold_left (fun g tokenPos => {[token tokenPos]} ∪ g) members
        (groupedTokens tb) in
    let maxPrevEndColumn :=
      if isSpecialAlignment then runMaxPrevEndColumn members else 0 in
    let allStartColumnsEqual :=
      match tokenPosList !! startIndex with
      | Some firstTokenPos =>
          forallb (fun testTokenPos =>
                     bool_decide (startIndexInLine testTokenPos
                                  = startIndexInLine firstTokenPos))
                  members
      | None => true
      end in
    if isSpecialAlignment && allStartColumnsEqual
    then {| processedTokens := processedTokens tb; overrides := overrides tb;
            groupedTokens := groupedTokens1 |}
    else
      let processedTokens1 :=
        if isSpecialAlignment
        then fold_left (fun p tokenPos => {[token tokenPos]} ∪ p) members
               (processedTokens tb)
        else processedTokens tb in
      let spacesToSpare :=
        runSpacesToSpare isSpecialAlignment maxPrevEndColumn members in
      let hasFirstTokensOnly := forallb isFirstInLine members in
      match spacesToSpare with
      | None =>
          {| processedTokens := processedTokens1; overrides := overrides tb;
             groupedTokens := groupedTokens1 |}
      | Some spacesToSpare =>
          if hasFirstTokensOnly || bool_decide (spacesToSpare <= 0)
          then {| processedTokens := processedTokens1;
                  overrides := overrides tb;
                  groupedTokens := groupedTokens1 |}
          else
            {| processedTokens := processedTokens1;
               overrides :=
                 writeRunOverrides spacesToSpare members (overrides tb);
               groupedTokens := groupedTokens1 |}
      end.

(** The spec's reading of [spacesToSpare]: the least slack of a run. *)
Definition leastSlack (slacks : list Z) : option Z :=
  match slacks with
  | [] => None
  | x :: rest => Some (foldr Z.min x rest)
  end.

(** The inner [while (true)] loop of [computeNeedlessSpacesOverrides]:
    [rest] is [tokenPosList.slice(endIndex + 1)]; the result is the final
    [endIndex] and [skipSequence]. *)
Fixpoint scanRun (h : heap) (processed : gset tokref)
    (firstTokenOfLine : gmap Z TokenPos) (realXPos : Z)
    (firstTokenPos prevTokenPos : TokenPos) (rest : list TokenPos)
    (endIndex : nat) (skipSequence : bool) : nat * bool :=
  let skipSequence :=
    skipSequence || bool_decide (token prevTokenPos ∈ processed) in
  let endIndex := S endIndex in
  match rest with
  | [] => (endIndex, skipSequence)
  | testTokenPos :: rest' =>
      if tokenBreaksSequence h firstTokenPos prevTokenPos testTokenPos
           realXPos firstTokenOfLine
      then (endIndex, skipSequence)
      else scanRun h processed firstTokenOfLine realXPos firstTokenPos
             testTokenPos rest' endIndex skipSequence
  end.

(** The [while (startIndex < tokenPosList.length)] loop.  Each round
    moves [startIndex] forward by at least one, so [length tokenPosList]
    rounds of [fuel] always suffice. *)
Fixpoint processRuns (fuel : nat) (h : heap)
    (firstTokenOfLine : gmap Z TokenPos) (tokenPosList : list TokenPos)
    (isSpecialAlignment : bool) (realXPos : Z) (startIndex : nat)
    (tb : Tables) : Tables :=
  match fuel with
  | O => tb
  | S fuel' =>
      match tokenPosList !! startIndex with
      | None => tb
      | Some firstTokenPos =>
          let '(endIndex, skipSequence) :=
            scanRun h (processedTokens tb) firstTokenOfLine realXPos
              firstTokenPos firstTokenPos
              (drop (S startIndex) tokenPosList) startIndex false in
          let tb1 :=
            if negb skipSequence
            then processSequence tokenPosList startIndex endIndex
                   isSpecialAlignment tb
            else tb in
          processRuns fuel' h firstTokenOfLine tokenPosList
            isSpecialAlignment realXPos endIndex tb1
      end
  end.

(** The body of the [for] loop over the x-positions. *)
Definition processXPos (h : heap) (c : Collected) (tb : Tables)
    (xPosKey : Z) : Tables :=
  match tokensOfXPos c !! xPosKey with
  | None => tb
  | Some tokenPosList =>
      if bool_decide (length tokenPosList < 2)%nat then tb
      else
        let tokenPosList := sort compareTokenPos tokenPosList in
        let isSpecialAlignment := negb (bool_decide (Z.rem xPosKey 2 = 0)) in
        let realXPos := xPosKey / 2 in
        processRuns (length tokenPosList) h (firstTokenOfLine c)
          tokenPosList isSpecialAlignment realXPos 0%nat tb
  end.

Definition condenseStandaloneTokens (tokenPositions : list TokenPos)
    (groupedTokens : gset tokref) (overrides : gmap tokref Z)
    : gmap tokref Z :=
  fold_left
    (fun o tokenPos =>
       if isFirstInLine tokenPos then o
       else if bool_decide (token tokenPos ∈ groupedTokens) then o
       else if bool_decide (is_Some (o !! token tokenPos)) then o
       else if bool_decide (tokenType tokenPos = COMMENT)
               || bool_decide (tokenType tokenPos = PRAGMA)
               || bool_decide (tokenType tokenPos = COMMA)
               || bool_decide (tokenType tokenPos = PERIOD)
               || bool_decide (tokenType tokenPos = COLON)
       then o
       else if bool_decide (spacesLeft tokenPos <= 1) then o
       else <[token tokenPos := 1]> o)
    tokenPositions overrides.

Definition isMatchingBracketPair (open close : jsstring) : bool :=
  (eqb open (lit "(") && eqb close (lit ")"))
  || (eqb open (lit "[") && eqb close (lit "]")).

(** The [for] loop of [applyEmptyBracketOverridesToTokens], on the pairs
    [(tokens[index], tokens[index + 1])]. *)
Fixpoint applyEmptyBracketOverridesToTokens (h : heap)
    (tokens : list tokref) (overrides : gmap tokref Z) : gmap tokref Z :=
  match tokens with
  | current :: ((next :: _) as rest) =>
      let overrides1 :=
        if negb (isMatchingBracketPair (text (h current)) (text (h next)))
        then overrides
        else if negb (bool_decide (Types.endLine (loc (h current))
                                   = Types.startLine (loc (h next))))
        then overrides
        else
          let spacesBetween :=
            Types.startColumn (loc (h next))
            - Types.endColumn (loc (h current)) - 1 in
          if bool_decide (spacesBetween > 0) then <[next := 0]> overrides
          else overrides in
      applyEmptyBracketOverridesToTokens h rest overrides1
  | _ => overrides
  end.

Definition applyEmptyBracketOverrides (h : heap)
    (statements : list AbapStatement) (overrides : gmap tokref Z)
    : gmap tokref Z :=
  fold_left
    (fun o statement =>
       fold_left (fun o tokens => applyEmptyBracketOverridesToTokens h tokens o)
                 (tokenArrays statement) o)
    statements overrides.

Definition computeNeedlessSpacesOverrides (h : heap)
    (statements : list AbapStatement) : gmap tokref Z :=
  let c := collectTokenPositions h statements in
  if bool_decide (size (tokensOfXPos c) = 0%nat) then ∅
  else
    let sortedXPositions :=
      sort (fun a b => a - b) (map fst (map_to_list (tokensOfXPos c))) in
    let tb :=
      fold_left (processXPos h c) (rev sortedXPositions)
        {| processedTokens := ∅; overrides := ∅; groupedTokens := ∅ |} in
    let overrides1 :=
      condenseStandaloneTokens (collectedTokens c) (groupedTokens tb)
        (overrides tb) in
    applyEmptyBracketOverrides h statements overrides1.

End NeedlessSpacesRule.

(** ** [rules/upperAndLowerCaseRule.ts] and [printers/abap.ts]

    The keyword dictionary comes from the tokenizer library and the case
    conversions from the language runtime; the printer is stated over
    them.  The documents it builds are those of the hosting library, of
    which only the builders used here are modelled. *)
Module Printer.
Import Js Types SpaceAroundCommentSignRule SpaceBeforePeriodRule.
Import ClosingBracketsPositionRule.
Local Open Scope Z_scope.

#[local] Unset Elimination Schemes.
Inductive Doc :=
| DocString (s : jsstring)
| DocHardline
| DocConcat (parts : list Doc)
| DocGroup (contents : Doc).
#[local] Set Elimination Schemes.

(** [join(hardline, lines)] *)
Fixpoint joinHardline (lines : list jsstring) : list Doc :=
  match lines with
  | [] => []
  | [line] => [DocString line]
  | line :: rest => DocString line :: DocHardline :: joinHardline rest
  end.

Section WithRuntime.

(** [KEYWORDS.has], [String.prototype.toUpperCase] and [toLowerCase]. *)
Variable KEYWORDS : jsstring -> bool.
Variable toUpperCase : jsstring -> jsstring.
Variable toLowerCase : jsstring -> jsstring.

Definition applyKeywordCase (t : AbapToken) (options : AbapPluginOptions)
    : jsstring :=
  let target := default kc_upper (abapKeywordCase options) in
  if negb (bool_decide (role t = role_word))
  then
    if bool_decide (role t = role_pragma)
    then match target with
         | kc_lower => toLowerCase (text t)
         | kc_upper => toUpperCase (text t)
         end
    else text t
  else if negb (KEYWORDS (upper t)) then text t
  else match target with
       | kc_lower => toLowerCase (upper t)
       | kc_upper => upper t
       end.

Definition renderToken (t : AbapToken) (options : AbapPluginOptions)
    : jsstring :=
  match role t with
  | role_word => applyKeywordCase t options
  | role_colon => lit ":"
  | role_arrow => trim (text t)
  | role_comment => formatCommentValue (text t) options
  | _ => text t
  end.

Definition computeOriginalSpaces (t : AbapToken)
    (previous : option AbapToken) : Z :=
  match previous with
  | None => 0
  | Some previous =>
      if negb (bool_decide (endLine (loc previous) = startLine (loc t)))
      then 0
      else
        let diff := startColumn (loc t) - endColumn (loc previous) - 1 in
        if bool_decide (diff > 0) then diff else 0
  end.

(** [activeNeedlessSpaces] is the module-level table set by
    [printProgram]; [None] is [undefined]. *)
Definition getSpacesBeforeToken (activeNeedlessSpaces : option (gmap tokref Z))
    (h : heap) (token : tokref) (previous : option tokref)
    (options : AbapPluginOptions) : Z :=
  let minSpaces :=
    if needsSpaceBefore (h token) (h <$> previous) options then 1 else 0 in
  match activeNeedlessSpaces ≫= (fun table => table !! token) with
  | Some override => override
  | None =>
      if bool_decide (minSpaces = 0) then 0
      else
        let originalSpaces :=
          computeOriginalSpaces (h token) (h <$> previous) in
        Z.max originalSpaces minSpaces
  end.

Definition isPunctuationToken (t : AbapToken) : bool :=
  bool_decide (role t = role_punctuation)
  || eqb (text t) (lit ",") || eqb (text t) (lit ".").

(** [/\s$/u.test(s)] *)
Definition endsWithWhiteSpace (s : jsstring) : bool :=
  match last s with
  | Some c => isWhiteSpace c
  | None => false
  end.

Definition appendComment (line : jsstring) (comment : option AbapComment)
    (options : AbapPluginOptions) : jsstring :=
  match comment with
  | None => line
  | Some comment =>
      let formatted := formatCommentValue (trimStart (value comment)) options in
      if negb (needsSpaceBeforeCommentSign options) then line ++ formatted
      else if bool_decide (length line = 0%nat) || endsWith (lit " ") line
      then line ++ formatted
      else line ++ lit " " ++ formatted
  end.

Record LineMeta := { metaStartLine : Z; metaEndLine : Z }.

(** The variables of the token loop of [printStatement]. *)
Record LineState := {
  lines : list jsstring;
  lineMetas : list LineMeta;
  currentLine : jsstring;
  previous : option tokref;
  atLineStart : bool;
  currentLineStartLine : option Z;
  currentLineEndLine : option Z
}.

(** The body of [for (const token of statement.tokens)]. *)
Definition printToken (active : option (gmap tokref Z)) (h : heap)
    (statement : AbapStatement) (options : AbapPluginOptions)
    (indent : jsstring) (ls : LineState) (token : tokref) : LineState :=
  let t := h token in
  let text := renderToken t options in
  if bool_decide (length text = 0%nat)
  then {| lines := lines ls; lineMetas := lineMetas ls;
          currentLine := currentLine ls; previous := Some token;
          atLineStart := atLineStart ls;
          currentLineStartLine := currentLineStartLine ls;
          currentLineEndLine := currentLineEndLine ls |}
  else
    let startLine1 :=
      match currentLineStartLine ls with
      | None => Some (startLine (loc t))
      | Some l => Some l
      end in
    let endLine1 := Some (startLine (loc t)) in
    let line1 :=
      if atLineStart ls
      then
        let relativeIndent :=
          Z.max 0 (startColumn (loc t) - startColumn (sloc statement)) in
        if bool_decide (relativeIndent > 0)
        then currentLine ls ++ spaces relativeIndent else currentLine ls
      else
        let n := getSpacesBeforeToken active h token (previous ls) options in
        if bool_decide (n > 0)
        then (if endsWithWhiteSpace (currentLine ls)
              then trimEnd (currentLine ls) else currentLine ls)
             ++ spaces n
        else currentLine ls in
    let line2 := line1 ++ text in
    if hasFollowingLineBreak t
    then
      {| lines := lines ls ++ [trimEnd line2];
         lineMetas :=
           lineMetas ls
           ++ [{| metaStartLine := default (startLine (loc t)) startLine1;
                  metaEndLine := default (startLine (loc t)) endLine1 |}];
         currentLine := indent; previous := None; atLineStart := true;
         currentLineStartLine := None; currentLineEndLine := None |}
    else
      {| lines := lines ls; lineMetas := lineMetas ls;
         currentLine := line2; previous := Some token; atLineStart := false;
         currentLineStartLine := startLine1;
         currentLineEndLine := endLine1 |}.

(** [/^[\s]*[.,]/.test(line)] *)
Definition startsWithPeriodOrComma (line : jsstring) : bool :=
  match dropWhile isWhiteSpace line with
  | c :: _ => ((c =? 46) || (c =? 44))%N
  | [] => false
  end.

(** The [for (let i = 1; i < lines.length; i++)] loop that joins a line
    starting with a period or comma to the line before it.  A round
    either moves [i] forward or shortens [lines], so [length lines]
    rounds of [fuel] suffice. *)
Fixpoint joinPunctuationLines (fuel : nat) (hasPostComment : bool)
    (i : nat) (lines : list jsstring) (lineMetas : list LineMeta)
    : list jsstring * list LineMeta :=
  match fuel with
  | O => (lines, lineMetas)
  | S fuel' =>
      if negb (bool_decide (i < length lines)%nat) then (lines, lineMetas)
      else if hasPostComment && bool_decide (i = length lines - 1)%nat
      then joinPunctuationLines fuel' hasPostComment (S i) lines lineMetas
      else
        match lines !! i, lines !! (i - 1)%nat with
        | Some line, Some lineBefore =>
            if startsWithPeriodOrComma line
            then
              let merged := trimEnd lineBefore ++ trimStart line in
              let lines1 :=
                take (i - 1) lines ++ merged :: drop (i + 1) lines in
              let meta :=
                match lineMetas !! (i - 1)%nat, lineMetas !! i with
                | Some previousMeta, Some currentMeta =>
                    {| metaStartLine := metaStartLine previousMeta;
                       metaEndLine := metaEndLine currentMeta |}
                | Some previousMeta, None =>
                    {| metaStartLine := metaStartLine previousMeta;
                       metaEndLine := metaEndLine previousMeta |}
                | None, Some currentMeta =>
                    {| metaStartLine := metaStartLine currentMeta;
                       metaEndLine := metaEndLine currentMeta |}
                | None, None => {| metaStartLine := 0; metaEndLine := 0 |}
                end in
              let lineMetas1 :=
                take (i - 1) lineMetas ++ meta :: drop (i + 1) lineMetas in
              joinPunctuationLines fuel' hasPostComment i lines1 lineMetas1
            else
              joinPunctuationLines fuel' hasPostComment (S i) lines lineMetas
        | _, _ =>
            joinPunctuationLines fuel' hasPostComment (S i) lines lineMetas
        end
  end.

(** [lineMetas.findIndex(meta => startLine >= meta.startLine &&
    startLine <= meta.endLine)] *)
Fixpoint findMetaIndex (commentLine : Z) (lineMetas : list LineMeta)
    (index : nat) : option nat :=
  match lineMetas with
  | [] => None
  | meta :: rest =>
      if bool_decide (commentLine >= metaStartLine meta)
         && bool_decide (commentLine <= metaEndLine meta)
      then Some index
      else findMetaIndex commentLine rest (S index)
  end.

(** [lines[lines.length - 1] = f(lines[lines.length - 1])] *)
Definition mapLast (f : jsstring -> jsstring) (lines : list jsstring)
    : list jsstring :=
  match lines with
  | [] => []
  | _ => alter f (length lines - 1)%nat lines
  end.

(** [printStatement] for the statement at index [index] of the program;
    it takes the statement's deferred post comment out of the store. *)
Definition printStatement (active : option (gmap tokref Z))
    (index : nat) (statement : AbapStatement)
    (options : AbapPluginOptions) (st : Store) : Doc * Store :=
  if bool_decide (length (tokens statement) = 0%nat)
     && negb (bool_decide (is_Some (trailingComment statement)))
  then (DocString [], st)
  else
    let h := tokenHeap st in
    let indentUnit := Z.max 1 (default 2 (tabWidth options)) in
    let baseIndentWidth :=
      if bool_decide (indentLevel statement >= 0)
      then indentLevel statement * indentUnit
      else Z.max 0 (startColumn (sloc statement)) in
    let indent := spaces baseIndentWidth in
    let ls :=
      fold_left (printToken active h statement options indent)
        (tokens statement)
        {| lines := []; lineMetas := []; currentLine := indent;
           previous := None; atLineStart := true;
           currentLineStartLine := None; currentLineEndLine := None |} in
    let '(lines1, lineMetas1) :=
      if bool_decide (0 < length (trim (currentLine ls)))%nat
      then
        (lines ls ++ [trimEnd (currentLine ls)],
         lineMetas ls
         ++ [{| metaStartLine :=
                  default (endLine (sloc statement)) (currentLineStartLine ls);
                metaEndLine :=
                  default (endLine (sloc statement)) (currentLineEndLine ls) |}])
      else if bool_decide (length (lines ls) = 0%nat)
      then
        (lines ls ++ [currentLine ls],
         lineMetas ls
         ++ [{| metaStartLine := startLine (sloc statement);
                metaEndLine := startLine (sloc statement) |}])
      else (lines ls, lineMetas ls) in
    let lines2 := mapLast trimEnd lines1 in
    let '(postComment, st1) := takePostComment index st in
    let '(lines3, lineMetas3) :=
      joinPunctuationLines (length lines2)
        (bool_decide (is_Some postComment)) 1%nat lines2 lineMetas1 in
    let lines4 :=
      match trailingComment statement with
      | None => lines3
      | Some comment =>
          match findMetaIndex (startLine (cloc comment)) lineMetas3 0%nat with
          | Some targetIndex =>
              alter (fun line => appendComment line (Some comment) options)
                targetIndex lines3
          | None =>
              if bool_decide (0 < length lines3)%nat
              then mapLast (fun line => appendComment line (Some comment) options)
                     lines3
              else lines3
                   ++ [formatCommentValue (trimStart (value comment)) options]
          end
      end in
    let lines5 :=
      match postComment with
      | None => lines4
      | Some postComment =>
          if bool_decide (length lines4 = 0%nat)
          then lines4
               ++ [formatCommentValue (trimStart (value postComment)) options]
          else mapLast
                 (fun line => appendComment line (Some postComment) options)
                 lines4
      end in
    (DocConcat (joinHardline lines5), st1).

Definition shouldInlineFirstEntry (keyword : AbapToken) : bool :=
  let blockKeywords :=
    [lit "CLEAR"; lit "FREE"; lit "SORT"; lit "CATCH"; lit "TRY"] in
  negb (has blockKeywords (upper keyword)).

(** The body of the loop of [renderTokenSequence]; the state is [result]
    and [previous]. *)
Definition renderSequenceToken (active : option (gmap tokref Z)) (h : heap)
    (options : AbapPluginOptions)
    (acc : jsstring * option tokref) (token : tokref)
    : jsstring * option tokref :=
  let '(result, previous) := acc in
  let text := renderToken (h token) options in
  if bool_decide (length text = 0%nat) then (result, Some token)
  else
    let result1 :=
      if bool_decide (0 < length result)%nat
      then
        let n := getSpacesBeforeToken active h token previous options in
        if bool_decide (n > 0) then trimEnd result ++ spaces n
        else if isPunctuationToken (h token) then trimEnd result
        else result
      else result in
    (result1 ++ text, Some token).

Definition renderTokenSequence (active : option (gmap tokref Z)) (h : heap)
    (tokens : list tokref) (options : AbapPluginOptions) : jsstring :=
  trimEnd (fst (fold_left (renderSequenceToken active h options) tokens
                          ([], None))).

(** The second loop of [printChainStatement]: as in [printStatement] but
    without the post-comment exception and without line metas. *)
Definition joinChainLines (lines : list jsstring) : list jsstring :=
  fst (joinPunctuationLines (length lines) false 1%nat lines []).

Definition printChainStatement (active : option (gmap tokref Z)) (h : heap)
    (statement : AbapStatement) (options : AbapPluginOptions) : Doc :=
  match chain statement with
  | None => DocString []
  | Some chain =>
      let indentUnit := Z.max 1 (default 2 (tabWidth options)) in
      let baseIndentWidth :=
        if bool_decide (indentLevel statement >= 0)
        then indentLevel statement * indentUnit
        else Z.max 0 (startColumn (sloc statement)) in
      let baseIndent := spaces baseIndentWidth in
      let keyword := renderToken (h (keyword chain)) options in
      let inlineFirst := shouldInlineFirstEntry (h (Types.keyword chain)) in
      let firstEntryIndentWidth :=
        if inlineFirst
        then baseIndentWidth + Z.of_nat (length keyword) + 2
        else baseIndentWidth + indentUnit in
      let entryIndent := spaces firstEntryIndentWidth in
      let '(lines, _) :=
        fold_left
          (fun '(lines, firstEntryHandled) entry =>
             match etype entry with
             | entry_entry =>
                 let content :=
                   renderTokenSequence active h (default [] (etokens entry))
                     options in
                 let entryLine :=
                   if bool_decide (0 < length content)%nat
                   then entryIndent ++ content else entryIndent in
                 if negb firstEntryHandled
                 then
                   if inlineFirst && bool_decide (0 < length content)%nat
                   then
                     (lines
                      ++ [appendComment
                            (baseIndent ++ keyword ++ lit ": " ++ content)
                            (etrailingComment entry) options],
                      true)
                   else
                     (lines
                      ++ [baseIndent ++ keyword ++ lit ":";
                          appendComment entryLine (etrailingComment entry)
                            options],
                      true)
                 else
                   (lines
                    ++ [appendComment entryLine (etrailingComment entry)
                          options],
                    firstEntryHandled)
             | entry_comment =>
                 match ecomment entry with
                 | Some comment =>
                     let commentIndent :=
                       spaces (Z.max 0 (startColumn (cloc comment))) in
                     (lines
                      ++ [commentIndent
                          ++ formatCommentValue (trimStart (value comment))
                               options],
                      firstEntryHandled)
                 | None => (lines, firstEntryHandled)
                 end
             end)
          (entries chain) ([], false) in
      let lines1 :=
        if bool_decide (length lines = 0%nat)
        then [baseIndent ++ keyword ++ lit ":"] else lines in
      DocConcat (joinHardline (joinChainLines lines1))
  end.

(** The dispatch of [print] on a statement of the program. *)
Definition printBodyStatement (active : option (gmap tokref Z))
    (index : nat) (statement : AbapStatement)
    (options : AbapPluginOptions) (st : Store) : Doc * Store :=
  match chain statement with
  | Some _ => (printChainStatement active (tokenHeap st) statement options, st)
  | None => printStatement active index statement options st
  end.

(** The body of [program.body.forEach]: [prev] is [program.body[index -
    1]], absent for the first statement. *)
Definition printProgramStep (active : option (gmap tokref Z))
    (options : AbapPluginOptions)
    (acc : list Doc * option AbapStatement * Store)
    (indexed : nat * AbapStatement) : list Doc * option AbapStatement * Store :=
  let '(docs, prev, st) := acc in
  let '(index, statement) := indexed in
  let gapLines :=
    match prev with
    | None => []
    | Some prev =>
        let gap :=
          Z.max 1 (startLine (sloc statement) - endLine (sloc prev)) in
        replicate (Z.to_nat gap) DocHardline
    end in
  let '(doc, st') := printBodyStatement active index statement options st in
  (docs ++ gapLines ++ [doc], Some statement, st').

(** [printProgram]: the store is the program body with its tokens; the
    result is the document and the store as the passes left it. *)
Definition printProgram (options : AbapPluginOptions) (st : Store)
    : Doc * Store :=
  if bool_decide (length (body st) = 0%nat) then (DocString [], st)
  else
    let st1 := applyClosingBracketsPosition st in
    let active :=
      Some (NeedlessSpacesRule.computeNeedlessSpacesOverrides
              (tokenHeap st1) (body st1)) in
    let '(docs, _, st2) :=
      fold_left (printProgramStep active options) (imap pair (body st1))
        ([], None, st1) in
    (DocGroup (DocConcat (docs ++ [DocHardline])), st2).

End WithRuntime.
End Printer.

(** ** The fallback of [parsers/abap.ts]

    When the tokenizer throws, or yields no ABAP object or no ABAP file,
    [parseAbap] returns [buildFallbackAst]: one statement per line of the
    document, holding the trimmed line as its only token.  Of the
    program node only the body and its tokens are modelled. *)
Module Parser.
Import Js Types ClosingBracketsPositionRule.
Local Open Scope Z_scope.

(** [input.replace(/\r\n?/g, "\n")] *)
Fixpoint normalizeNewlines (input : jsstring) : jsstring :=
  match input with
  | [] => []
  | c :: rest =>
      if (c =? 13)%N
      then 10%N :: match rest with
                   | c' :: rest' =>
                       if (c' =? 10)%N then normalizeNewlines rest'
                       else normalizeNewlines rest
                   | [] => []
                   end
      else c :: normalizeNewlines rest
  end.

(** [text.split("\n")] *)
Fixpoint splitLines (text : jsstring) : list jsstring :=
  match text with
  | [] => [[]]
  | c :: rest =>
      if (c =? 10)%N then [] :: splitLines rest
      else match splitLines rest with
           | line :: lines => (c :: line) :: lines
           | [] => [[c]]
           end
  end.

Definition buildLineOffsets (text : jsstring) : list Z :=
  fst (fold_left
         (fun '(offsets, current) line =>
            let current := current + Z.of_nat (length line) + 1 in
            (offsets ++ [current], current))
         (splitLines text) ([0], 0)).

(** The ways in which the tokenizer fails the parser. *)
Inductive TokenizerFailure := ParseThrows | NoAbapObject | NoAbapFile.

Section WithRuntime.

Variable toUpperCase : jsstring -> jsstring.

Definition fallbackLoc (lineOffsets : list Z) (index : nat)
    (line : jsstring) : SourceLocation :=
  let startOffset := default 0 (lineOffsets !! index) in
  {| start := startOffset; end_ := startOffset + Z.of_nat (length line);
     startLine := Z.of_nat index + 1; startColumn := 0;
     endLine := Z.of_nat index + 1;
     endColumn := Z.of_nat (length line) |}.

Definition fallbackToken (lineOffsets : list Z) (index : nat)
    (line : jsstring) : AbapToken :=
  {| role := role_word; text := trim line; upper := toUpperCase (trim line);
     loc := fallbackLoc lineOffsets index line;
     hasFollowingLineBreak := false; original := Some line |}.

(** The token object made for line [index] is given reference [index]. *)
Definition fallbackStatement (lineOffsets : list Z) (index : nat)
    (line : jsstring) : AbapStatement :=
  {| kind := lit "Fallback";
     tokens := if eqb (trim line) [] then [] else [index];
     sloc := fallbackLoc lineOffsets index line;
     indentLevel := 0; trailingComment := None; pragmas := [];
     raw := line; chain := None |}.

(** The statements are new objects, so the post-comment table has no
    entry for them. *)
Definition buildFallbackAst (text : jsstring) (lineOffsets : list Z)
    : Store :=
  let lines := splitLines text in
  {| tokenHeap :=
       fun r => fallbackToken lineOffsets r (default [] (lines !! r));
     body := imap (fallbackStatement lineOffsets) lines;
     postComments := ∅ |}.

(** [parseAbap] when the tokenizer fails in one of the three ways. *)
Definition parseAbap_fallback (source : jsstring) (_ : TokenizerFailure)
    : Store :=
  let text := normalizeNewlines source in
  let lineOffsets := buildLineOffsets text in
  buildFallbackAst text lineOffsets.

End WithRuntime.

(** The spec's fallback policy, in its words: the document passed
    through line by line with only whitespace trimming applied.  Each
    line is a document of its own (an empty one for a blank line), the
    lines are separated by one hard line break and followed by one. *)
Definition passThroughLine (line : jsstring) : Printer.Doc :=
  if eqb (trim line) [] then Printer.DocString []
  else Printer.DocConcat [Printer.DocString (trim line)].

Definition passThroughDocs (lines : list jsstring) : list Printer.Doc :=
  match lines with
  | [] => []
  | line :: rest =>
      passThroughLine line
      :: flat_map (fun line => [Printer.DocHardline; passThroughLine line])
           rest
  end.

Definition passThrough (source : jsstring) : Printer.Doc :=
  Printer.DocGroup
    (Printer.DocConcat
       (passThroughDocs (splitLines (normalizeNewlines source))
        ++ [Printer.DocHardline])).

End Parser.

(** ** [parsers/abap.ts]: from the tokenizer's statements to the program

    The tokenizer library hands over statement nodes; of a node the
    parser reads its class name, its tokens, its pragmas, its colon and
    its concatenated text, and of a token its class.  What the record
    [StatementNode] does not hold is a parameter here.  Every call of
    [convertToken] makes a new token object: it is allocated in the heap
    of token objects at the next free reference. *)
Module Tokens.

(** The token classes that [classifyToken] tests for; [Other] stands for
    every remaining class. *)
Inductive class :=
| Comment | Pragma | Punctuation
| StringToken | StringTemplate | StringTemplateBegin | StringTemplateMiddle
| StringTemplateEnd
| Colon | StaticArrow | InstanceArrow | WInstanceArrow | WStaticArrow
| Other.

End Tokens.

Module ParserBuilder.
Import Js Types Abaplint Parser.
Local Open Scope Z_scope.

Definition DEFAULT_FILENAME : jsstring := lit "stdin.prog.abap".

(** [Number.MAX_SAFE_INTEGER] *)
Definition MAX_SAFE_INTEGER : Z := 9007199254740991.

(** [lineOffsets[row - 1] ?? 0] *)
Definition positionToOffset (pos : Position) (lineOffsets : list Z) : Z :=
  let row := Z.max (getRow pos) 1 in
  let col := Z.max (getCol pos) 1 in
  let lineStart := default 0 (lineOffsets !! Z.to_nat (row - 1)) in
  lineStart + (col - 1).

Definition calcLocation (start end_ : Position) (lineOffsets : list Z)
    : SourceLocation :=
  let startOffset := positionToOffset start lineOffsets in
  let endOffset := positionToOffset end_ lineOffsets in
  {| Types.start := startOffset; Types.end_ := endOffset;
     startLine := getRow start; startColumn := getCol start - 1;
     endLine := getRow end_; endColumn := getCol end_ - 1 |}.

Definition calcStatementLocation (startTokens : list AbstractToken)
    (lineOffsets : list Z) (endTokens : list AbstractToken)
    : SourceLocation :=
  match head startTokens, last endTokens with
  | Some first, Some last =>
      calcLocation (getStart first) (getEnd last) lineOffsets
  | _, _ =>
      {| Types.start := 0; Types.end_ := 0; startLine := 1; startColumn := 0;
         endLine := 1; endColumn := 0 |}
  end.

Definition isNewLineBetween (current next : AbstractToken) : bool :=
  bool_decide (getRow (getEnd current) < getRow (getStart next)).

(** [buildColonKey]: the string [row:col] of the colon's start; two keys
    are equal exactly when the rows and the columns are. *)
Definition buildColonKey (token : AbstractToken) : Z * Z :=
  (getRow (getStart token), getCol (getStart token)).

Definition classifyToken (c : Tokens.class) : TokenRole :=
  match c with
  | Tokens.Comment => role_comment
  | Tokens.Pragma => role_pragma
  | Tokens.Punctuation => role_punctuation
  | Tokens.StringToken | Tokens.StringTemplate | Tokens.StringTemplateBegin
  | Tokens.StringTemplateMiddle | Tokens.StringTemplateEnd => role_string
  | Tokens.Colon => role_colon
  | Tokens.StaticArrow | Tokens.InstanceArrow | Tokens.WInstanceArrow
  | Tokens.WStaticArrow => role_arrow
  | Tokens.Other => role_word
  end.

(** The token objects made so far, and the next free reference. *)
Record Alloc := { allocated : heap; nextRef : tokref }.

(** A new token object. *)
Definition newToken (t : AbapToken) (a : Alloc) : tokref * Alloc :=
  (nextRef a,
   {| allocated := fun r => if decide (r = nextRef a) then t
                            else allocated a r;
      nextRef := S (nextRef a) |}).

(** [tokens.findIndex((token) => token.role === "comment")] *)
Fixpoint findCommentIndex (h : heap) (tokens : list tokref) (index : nat)
    : option nat :=
  match tokens with
  | [] => None
  | t :: rest =>
      if bool_decide (role (h t) = role_comment) then Some index
      else findCommentIndex h rest (S index)
  end.

(** The function splices its argument in place; the result is the
    comment and the array as the splice leaves it. *)
Definition extractTrailingComment (h : heap) (tokens : list tokref)
    : option AbapComment * list tokref :=
  match findCommentIndex h tokens 0 with
  | None => (None, tokens)
  | Some index =>
      match tokens !! index with
      | Some trailing =>
          (Some {| value := text (h trailing); inline := true;
                   cloc := loc (h trailing) |},
           take index tokens ++ drop (S index) tokens)
      | None => (None, tokens)
      end
  end.

Definition mergeTokensWithPragmas (h : heap) (tokens pragmas : list tokref)
    : list tokref :=
  if bool_decide (length pragmas = 0%nat) then tokens
  else if bool_decide (length tokens = 0%nat) then pragmas
  else
    match last tokens with
    | Some lastToken =>
        if bool_decide (role (h lastToken) = role_punctuation)
           || eqb (text (h lastToken)) (lit ",")
           || eqb (text (h lastToken)) (lit ".")
        then take (length tokens - 1) tokens ++ pragmas
             ++ drop (length tokens - 1) tokens
        else tokens ++ pragmas
    | None => tokens ++ pragmas
    end.

Definition getEntryStartLine (h : heap) (entry : AbapChainEntry) : Z :=
  match etype entry with
  | entry_entry =>
      match etokens entry ≫= head with
      | Some token => startLine (loc (h token))
      | None => MAX_SAFE_INTEGER
      end
  | entry_comment =>
      match ecomment entry with
      | Some comment => startLine (cloc comment)
      | None => MAX_SAFE_INTEGER
      end
  end.

(** [/<suffix>$/i.test(s)] for a suffix of lower-case ASCII characters:
    without the [u] flag a character outside ASCII never matches an
    ASCII letter, so the test is on the ASCII letters folded to lower
    case. *)
Definition testSuffixIgnoreCase (suffix : string) (s : jsstring) : bool :=
  endsWith (lit suffix) (asciiLower s).

(** [filepath.replace(/\\/g, "/")] *)
Definition replaceBackslashes (s : jsstring) : jsstring :=
  map (fun c => if (c =? 92)%N then 47%N else c) s.

Section WithPath.

(** [path.basename] of the platform library. *)
Variable basename : jsstring -> jsstring.

(** [filepath] is [None] for [undefined]. *)
Definition inferFilename (filepath : option jsstring) : jsstring :=
  match filepath with
  | None => DEFAULT_FILENAME
  | Some filepath =>
      if bool_decide (length filepath = 0%nat) then DEFAULT_FILENAME
      else
        let normalized := replaceBackslashes filepath in
        let basename := basename normalized in
        if testSuffixIgnoreCase ".ddlsrc" basename then basename
        else if testSuffixIgnoreCase ".abap" basename
        then
          if testSuffixIgnoreCase ".clas.abap" basename
             || testSuffixIgnoreCase ".intf.abap" basename
          then basename
          else DEFAULT_FILENAME
        else if testSuffixIgnoreCase ".clas.macros" basename then basename
        else if testSuffixIgnoreCase ".intf.abap" basename then basename
        else DEFAULT_FILENAME
  end.

End WithPath.

Section WithTokenizer.

(** The class of a token ([instanceof]), [String.prototype.toUpperCase],
    and of a statement node: [get().constructor.name], [getColon()],
    [getPragmas()] and [concatTokens()]. *)
Variable classOf : AbstractToken -> Tokens.class.
Variable toUpperCase : jsstring -> jsstring.
Variable constructorName : StatementNode -> jsstring.
Variable getColon : StatementNode -> option AbstractToken.
Variable getPragmas : StatementNode -> list AbstractToken.
Variable concatTokens : StatementNode -> jsstring.

Definition convertToken (token : AbstractToken)
    (next : option AbstractToken) (lineOffsets : list Z) : AbapToken :=
  {| role := classifyToken (classOf token);
     text := getStr token;
     upper := toUpperCase (getStr token);
     loc := calcLocation (getStart token) (getEnd token) lineOffsets;
     hasFollowingLineBreak :=
       match next with
       | Some next => isNewLineBetween token next
       | None => false
       end;
     original := None |}.

(** [next] is [tokens[index + 1]], the head of the rest. *)
Fixpoint convertTokens (tokens : list AbstractToken) (lineOffsets : list Z)
    (a : Alloc) : list tokref * Alloc :=
  match tokens with
  | [] => ([], a)
  | token :: rest =>
      let '(r, a1) :=
        newToken (convertToken token (head rest) lineOffsets) a in
      let '(rs, a2) := convertTokens rest lineOffsets a1 in
      (r :: rs, a2)
  end.

Fixpoint convertPragmaTokens (pragmas : list AbstractToken)
    (lineOffsets : list Z) (a : Alloc) : list tokref * Alloc :=
  match pragmas with
  | [] => ([], a)
  | pragma :: rest =>
      let '(r, a1) := newToken (convertToken pragma None lineOffsets) a in
      let '(rs, a2) := convertPragmaTokens rest lineOffsets a1 in
      (r :: rs, a2)
  end.

Definition convertPragmas (statement : StatementNode)
    (lineOffsets : list Z) (a : Alloc) : list tokref * Alloc :=
  convertPragmaTokens (getPragmas statement) lineOffsets a.

(** [None] when the statement has no token: reading the position of
    [undefined] throws. *)
Definition convertCommentNode (statement : StatementNode)
    (lineOffsets : list Z) : option AbapComment :=
  match head (getTokens statement) with
  | Some token =>
      Some {| value := getStr token; inline := false;
              cloc := calcLocation (getStart token) (getEnd token)
                        lineOffsets |}
  | None => None
  end.

Definition isStandaloneComment (statement : StatementNode) : bool :=
  eqb (constructorName statement) (lit "Comment").

Definition isTrailingComment (statement : StatementNode) : bool :=
  if negb (isStandaloneComment statement) then false
  else
    let text := default [] (getStr <$> head (getTokens statement)) in
    startsWith dquote (trimStart text).

Definition buildStatementObject (statement : StatementNode)
    (tokens : list tokref) (indentLevel : Z) (lineOffsets : list Z)
    (trailingComment : option AbapComment) (chain : option AbapChain)
    (endStatement : StatementNode) (pragmas : list tokref)
    : AbapStatement :=
  {| kind := constructorName statement;
     tokens := tokens;
     sloc := calcStatementLocation (getTokens statement) lineOffsets
               (getTokens endStatement);
     indentLevel := indentLevel;
     trailingComment := trailingComment;
     pragmas := pragmas;
     raw := concatTokens statement;
     chain := chain |}.

Definition convertSingleStatement (statement : StatementNode)
    (indentLevel : Z) (lineOffsets : list Z) (a : Alloc)
    : AbapStatement * Alloc :=
  let '(convertedTokens, a1) :=
    convertTokens (getTokens statement) lineOffsets a in
  let '(pragmaTokens, a2) := convertPragmas statement lineOffsets a1 in
  let tokensWithPragmas :=
    mergeTokensWithPragmas (allocated a2) convertedTokens pragmaTokens in
  let '(trailingComment, tokensWithPragmas) :=
    extractTrailingComment (allocated a2) tokensWithPragmas in
  (buildStatementObject statement tokensWithPragmas indentLevel lineOffsets
     trailingComment None statement pragmaTokens,
   a2).

(** The variables of the loop of [convertColonGroup]. *)
Record GroupState := {
  gentries : list AbapChainEntry;
  chainPragmas : list tokref;
  lastStatementWithTokens : StatementNode;
  gpendingTrailing : option AbapComment;
  galloc : Alloc
}.

(** The body of the loop at [idx]; [None] when it throws. *)
Definition convertGroupMember (group : list StatementNode)
    (lineOffsets : list Z) (gs : GroupState) (idx : nat)
    : option GroupState :=
  match group !! idx with
  | None => Some gs
  | Some current =>
      match getColon current with
      | Some _ =>
          let '(tokens, a1) :=
            convertTokens (getTokens current) lineOffsets (galloc gs) in
          if bool_decide (length tokens = 0%nat)
          then Some {| gentries := gentries gs;
                       chainPragmas := chainPragmas gs;
                       lastStatementWithTokens := lastStatementWithTokens gs;
                       gpendingTrailing := gpendingTrailing gs;
                       galloc := a1 |}
          else
            let '(pragmaTokens, a2) := convertPragmas current lineOffsets a1 in
            let entryTokens :=
              mergeTokensWithPragmas (allocated a2) (drop 1 tokens)
                pragmaTokens in
            Some {| gentries :=
                      gentries gs
                      ++ [{| etype := entry_entry;
                             etokens := Some entryTokens;
                             etrailingComment := gpendingTrailing gs;
                             ecomment := None |}];
                    chainPragmas := chainPragmas gs ++ pragmaTokens;
                    lastStatementWithTokens := current;
                    gpendingTrailing := None;
                    galloc := a2 |}
      | None =>
          if isStandaloneComment current
          then
            let previous :=
              match idx with
              | O => None
              | S before => group !! before
              end in
            comment ← convertCommentNode current lineOffsets;
            if isTrailingComment current
               && bool_decide (is_Some (group !! S idx ≫= getColon))
               && bool_decide (is_Some (previous ≫= getColon))
            then
              Some {| gentries := gentries gs;
                      chainPragmas := chainPragmas gs;
                      lastStatementWithTokens := current;
                      gpendingTrailing :=
                        Some {| value := value comment; inline := true;
                                cloc := cloc comment |};
                      galloc := galloc gs |}
            else
              Some {| gentries :=
                        gentries gs
                        ++ [{| etype := entry_comment; etokens := None;
                               etrailingComment := None;
                               ecomment := Some comment |}];
                      chainPragmas := chainPragmas gs;
                      lastStatementWithTokens := current;
                      gpendingTrailing := gpendingTrailing gs;
                      galloc := galloc gs |}
          else Some gs
      end
  end.

(** [None] when the function throws. *)
Definition convertColonGroup (group : list StatementNode)
    (indentLevel : Z) (lineOffsets : list Z) (a : Alloc)
    : option (AbapStatement * Alloc) :=
  keywordSource ← head group;
  let '(keywordTokens, a1) :=
    convertTokens (getTokens keywordSource) lineOffsets a in
  keyword ← head keywordTokens;
  gs ← foldl (fun gs idx =>
                gs ← gs; convertGroupMember group lineOffsets gs idx)
             (Some {| gentries := []; chainPragmas := [];
                      lastStatementWithTokens := keywordSource;
                      gpendingTrailing := None; galloc := a1 |})
             (seq 0 (length group));
  let entries1 :=
    match gpendingTrailing gs with
    | Some pending =>
        gentries gs
        ++ [{| etype := entry_comment; etokens := None;
               etrailingComment := None;
               ecomment := Some {| value := value pending; inline := false;
                                   cloc := cloc pending |} |}]
    | None => gentries gs
    end in
  let h := allocated (galloc gs) in
  let entries2 :=
    NeedlessSpacesRule.sort
      (fun a b => getEntryStartLine h a - getEntryStartLine h b) entries1 in
  let chain := {| keyword := keyword; entries := entries2 |} in
  let allTokens :=
    flat_map (fun entry =>
                match etype entry with
                | entry_entry => default [] (etokens entry)
                | entry_comment => []
                end) entries2 in
  let trailingComment := last entries2 ≫= etrailingComment in
  Some (buildStatementObject keywordSource allTokens indentLevel lineOffsets
          trailingComment (Some chain) (lastStatementWithTokens gs)
          (chainPragmas gs),
        galloc gs).

(** The statements that the inner loop of [convertStatements] gathers
    from [index] on: those with a colon at the key, and comments. *)
Definition inColonGroup (colonKey : Z * Z) (current : StatementNode) : bool :=
  match getColon current with
  | Some currentColon =>
      bool_decide (buildColonKey currentColon = colonKey)
      || isStandaloneComment current
  | None => isStandaloneComment current
  end.

(** The [while (index < statements.length)] loop of [convertStatements].
    A round moves [index] forward, so [length statements] rounds of
    [fuel] suffice; [None] when a conversion throws. *)
Fixpoint convertStatementsFrom (fuel : nat)
    (statements : list StatementNode) (indentLevels lineOffsets : list Z)
    (index : nat) (pendingTrailing : option AbapComment)
    (result : list AbapStatement) (a : Alloc)
    : option (list AbapStatement * Alloc) :=
  match fuel with
  | O => Some (result, a)
  | S fuel' =>
      match statements !! index with
      | None => Some (result, a)
      | Some statement =>
          if isStandaloneComment statement && isTrailingComment statement
             && bool_decide (is_Some (statements !! S index))
          then
            comment ← convertCommentNode statement lineOffsets;
            convertStatementsFrom fuel' statements indentLevels lineOffsets
              (S index)
              (Some {| value := value comment; inline := true;
                       cloc := cloc comment |})
              result a
          else
            match getColon statement with
            | Some colonToken =>
                let group :=
                  takeWhile (inColonGroup (buildColonKey colonToken))
                    (drop index statements) in
                '(chainStatement, a1) ←
                  convertColonGroup group
                    (default 0 (indentLevels !! index)) lineOffsets a;
                convertStatementsFrom fuel' statements indentLevels
                  lineOffsets (index + length group)%nat pendingTrailing
                  (result ++ [chainStatement]) a1
            | None =>
                let '(converted, a1) :=
                  convertSingleStatement statement
                    (default 0 (indentLevels !! index)) lineOffsets a in
                let converted :=
                  match pendingTrailing with
                  | Some _ => set_trailingComment pendingTrailing converted
                  | None => converted
                  end in
                convertStatementsFrom fuel' statements indentLevels
                  lineOffsets (S index) None (result ++ [converted]) a1
            end
      end
  end.

Definition convertStatements (statements : list StatementNode)
    (indentLevels lineOffsets : list Z) (a : Alloc)
    : option (list AbapStatement * Alloc) :=
  convertStatementsFrom (length statements) statements indentLevels
    lineOffsets 0%nat None [] a.

(** [parseAbap] when the tokenizer has delivered the statements of the
    file: the program, or the fallback when the conversion throws.  The
    heap of the run starts without objects. *)
Definition parseAbap_tokenized (source : jsstring)
    (statements : list StatementNode) : ClosingBracketsPositionRule.Store :=
  let text := normalizeNewlines source in
  let lineOffsets := buildLineOffsets text in
  let indentLevels := IndentRule.computeIndentationLevels statements in
  let noObjects :=
    {| allocated := fun _ => convertToken
                               {| getStart := {| getRow := 0; getCol := 0;
                                                 isVirtual := false |};
                                  getEnd := {| getRow := 0; getCol := 0;
                                               isVirtual := false |};
                                  getStr := [] |} None [];
       nextRef := 0%nat |} in
  match convertStatements statements indentLevels lineOffsets noObjects with
  | Some (normalizedStatements, a) =>
      {| ClosingBracketsPositionRule.tokenHeap := allocated a;
         ClosingBracketsPositionRule.body := normalizedStatements;
         ClosingBracketsPositionRule.postComments := ∅ |}
  | None => buildFallbackAst toUpperCase text lineOffsets
  end.

End WithTokenizer.

End ParserBuilder.

(** ** Predicates on documents and lines *)
Module ParserPredicates.
Import Js Types Abaplint Parser ParserBuilder.
Local Open Scope Z_scope.

(** The offset at which line [index] of [lines] starts in the text that
    the lines were split from: each earlier line and its line feed. *)
Definition lineStartOf (lines : list jsstring) (index : nat) : Z :=
  foldr (fun line acc => Z.of_nat (length line) + 1 + acc) 0
        (take index lines).

(** The token is a statement terminator or separator for the placing of
    pragmas. *)
Definition isTerminal (t : AbapToken) : bool :=
  bool_decide (role t = role_punctuation)
  || eqb (text t) (lit ",") || eqb (text t) (lit ".").

Definition isCommentToken (t : AbapToken) : bool :=
  bool_decide (role t = role_comment).

(** The file names that the tokenizer is given as they are. *)
Definition isKeptFilename (name : jsstring) : bool :=
  testSuffixIgnoreCase ".ddlsrc" name
  || testSuffixIgnoreCase ".clas.abap" name
  || testSuffixIgnoreCase ".intf.abap" name
  || testSuffixIgnoreCase ".clas.macros" name.

(** Two allocation states agree on the objects of the first. *)
Definition extendsAlloc (a a' : Alloc) : Prop :=
  (nextRef a <= nextRef a')%nat
  /\ forall r, (r < nextRef a)%nat -> allocated a' r = allocated a r.

(** The references made between two allocation states. *)
Definition madeBetween (a a' : Alloc) (r : tokref) : Prop :=
  (nextRef a <= r < nextRef a')%nat.

(** All tokens of a list of statements, statement by statement. *)
Definition tokensOf (statements : list AbapStatement) : list tokref :=
  concat (map tokens statements).

(** What the conversion loop keeps: the objects made before the loop are
    as they were, and the tokens of the statements made so far are
    distinct objects made since. *)
Definition builtSince (a0 : Alloc) (result : list AbapStatement)
    (a : Alloc) : Prop :=
  extendsAlloc a0 a /\ NoDup (tokensOf result)
  /\ Forall (madeBetween a0 a) (tokensOf result).

(** The statement built for a tokenizer statement that is converted on
    its own, at the level [level]. *)
Definition builtFrom (constructorName concatTokens : StatementNode -> jsstring)
    (s : StatementNode) (level : Z) (statement : AbapStatement) : Prop :=
  kind statement = constructorName s
  /\ indentLevel statement = level
  /\ chain statement = None
  /\ raw statement = concatTokens s.

(** The tokens of the entries of a chain, entry by entry. *)
Definition entryTokens (entries : list AbapChainEntry) : list tokref :=
  flat_map (fun entry =>
              match etype entry with
              | entry_entry => default [] (etokens entry)
              | entry_comment => []
              end) entries.

End ParserPredicates.

(** ** Predicates used to state the properties *)
Module Predicates.
Import Js Types ClosingBracketsPositionRule NeedlessSpacesRule.
Local Open Scope Z_scope.

(** Two heaps hold the same tokens up to their break flags. *)
Definition sameButBreaks (h h' : heap) : Prop :=
  forall r, h' r = set_hasFollowingLineBreak (hasFollowingLineBreak (h' r)) (h r).

(** Two statements are the same up to their trailing comment. *)
Definition sameButComment (s s' : AbapStatement) : Prop :=
  exists c, s' = set_trailingComment c s.

(** The frame of a pass over the store. *)
Definition storeFrame (st st' : Store) : Prop :=
  sameButBreaks (tokenHeap st) (tokenHeap st')
  /\ Forall2 sameButComment (body st) (body st').

(** The token's text, trimmed, is the period. *)
Definition isPeriodToken (h : heap) (r : tokref) : bool :=
  eqb (simplify (text (h r))) ClosingBracketsPositionRule.PERIOD.

(** A member that the last loop of [processSequence] writes an override
    for. *)
Definition receivesOverride (m : TokenPos) : bool :=
  negb (isSeparatorType (tokenType m)) && negb (isFirstInLine m)
  && negb (bool_decide (tokenType m = COMMENT)).

(** The three tables before the first run is processed. *)
Definition noTables : Tables :=
  {| processedTokens := ∅; overrides := ∅; groupedTokens := ∅ |}.

(** Every override in the table is 0, or belongs to a recorded position
    of its token that is not line-leading and is between 1 and the
    spacing recorded there. *)
Definition boundedBy (positions : list TokenPos) (o : gmap tokref Z) : Prop :=
  forall t v, o !! t = Some v ->
    v = 0
    \/ exists m, m ∈ positions /\ token m = t /\ isFirstInLine m = false
                 /\ 1 <= v <= spacesLeft m.

(** What [collectTokenPositions] guarantees: the lists of the x-position
    table hold recorded positions only, and a recorded position that is
    not line-leading has the spacing between its token and the end of
    the token before it. *)
Definition wellCollected (h : heap) (c : Collected) : Prop :=
  (forall key l m, tokensOfXPos c !! key = Some l -> m ∈ l ->
                   m ∈ collectedTokens c)
  /\ (forall m, m ∈ collectedTokens c -> isFirstInLine m = false ->
        spacesLeft m
        = Z.max 0 (Z.max 0 (Types.startColumn (loc (h (token m))))
                   - prevEndColumn m - 1)).

End Predicates.

(** ** Further predicates on the tokenizer's statements *)
Module IndentPredicates.
Import Abaplint IndentRule.
Local Open Scope Z_scope.

(** A statement that the indentation engine treats as synthetic: it has
    no first token, or its first token stands at a virtual position. *)
Definition isSynthetic (statement : StatementNode) : bool :=
  match getFirstToken statement with
  | None => true
  | Some firstToken => isVirtual (getStart firstToken)
  end.

(** A statement that neither opens, closes nor continues a block. *)
Definition isPlain (statement : StatementNode) : bool :=
  negb (isSynthetic statement)
  && negb (matches (get statement) DEDENT_BEFORE)
  && negb (matches (get statement) MIDDLE_KEYWORDS)
  && negb (matches (get statement) INDENT_AFTER).

(** The depth after the dedent step of a statement. *)
Definition depthAfterDedent (statement : StatementNode) (depth : Z) : Z :=
  if matches (get statement) DEDENT_BEFORE
     || matches (get statement) MIDDLE_KEYWORDS
  then Z.max (depth - 1) 0 else depth.

(** What the loop of the engine keeps: the depth and the armed alignment
    depth are never negative, and the level pushed for a statement is the
    sentinel when the statement is synthetic and a non-negative level
    otherwise. *)
Definition levelFits (statement : StatementNode) (level : Z) : Prop :=
  if isSynthetic statement then level = KEEP_EXISTING_INDENT else 0 <= level.

Definition indentInvariant (visited : list StatementNode) (st : IndentState)
    : Prop :=
  0 <= depth st
  /\ (forall d, activeAlignDepth st = Some d -> 0 <= d)
  /\ Forall2 levelFits visited (result st).

End IndentPredicates.

(** ** Further predicates on token lists *)
Module BracketPredicates.
Import Js Types ClosingBracketsPositionRule Predicates.

(** The token's text, trimmed, is a closing bracket. *)
Definition isClosingToken (h : heap) (r : tokref) : bool :=
  has CLOSING_TOKENS (simplify (text (h r))).

(** The pair [(previous, current)] is one that the repositioning rule
    joins: a closing bracket after a token that is not a comment, or a
    period after a closing bracket that is not a comment. *)
Definition joinsPair (h : heap) (previous current : tokref) : bool :=
  negb (bool_decide (role (h previous) = role_comment))
  && (isClosingToken h current
      || (isPeriodToken h current && isClosingToken h previous)).

End BracketPredicates.

(** ** Predicates on recorded token positions *)
Module NeedlessPredicates.
Import Js Types NeedlessSpacesRule.
Local Open Scope Z_scope.

(** The order that [compareTokenPos] sorts by. *)
Definition orderedBefore (a b : TokenPos) : Prop := compareTokenPos a b <= 0.

(** The token types that [tokenTypesMatch] compares exactly. *)
Definition isExactType (t : TokenType) : bool :=
  bool_decide (t ∈ [COLON; COMMA; PERIOD; ASSIGNMENT_OP; COMPARISON_OP;
                    COMMENT; PRAGMA]).

(** A recorded position whose columns and spacing are consistent. *)
Definition consistentPos (h : heap) (m : TokenPos) : Prop :=
  0 <= startColumn m <= endColumn m
  /\ 0 <= spacesLeft m
  /\ startIndexInLine m = startColumn m
  /\ lineNumber m = Types.startLine (loc (h (token m)))
  /\ tokenType m = classifyTokenType (h (token m))
  /\ (isFirstInLine m = true -> spacesLeft m = startColumn m).

(** The tokens of a program in the order in which the rule visits
    them. *)
Definition visitedTokens (statements : list AbapStatement) : list tokref :=
  concat (concat (map tokenArrays statements)).

(** A position that [condenseStandaloneTokens] may write an override
    for. *)
Definition isCondensable (m : TokenPos) : bool :=
  negb (isFirstInLine m)
  && negb (bool_decide (tokenType m ∈ [COMMENT; PRAGMA; COMMA; PERIOD; COLON]))
  && bool_decide (1 < spacesLeft m).

(** Filed under the raw column: the position is in the list of the even
    key of its start column. *)
Definition filed (c : Collected) (m : TokenPos) : Prop :=
  exists l, tokensOfXPos c !! (2 * startIndexInLine m) = Some l /\ m ∈ l.

End NeedlessPredicates.

(** ** Predicates on printed lines *)
Module PrinterPredicates.
Import Js Types Printer.
Local Open Scope Z_scope.

(** The characters of a string that are not white space. *)
Definition ink (s : jsstring) : jsstring :=
  List.filter (fun c => negb (isWhiteSpace c)) s.

Definition inkOfLines (lines : list jsstring) : jsstring :=
  ink (concat lines).

(** A line of white space only. *)
Definition isBlankLine (line : jsstring) : bool :=
  match dropWhile isWhiteSpace line with
  | [] => true
  | _ :: _ => false
  end.

End PrinterPredicates.

(** ** Predicates on spacing, lines and overrides *)
Module SpacingPredicates.
Import Js Types SpaceBeforePeriodRule NeedlessSpacesRule Printer.
Local Open Scope Z_scope.

(** The rule minimum of the spec: 1 where the base spacing rule asks for
    a space before the token, and 0 where it does not. *)
Definition ruleMinimum (h : heap) (token : tokref) (previous : option tokref)
    (options : AbapPluginOptions) : Z :=
  if needsSpaceBefore (h token) (h <$> previous) options then 1 else 0.

(** The line that the token loop of a statement has built once a token
    has been appended: the current line, or, when the token is followed
    by a line break, the line just completed, its trailing white space
    trimmed. *)
Definition builtLine (t : AbapToken) (before after : LineState)
    (line : jsstring) : Prop :=
  if hasFollowingLineBreak t
  then lines after = lines before ++ [trimEnd line]
  else lines after = lines before /\ currentLine after = line.

(** The state in which the token loop of [printStatement] starts. *)
Definition initialLineState (indent : jsstring) : LineState :=
  {| lines := []; lineMetas := []; currentLine := indent;
     previous := None; atLineStart := true;
     currentLineStartLine := None; currentLineEndLine := None |}.

(** The slack of a member beyond the mandatory one space: the spacing
    recorded before it, less one. *)
Definition slackBeyondMandatorySpace (m : TokenPos) : Z := spacesLeft m - 1.

(** In a token array, [t] directly follows its matching opening bracket,
    on the line on which that bracket ends, with at least one space
    between the two. *)
Fixpoint closesEmptyPair (h : heap) (tokens : list tokref) (t : tokref)
    : bool :=
  match tokens with
  | current :: ((next :: _) as rest) =>
      (bool_decide (next = t)
       && isMatchingBracketPair (text (h current)) (text (h next))
       && bool_decide (endLine (loc (h current)) = startLine (loc (h next)))
       && bool_decide (0 < Types.startColumn (loc (h next))
                           - Types.endColumn (loc (h current)) - 1))
      || closesEmptyPair h rest t
  | _ => false
  end.

(** The same in one of the token arrays of a program. *)
Definition isEmptyBracketCloser (h : heap) (statements : list AbapStatement)
    (t : tokref) : bool :=
  existsb (fun tokens => closesEmptyPair h tokens t)
          (concat (map tokenArrays statements)).

(** The members of the runs on derived columns that the compressor
    has processed: its set [processedTokens] once the loop over the
    x-positions has ended. *)
Definition derivedRunTokens (h : heap) (statements : list AbapStatement)
    : gset tokref :=
  let c := collectTokenPositions h statements in
  processedTokens
    (fold_left (processXPos h c)
       (rev (sort (fun a b => a - b) (map fst (map_to_list (tokensOfXPos c)))))
       {| processedTokens := ∅; overrides := ∅; groupedTokens := ∅ |}).

(** Every override of the table belongs to a recorded position of its
    token that is not line-leading, and is not more than the spacing
    recorded there; it is at least 1, the mandatory separating space,
    unless its token is a member of a run on a derived column. *)
Definition spacedBy (positions : list TokenPos) (derived : gset tokref)
    (o : gmap tokref Z) : Prop :=
  forall t v, o !! t = Some v ->
    exists m, m ∈ positions /\ token m = t /\ isFirstInLine m = false
      /\ 0 <= v <= Z.max 0 (spacesLeft m)
      /\ (1 <= v \/ t ∈ derived).

End SpacingPredicates.

(** ** Concrete programs

    Small inputs on which the definitions are run: they serve as
    regression examples and as the inputs of the counterexamples. *)
Module Examples.
Import Js Types Abaplint.
Local Open Scope Z_scope.

(** A token of [len] characters on one line; columns are zero-based and
    the end column is exclusive, as the parser computes them from the
    tokenizer's positions. *)
Definition tokenAt (r : TokenRole) (s : string) (line col : Z)
    (break : bool) : AbapToken :=
  {| role := r; text := lit s; upper := asciiUpper (lit s);
     loc := {| start := 0; end_ := 0; startLine := line; startColumn := col;
               endLine := line;
               endColumn := col + Z.of_nat (String.length s) |};
     hasFollowingLineBreak := break; original := None |}.

Definition commentAt (v : jsstring) (line col : Z) : AbapComment :=
  {| value := v; inline := true;
     cloc := {| start := 0; end_ := 0; startLine := line; startColumn := col;
                endLine := line;
                endColumn := col + Z.of_nat (length v) |} |}.

Definition heapOf (objects : list AbapToken) : heap :=
  fun r => nth r objects (tokenAt role_unknown "" 0 0 false).

Definition statementAt (refs : list tokref) (firstLine firstCol lastLine lastCol : Z)
    (level : Z) (c : option AbapComment) : AbapStatement :=
  {| kind := lit "Unknown"; tokens := refs;
     sloc := {| start := 0; end_ := 0; startLine := firstLine;
                startColumn := firstCol; endLine := lastLine;
                endColumn := lastCol |};
     indentLevel := level; trailingComment := c; pragmas := [];
     raw := []; chain := None |}.

(** A tokenizer statement of class [k] with one token on line [row]. *)
Definition nodeAt (k : Statements.kind) (row : Z) : StatementNode :=
  let t := {| getStart := {| getRow := row; getCol := 1; isVirtual := false |};
              getEnd := {| getRow := row; getCol := 2; isVirtual := false |};
              getStr := [] |} in
  {| get := k; getFirstToken := Some t; getTokens := [t] |}.

(** [SELECT ... . WRITE ... . ENDSELECT.] — a select loop — and
    [SELECT SINGLE ... . WRITE ... .] — a select that opens no block. *)
Definition selectLoopProgram : list StatementNode :=
  [ nodeAt Statements.Select 1; nodeAt Statements.Other 2;
    nodeAt Statements.EndSelect 3 ].
Definition selectSingleProgram : list StatementNode :=
  [ nodeAt Statements.Select 1; nodeAt Statements.Other 2 ].

(** <<
      any_operation( iv_param = 1 " comment
                   ). " #EC NEEDED
      ENDMETHOD.
    >>
    The tokenizer hands comments over as statements of their own; the
    parser attaches each to the statement that follows it, so the second
    comment arrives as the inline trailing comment of [ENDMETHOD], starting
    on line 2, the last line of the call. *)
Definition callTokens : list AbapToken :=
  [ tokenAt role_word "any_operation" 1 4 false;
    tokenAt role_word "(" 1 17 false;
    tokenAt role_word "iv_param" 1 19 false;
    tokenAt role_word "=" 1 28 false;
    tokenAt role_word "1" 1 30 true;
    tokenAt role_word ")" 2 17 false;
    tokenAt role_punctuation "." 2 18 false;
    tokenAt role_word "ENDMETHOD" 3 2 false;
    tokenAt role_punctuation "." 3 11 false ].

Definition firstComment : AbapComment :=
  commentAt (dquote ++ lit " comment") 1 32.
Definition spacedPseudoComment : AbapComment :=
  commentAt (dquote ++ lit " #EC NEEDED") 2 20.

Definition callProgram : ClosingBracketsPositionRule.Store :=
  {| ClosingBracketsPositionRule.tokenHeap := heapOf callTokens;
     ClosingBracketsPositionRule.body :=
       [ statementAt [0; 1; 2; 3; 4; 5; 6]%nat 1 4 2 19 1 (Some firstComment);
         statementAt [7; 8]%nat 3 2 3 12 0 (Some spacedPseudoComment) ];
     ClosingBracketsPositionRule.postComments := ∅ |}.

(** The store as the merge pass finds it: the break after [1] removed by
    the bracket repositioning, which touched the call. *)
Definition callProgramRepositioned : ClosingBracketsPositionRule.Store :=
  {| ClosingBracketsPositionRule.tokenHeap :=
       writeBreak 4%nat false (heapOf callTokens);
     ClosingBracketsPositionRule.body :=
       ClosingBracketsPositionRule.body callProgram;
     ClosingBracketsPositionRule.postComments := ∅ |}.

Definition programOf (objects : list AbapToken)
    (statements : list AbapStatement) : ClosingBracketsPositionRule.Store :=
  {| ClosingBracketsPositionRule.tokenHeap := heapOf objects;
     ClosingBracketsPositionRule.body := statements;
     ClosingBracketsPositionRule.postComments := ∅ |}.

Definition defaultOptions : AbapPluginOptions :=
  {| abapKeywordCase := None; abapSpaceBeforePeriod := None;
     abapSpaceBeforeCommentSign := None; abapSpaceAfterCommentSign := None;
     abapChainFormatting := None; tabWidth := None |}.

(** <<
    foo(  ).
    >> *)
Definition emptyCallTokens : list AbapToken :=
  [ tokenAt role_word "foo" 1 0 false;
    tokenAt role_word "(" 1 3 false;
    tokenAt role_word ")" 1 6 false;
    tokenAt role_punctuation "." 1 7 false ].
Definition emptyCallBody : list AbapStatement :=
  [ statementAt [0; 1; 2; 3]%nat 1 0 1 8 0 None ].

(** <<
    a    = 1.
    bb   = 2.
    >>
    The two [=] form an alignment run of two members. *)
Definition twoAssignmentsTokens : list AbapToken :=
  [ tokenAt role_word "a" 1 0 false;
    tokenAt role_word "=" 1 5 false;
    tokenAt role_word "1" 1 7 false;
    tokenAt role_punctuation "." 1 8 false;
    tokenAt role_word "bb" 2 0 false;
    tokenAt role_word "=" 2 5 false;
    tokenAt role_word "2" 2 7 false;
    tokenAt role_punctuation "." 2 8 false ].
Definition twoAssignmentsBody : list AbapStatement :=
  [ statementAt [0; 1; 2; 3]%nat 1 0 1 9 0 None;
    statementAt [4; 5; 6; 7]%nat 2 0 2 9 0 None ].

(** <<
    foo       bar
              baz
    x         qux.
    >>
    [bar], [baz] and [qux] form an alignment run at column 10; [baz]
    leads its line. *)
Definition columnTokens : list AbapToken :=
  [ tokenAt role_word "foo" 1 0 false;
    tokenAt role_word "bar" 1 10 true;
    tokenAt role_word "baz" 2 10 true;
    tokenAt role_word "x" 3 0 false;
    tokenAt role_word "qux" 3 10 false;
    tokenAt role_punctuation "." 3 13 false ].
Definition columnBody : list AbapStatement :=
  [ statementAt [0; 1; 2; 3; 4; 5]%nat 1 0 3 14 0 None ].

(** The positions of that run as [collectTokenPositions] records them. *)
Definition columnRun : list NeedlessSpacesRule.TokenPos :=
  default []
    (NeedlessSpacesRule.tokensOfXPos
       (NeedlessSpacesRule.collectTokenPositions (heapOf columnTokens)
          columnBody) !! 20).

(** The call of [callProgram] followed by an ordinary comment and by a
    pseudo-comment, as in the tests of the closing-brackets rule. *)
Definition conflictingComment : AbapComment :=
  commentAt (dquote ++ lit " conflicting comment") 2 20.
Definition pseudoComment : AbapComment :=
  commentAt (dquote ++ lit "#EC NEEDED") 2 20.

Definition callProgramWith (second : AbapComment)
    : ClosingBracketsPositionRule.Store :=
  programOf callTokens
    [ statementAt [0; 1; 2; 3; 4; 5; 6]%nat 1 4 2 19 1 (Some firstComment);
      statementAt [7; 8]%nat 3 2 3 12 0 (Some second) ].

(** <<
    foo().
    >>
    the tokens of [emptyCallTokens] where they stand once the statement
    has been printed without the spaces between the brackets. *)
Definition closedCallTokens : list AbapToken :=
  [ tokenAt role_word "foo" 1 0 false;
    tokenAt role_word "(" 1 3 false;
    tokenAt role_word ")" 1 4 false;
    tokenAt role_punctuation "." 1 5 false ].
Definition closedCallBody : list AbapStatement :=
  [ statementAt [0; 1; 2; 3]%nat 1 0 1 6 0 None ].

(** The lines of a printed program's first statement. *)
Definition firstStatementLines (d : Printer.Doc) : list jsstring :=
  match d with
  | Printer.DocGroup (Printer.DocConcat (Printer.DocConcat parts :: _)) =>
      omap (fun part => match part with
                        | Printer.DocString s => Some s
                        | _ => None
                        end) parts
  | _ => []
  end.

(** A keyword dictionary of one word, enough to run the printer. *)
Definition onlyEndif (s : jsstring) : bool := eqb s (lit "ENDIF").

End Examples.

(** ** Further concrete inputs *)
Module FurtherExamples.
Import Js Types Abaplint Examples ParserBuilder.
Local Open Scope Z_scope.

(** [IF ... . WRITE ... . ENDIF.] *)
Definition ifProgram : list StatementNode :=
  [ nodeAt Statements.If 1; nodeAt Statements.Other 2;
    nodeAt Statements.EndIf 3 ].

(** <<
    IF ... .
      WRITE ... .

    * comment on the branch that follows
    ELSE.
      WRITE ... .
    ENDIF.
    >> *)
Definition alignProgram : list StatementNode :=
  [ nodeAt Statements.If 1; nodeAt Statements.Other 2;
    nodeAt Statements.Comment 4; nodeAt Statements.Else 5;
    nodeAt Statements.Other 6; nodeAt Statements.EndIf 7 ].

(** The call of [callProgram], [ENDMETHOD], and a third statement with a
    comment of its own. *)
Definition threeStatements : ClosingBracketsPositionRule.Store :=
  {| ClosingBracketsPositionRule.tokenHeap :=
       writeBreak 4%nat false (heapOf callTokens);
     ClosingBracketsPositionRule.body :=
       ClosingBracketsPositionRule.body callProgram
       ++ [ statementAt [] 4 0 4 0 0 (Some firstComment) ];
     ClosingBracketsPositionRule.postComments := ∅ |}.

(** The text of two lines [ab] and [cd]. *)
Definition twoLines : jsstring := lit "ab" ++ [10%N] ++ lit "cd".

(** A token of the tokenizer; rows and columns count from 1. *)
Definition sourceToken (s : string) (row col : Z) : AbstractToken :=
  {| getStart := {| getRow := row; getCol := col; isVirtual := false |};
     getEnd := {| getRow := row; getCol := col + Z.of_nat (String.length s);
                  isVirtual := false |};
     getStr := lit s |}.

(** <<
    DATA: a,
          b.
    >>
    as the tokenizer delivers the chain: one statement per entry, each
    with the keyword in front and the colon at the same place. *)
Definition chainNodes : list StatementNode :=
  [ {| get := Statements.Other;
       getFirstToken := Some (sourceToken "DATA" 1 1);
       getTokens := [ sourceToken "DATA" 1 1; sourceToken "a" 1 7;
                      sourceToken "," 1 8 ] |};
    {| get := Statements.Other;
       getFirstToken := Some (sourceToken "DATA" 1 1);
       getTokens := [ sourceToken "DATA" 1 1; sourceToken "b" 2 7;
                      sourceToken "." 2 8 ] |} ].

Definition chainColon (_ : StatementNode) : option AbstractToken :=
  Some (sourceToken ":" 1 5).
Definition noColon (_ : StatementNode) : option AbstractToken := None.
Definition noPragmas (_ : StatementNode) : list AbstractToken := [].

(** The class of a token of the examples, by its text. *)
Definition classByText (t : AbstractToken) : Tokens.class :=
  if eqb (getStr t) (lit ".") || eqb (getStr t) (lit ",")
  then Tokens.Punctuation else Tokens.Other.

Definition nameData (_ : StatementNode) : jsstring := lit "Data".

Definition concatByText (s : StatementNode) : jsstring :=
  concat (map getStr (getTokens s)).

(** An allocation state without objects. *)
Definition noObjects : Alloc :=
  {| allocated := heapOf []; nextRef := 0%nat |}.

End FurtherExamples.

(** ** Concrete inputs for the spacing claims *)
Module SpacingExamples.
Import Js Types Examples.
Local Open Scope Z_scope.

(** <<
    a = ( 1
        )   * 2.
    >>
    The closing parenthesis stands alone at the start of the second
    line, so the line break before it moves behind it, and [*] starts
    the second line of the output. *)
Definition brokenProductTokens : list AbapToken :=
  [ tokenAt role_word "a" 1 0 false;
    tokenAt role_word "=" 1 2 false;
    tokenAt role_word "(" 1 4 false;
    tokenAt role_word "1" 1 6 true;
    tokenAt role_word ")" 2 4 false;
    tokenAt role_word "*" 2 8 false;
    tokenAt role_word "2" 2 10 false;
    tokenAt role_punctuation "." 2 11 false ].
Definition brokenProductBody : list AbapStatement :=
  [ statementAt (seq 0 8) 1 0 2 12 0 None ].

(** <<
    IF a    < 1
    OR bb  <= 2.
    >>
    The two comparison operators end in the same column: a run on a
    derived column. *)
Definition comparisonTokens : list AbapToken :=
  [ tokenAt role_word "IF" 1 0 false;
    tokenAt role_word "a" 1 3 false;
    tokenAt role_word "<" 1 8 false;
    tokenAt role_word "1" 1 10 true;
    tokenAt role_word "OR" 2 0 false;
    tokenAt role_word "bb" 2 3 false;
    tokenAt role_word "<=" 2 7 false;
    tokenAt role_word "2" 2 10 false;
    tokenAt role_punctuation "." 2 11 false ].
Definition comparisonBody : list AbapStatement :=
  [ statementAt (seq 0 9) 1 0 2 12 0 None ].

(** The list filed under the derived column 8 (key 17), sorted. *)
Definition comparisonRun : list NeedlessSpacesRule.TokenPos :=
  NeedlessSpacesRule.sort NeedlessSpacesRule.compareTokenPos
    (default []
       (NeedlessSpacesRule.tokensOfXPos
          (NeedlessSpacesRule.collectTokenPositions (heapOf comparisonTokens)
             comparisonBody) !! 17)).

End SpacingExamples.
(** * Properties *)

Import Js Types Predicates.

(** ** Comment-sign spacing *)
Section CommentSign.
Import SpaceAroundCommentSignRule.

Lemma takeWhile_dropWhile {A} (p : A -> bool) (l : list A) :
  takeWhile p l ++ dropWhile p l = l.
Proof.
  induction l as [|x r IH]; simpl; [done|].
  destruct (p x); simpl; [by rewrite IH | done].
Qed.

Lemma drop_takeWhile {A} (p : A -> bool) (l : list A) :
  drop (length (takeWhile p l)) l = dropWhile p l.
Proof.
  induction l as [|x r IH]; simpl; [done|].
  destruct (p x); simpl; [exact IH | done].
Qed.

(** Scanning leading whitespace stops at the first character that is not
    whitespace, whatever follows it. *)
Lemma takeWhile_app_stop {A} (p : A -> bool) (l : list A) x r :
  Forall (fun y => p y = true) l -> p x = false ->
  takeWhile p (l ++ x :: r) = l.
Proof.
  intros Hl Hx. induction Hl as [|y l Hy _ IH]; simpl.
  - by rewrite Hx.
  - by rewrite Hy, IH.
Qed.

Lemma takeWhile_Forall {A} (p : A -> bool) (l : list A) :
  Forall (fun y => p y = true) (takeWhile p l).
Proof.
  induction l as [|x r IH]; simpl; [constructor|].
  destruct (p x) eqn:E; constructor; done.
Qed.

(** When the rule fires, the result is the leading whitespace, the sign,
    one space, and the text that followed the sign. *)
Lemma formatCommentValue_fires v o :
  formatCommentValue v o <> v ->
  exists tl,
    formatCommentValue v o
    = takeWhile isWhiteSpace v ++ COMMENT_SIGN ++ lit " " ++ tl.
Proof.
  unfold formatCommentValue. intros H.
  repeat (case_bool_decide || case_match); try done.
  eexists; reflexivity.
Qed.

(** The reason behind idempotence: whenever a space was inserted, the
    character that follows the sign in the result is that space, which is
    not alphanumeric. *)
Lemma formatCommentValue_space_after_sign v o :
  formatCommentValue v o <> v ->
  exists c, dropWhile isWhiteSpace (formatCommentValue v o) !! 1 = Some c
            /\ isLetterOrDigit c = false.
Proof.
  intros N. destruct (formatCommentValue_fires v o N) as [tl E]. rewrite E.
  exists 32%N. split; [|reflexivity].
  rewrite <- (drop_takeWhile isWhiteSpace).
  rewrite (takeWhile_app_stop isWhiteSpace _ 34%N (lit " " ++ tl))
    by (apply takeWhile_Forall || reflexivity).
  by rewrite drop_app_length.
Qed.

(** [C10] Comment-sign spacing normalization is idempotent: for every
    comment string [v] and every option configuration [o],
    [formatCommentValue (formatCommentValue v o) o] equals
    [formatCommentValue v o].  Either the first pass returns its input,
    or it inserts a space after the sign and the second pass finds that
    space, not a letter or digit, behind the sign. *)
Theorem formatCommentValue_idempotent (v : jsstring) (o : AbapPluginOptions) :
  formatCommentValue (formatCommentValue v o) o = formatCommentValue v o.
Proof.
  destruct (decide (formatCommentValue v o = v)) as [E|N].
  { by rewrite E. }
  destruct (formatCommentValue_fires v o N) as [tl E]. rewrite E.
  unfold formatCommentValue at 1.
  case_bool_decide; [done|].
  rewrite (takeWhile_app_stop isWhiteSpace _ 34%N (lit " " ++ tl))
    by (apply takeWhile_Forall || reflexivity).
  unfold slice. rewrite drop_app_length. simpl.
  reflexivity.
Qed.

End CommentSign.

(** ** The indentation engine *)
Section Indentation.
Import Abaplint IndentRule.

(** The stack of [findSelectBlocks] against the per-opener reading: an
    index ends up in the result iff it was there already, or it sits on
    the stack and the [EndSelect] that pops it is still to come, or it is
    an opener still to come whose [EndSelect] follows it. *)
Lemma findSelectBlocks_loop_spec (rest : list StatementNode) :
  forall (index : nat) (result : gset nat) (stack : list nat) (x : nat),
    x ∈ findSelectBlocks_loop rest index result stack <->
    x ∈ result
    \/ (exists k, stack !! k = Some x /\ hasMatchingEndSelect k rest = true)
    \/ (exists j s, rest !! j = Some s /\ isSelect (get s) = true
                    /\ x = (index + j)%nat
                    /\ hasMatchingEndSelect 0 (drop (S j) rest) = true).
Proof.
  induction rest as [|s r IH]; intros index result stack x; simpl.
  - split; [by left|].
    intros [H|[(k & _ & H)|(j & s & H & _)]]; done.
  - destruct (isSelect (get s)) eqn:Esel.
    + rewrite IH. split.
      * intros [H|[(k & Hk & Hc)|(j & s' & Hj & Hs & -> & Hc)]].
        -- by left.
        -- destruct k as [|k]; simpl in Hk.
           ++ injection Hk as <-. right; right. exists 0%nat, s.
              repeat split; [done| lia | done].
           ++ right; left. by exists k.
        -- right; right. exists (S j), s'. repeat split; [done..| lia | done].
      * intros [H|[(k & Hk & Hc)|(j & s' & Hj & Hs & -> & Hc)]].
        -- by left.
        -- right; left. by exists (S k).
        -- destruct j as [|j]; simpl in Hj.
           ++ right; left. exists 0%nat. split; [simpl; f_equal; lia | done].
           ++ right; right. exists j, s'. repeat split; [done..| lia | done].
    + case_bool_decide as Eend.
      * destruct stack as [|top stack'].
        -- rewrite IH. split.
           ++ intros [H|[(k & Hk & _)|(j & s' & Hj & Hs & -> & Hc)]];
                [by left | done |].
              right; right. exists (S j), s'.
              repeat split; [done..| lia | done].
           ++ intros [H|[(k & Hk & _)|(j & s' & Hj & Hs & -> & Hc)]];
                [by left | done |].
              destruct j as [|j]; simpl in Hj; [congruence|].
              right; right. exists j, s'. repeat split; [done..| lia | done].
        -- rewrite IH, elem_of_union, elem_of_singleton. split.
           ++ intros [[->|H]|[(k & Hk & Hc)|(j & s' & Hj & Hs & -> & Hc)]].
              ** right; left. by exists 0%nat.
              ** by left.
              ** right; left. by exists (S k).
              ** right; right. exists (S j), s'.
                 repeat split; [done..| lia | done].
           ++ intros [H|[(k & Hk & Hc)|(j & s' & Hj & Hs & -> & Hc)]].
              ** left; by right.
              ** destruct k as [|k]; simpl in Hk.
                 --- injection Hk as ->. left; by left.
                 --- right; left. by exists k.
              ** destruct j as [|j]; simpl in Hj; [congruence|].
                 right; right. exists j, s'.
                 repeat split; [done..| lia | done].
      * rewrite IH. split.
        -- intros [H|[(k & Hk & Hc)|(j & s' & Hj & Hs & -> & Hc)]].
           ++ by left.
           ++ right; left. by exists k.
           ++ right; right. exists (S j), s'.
              repeat split; [done..| lia | done].
        -- intros [H|[(k & Hk & Hc)|(j & s' & Hj & Hs & -> & Hc)]].
           ++ by left.
           ++ right; left. by exists k.
           ++ destruct j as [|j]; simpl in Hj; [congruence|].
              right; right. exists j, s'. repeat split; [done..| lia | done].
Qed.

(** An opener is in the set computed by the pre-pass exactly when an
    [EndSelect] matching it follows. *)
Lemma findSelectBlocks_spec (statements : list StatementNode) (i : nat) s :
  statements !! i = Some s -> isSelect (get s) = true ->
  i ∈ findSelectBlocks statements <->
  hasMatchingEndSelect 0 (drop (S i) statements) = true.
Proof.
  intros Hi Hs. unfold findSelectBlocks.
  rewrite findSelectBlocks_loop_spec. split.
  - intros [H|[(k & Hk & _)|(j & s' & Hj & _ & E & Hc)]]; [done..|].
    simpl in E. by subst j.
  - intros H. right; right. by exists i, s.
Qed.

Lemma indentStep_length statements sb st s :
  length (result (indentStep statements sb st s)) = S (length (result st)).
Proof.
  unfold indentStep.
  repeat (case_match; simpl); rewrite length_app; simpl; lia.
Qed.

Lemma fold_indentStep_length statements sb done st :
  length (result (fold_left (indentStep statements sb) done st))
  = (length (result st) + length done)%nat.
Proof.
  revert st. induction done as [|s r IH]; intros st; simpl; [lia|].
  rewrite IH, indentStep_length. lia.
Qed.

Lemma indentLoop_snoc statements (i : nat) s :
  statements !! i = Some s ->
  indentLoop statements (take (S i) statements)
  = indentStep statements (findSelectBlocks statements)
      (indentLoop statements (take i statements)) s.
Proof.
  intros Hi. unfold indentLoop.
  rewrite (take_S_r _ _ _ Hi), fold_left_app. reflexivity.
Qed.

Lemma indentLoop_index statements (i : nat) s :
  statements !! i = Some s ->
  length (result (indentLoop statements (take i statements))) = i.
Proof.
  intros Hi. unfold indentLoop. rewrite fold_indentStep_length. simpl.
  rewrite length_take. apply lookup_lt_Some in Hi. lia.
Qed.

Lemma INDENT_AFTER_not_comment k :
  matches k INDENT_AFTER = true -> k <> Statements.Comment.
Proof. intros H ->. vm_compute in H. done. Qed.

(** A synthetic statement (no first token, or a first token at a virtual
    position) gets the sentinel and leaves the depth alone, whatever its
    kind. *)
Lemma synthetic_statement_keeps_depth statements (i : nat) s :
  statements !! i = Some s ->
  match getFirstToken s with
  | None => True
  | Some t => isVirtual (getStart t) = true
  end ->
  let before := indentLoop statements (take i statements) in
  let after := indentLoop statements (take (S i) statements) in
  result after = result before ++ [KEEP_EXISTING_INDENT]
  /\ depth after = depth before.
Proof.
  intros Hi Hsyn. simpl. rewrite (indentLoop_snoc _ _ _ Hi).
  unfold indentStep. destruct (getFirstToken s) as [t|]; [rewrite Hsyn|]; done.
Qed.

(** [C7] In the indentation engine, a statement that is assigned a level
    (it has a first token at a real position) and whose kind is in
    [INDENT_AFTER] raises the depth by one after its level was pushed:
    the level is the depth as it stands after the dedent step (or the
    armed alignment depth), and the depth that the next statement sees is
    one more.  The exception is the optional-block opener, [Select] or
    [SelectLoop]: it raises the depth only if an [EndSelect] matching it
    follows, and that is read off the set which the stack-matching
    pre-pass [findSelectBlocks] computed once from the whole sequence
    before the loop ([indentLoop] binds it outside the fold). *)
Theorem indent_after_increments_depth
    (statements : list StatementNode) (i : nat) (s : StatementNode)
    (firstToken : AbstractToken) :
  statements !! i = Some s ->
  getFirstToken s = Some firstToken ->
  isVirtual (getStart firstToken) = false ->
  matches (get s) INDENT_AFTER = true ->
  let before := indentLoop statements (take i statements) in
  let after := indentLoop statements (take (S i) statements) in
  let depth1 :=
    if matches (get s) DEDENT_BEFORE || matches (get s) MIDDLE_KEYWORDS
    then Z.max (depth before - 1) 0 else depth before in
  (exists level,
      result after = result before ++ [level]
      /\ (level = depth1 \/ activeAlignDepth before = Some level))
  /\ depth after
     = (if isSelect (get s)
        then if hasMatchingEndSelect 0 (drop (S i) statements)
             then depth1 + 1 else depth1
        else depth1 + 1)%Z
  /\ (isSelect (get s) = true ->
      (i ∈ findSelectBlocks statements <->
       hasMatchingEndSelect 0 (drop (S i) statements) = true)).
Proof.
  intros Hi Hft Hvirt Hkind. cbv zeta.
  rewrite (indentLoop_snoc _ _ _ Hi).
  pose proof (indentLoop_index _ _ _ Hi) as Hidx.
  set (st := indentLoop statements (take i statements)) in *.
  unfold indentStep. rewrite Hft, Hvirt, Hkind, Hidx.
  unfold isStandaloneComment.
  rewrite (bool_decide_eq_false_2 _ (INDENT_AFTER_not_comment _ Hkind)).
  split; [|split].
  - destruct (activeAlignTarget st) as [t|] eqn:Et;
      [case_bool_decide|]; destruct (activeAlignDepth st) as [d|] eqn:Ed;
      simpl; eexists; (split; [reflexivity|]); auto.
  - destruct (isSelect (get s)) eqn:Esel; cbn [negb orb andb].
    + pose proof (findSelectBlocks_spec _ _ _ Hi Esel) as Hspec.
      destruct (hasMatchingEndSelect 0 (drop (S i) statements)) eqn:Em.
      * rewrite (bool_decide_eq_true_2 _ (proj2 Hspec eq_refl)).
        repeat case_match; done.
      * rewrite (bool_decide_eq_false_2 (i ∈ findSelectBlocks statements))
          by (intros Hmem; apply Hspec in Hmem; done).
        repeat case_match; done.
    + repeat case_match; done.
  - intros Esel. by apply (findSelectBlocks_spec _ _ s).
Qed.

End Indentation.

(** ** Closing-bracket repositioning: what it leaves alone *)
Section BracketFrame.
Import ClosingBracketsPositionRule.

Lemma sameButBreaks_refl h : sameButBreaks h h.
Proof. intros r. by destruct (h r). Qed.

Lemma sameButBreaks_trans h1 h2 h3 :
  sameButBreaks h1 h2 -> sameButBreaks h2 h3 -> sameButBreaks h1 h3.
Proof.
  intros H12 H23 r. rewrite (H23 r) at 1. rewrite (H12 r). reflexivity.
Qed.

Lemma sameButBreaks_write h r b : sameButBreaks h (writeBreak r b h).
Proof.
  intros r'. unfold writeBreak. case_decide; [done|]. by destruct (h r').
Qed.

Lemma sameButBreaks_text h h' r : sameButBreaks h h' -> text (h' r) = text (h r).
Proof. intros H. by rewrite (H r). Qed.

Lemma sameButComment_refl s : sameButComment s s.
Proof. exists (trailingComment s). by destruct s. Qed.

Lemma sameButComment_trans s1 s2 s3 :
  sameButComment s1 s2 -> sameButComment s2 s3 -> sameButComment s1 s3.
Proof. intros [c1 ->] [c2 ->]. by exists c2. Qed.

Create HintDb frame.
#[local] Hint Resolve sameButBreaks_refl sameButBreaks_write
  sameButComment_refl : frame.

Ltac chain_writes :=
  repeat first
    [ apply sameButBreaks_refl
    | eapply sameButBreaks_trans; [|apply sameButBreaks_write] ].

Lemma adjustAt_frame tokens h changed index :
  sameButBreaks h (fst (adjustAt tokens (h, changed) index)).
Proof.
  unfold adjustAt.
  repeat (case_match; simpl in *; simplify_eq); chain_writes.
Qed.

Lemma fold_adjustAt_frame tokens indices : forall h changed,
  sameButBreaks h (fst (fold_left (adjustAt tokens) indices (h, changed))).
Proof.
  induction indices as [|i r IH]; intros h changed; cbn [fold_left];
    [simpl; auto with frame|].
  pose proof (adjustAt_frame tokens h changed i) as H1.
  destruct (adjustAt tokens (h, changed) i) as [h1 c1]. simpl in H1.
  eapply sameButBreaks_trans; [exact H1 | apply IH].
Qed.

Lemma adjustClosingBracketsInTokens_frame tokens h :
  sameButBreaks h (fst (adjustClosingBracketsInTokens tokens h)).
Proof.
  unfold adjustClosingBracketsInTokens.
  destruct tokens as [tokens|]; [|auto with frame].
  case_bool_decide; [auto with frame|]. apply fold_adjustAt_frame.
Qed.

Lemma adjustChainEntries_frame entries : forall h,
  sameButBreaks h (adjustChainEntries entries h).
Proof.
  unfold adjustChainEntries.
  induction entries as [|e r IH]; intros h; cbn [fold_left];
    [auto with frame|].
  eapply sameButBreaks_trans; [|apply IH].
  destruct (etokens e); [apply adjustClosingBracketsInTokens_frame|].
  auto with frame.
Qed.

Lemma forcePeriodLine_from_frame tokens index h :
  sameButBreaks h (forcePeriodLine_from tokens index h).
Proof.
  induction index as [|below IH]; simpl; [auto with frame|].
  repeat case_match; auto with frame.
Qed.

Lemma forcePeriodLine_frame statement h :
  sameButBreaks h (forcePeriodLine statement h).
Proof.
  unfold forcePeriodLine. case_bool_decide; [auto with frame|].
  apply forcePeriodLine_from_frame.
Qed.

Lemma storeFrame_refl st : storeFrame st st.
Proof.
  split; [auto with frame|].
  apply Forall2_same_length_lookup. split; [done|].
  intros i x y Hx Hy. simplify_eq. auto with frame.
Qed.

Lemma storeFrame_trans st1 st2 st3 :
  storeFrame st1 st2 -> storeFrame st2 st3 -> storeFrame st1 st3.
Proof.
  intros [Ha Hb] [Hc Hd]. split.
  - by eapply sameButBreaks_trans.
  - eapply Forall2_trans; [|exact Hb|exact Hd].
    intros ? ? ?. apply sameButComment_trans.
Qed.

Lemma Forall2_sameButComment_insert (l : list AbapStatement) i s c :
  l !! i = Some s ->
  Forall2 sameButComment l (<[i := set_trailingComment c s]> l).
Proof.
  intros Hi. apply Forall2_same_length_lookup. split.
  - by rewrite length_insert.
  - intros j x y Hx Hy. destruct (decide (i = j)) as [->|Hne].
    + rewrite list_lookup_insert_eq in Hy by (by eapply lookup_lt_Some).
      simplify_eq. by exists c.
    + rewrite list_lookup_insert_ne in Hy by done. simplify_eq.
      auto with frame.
Qed.

Lemma Forall2_sameButComment_insert2 (l : list AbapStatement) i s c s' c' :
  l !! i = Some s -> l !! S i = Some s' ->
  Forall2 sameButComment l
    (<[S i := set_trailingComment c' s']> (<[i := set_trailingComment c s]> l)).
Proof.
  intros Hi Hi'.
  eapply Forall2_trans; [intros ? ? ?; apply sameButComment_trans|..].
  - by apply (Forall2_sameButComment_insert _ i s).
  - apply Forall2_sameButComment_insert.
    rewrite list_lookup_insert_ne by lia. done.
Qed.

Lemma mergeAt_frame touched st i : storeFrame st (mergeAt touched st i).
Proof.
  unfold mergeAt.
  destruct (body st !! i) as [current|] eqn:Ec; [|apply storeFrame_refl].
  destruct (body st !! S i) as [next|] eqn:En; [|apply storeFrame_refl].
  repeat (case_match; try apply storeFrame_refl);
    (split; cbn [tokenHeap body];
     [ first [apply forcePeriodLine_frame | apply sameButBreaks_refl]
     | first [ by apply Forall2_sameButComment_insert
             | by apply Forall2_sameButComment_insert2 ] ]).
Qed.

Lemma fold_mergeAt_frame touched indices : forall st,
  storeFrame st (fold_left (mergeAt touched) indices st).
Proof.
  induction indices as [|i r IH]; intros st; cbn [fold_left];
    [apply storeFrame_refl|].
  eapply storeFrame_trans; [apply mergeAt_frame | apply IH].
Qed.

Lemma repositionStatement_frame st touched ix :
  storeFrame st (fst (repositionStatement (st, touched) ix)).
Proof.
  destruct ix as [i statement]. unfold repositionStatement.
  pose proof (adjustClosingBracketsInTokens_frame
                (Some (tokens statement)) (tokenHeap st)) as H1.
  destruct (adjustClosingBracketsInTokens _ _) as [h1 changed]. simpl in H1.
  split; simpl; [|apply storeFrame_refl].
  destruct (chain statement); [|done].
  eapply sameButBreaks_trans; [exact H1 | apply adjustChainEntries_frame].
Qed.

Lemma fold_repositionStatement_frame l : forall st touched,
  storeFrame st (fst (fold_left repositionStatement l (st, touched))).
Proof.
  induction l as [|ix r IH]; intros st touched; cbn [fold_left];
    [apply storeFrame_refl|].
  pose proof (repositionStatement_frame st touched ix) as H1.
  destruct (repositionStatement (st, touched) ix) as [st1 t1]. simpl in H1.
  eapply storeFrame_trans; [exact H1 | apply IH].
Qed.

Lemma applyClosingBracketsPosition_frame st :
  storeFrame st (applyClosingBracketsPosition st).
Proof.
  unfold applyClosingBracketsPosition.
  case_bool_decide; [apply storeFrame_refl|].
  pose proof (fold_repositionStatement_frame (imap pair (body st)) st ∅) as H1.
  destruct (fold_left _ _ _) as [st1 touched]. simpl in H1.
  eapply storeFrame_trans; [exact H1 | apply fold_mergeAt_frame].
Qed.

Lemma storeFrame_refs st st' :
  storeFrame st st' ->
  map statementTokenRefs (body st') = map statementTokenRefs (body st).
Proof.
  intros [_ H]. induction H as [|s s' l l' [c ->] _ IH]; simpl; [done|].
  by rewrite IH.
Qed.

(** [C8] For every statement list, bracket repositioning preserves token
    order and content: the concatenation of all token texts, whitespace
    ignored, is the same before and after [applyClosingBracketsPosition];
    every token object is what it was up to its [hasFollowingLineBreak]
    flag; every statement is what it was (same token array, same chain)
    up to its trailing comment.  The only other thing written is the
    post-comment table. *)
Theorem bracket_repositioning_preserves_tokens (st : Store) :
  let st' := applyClosingBracketsPosition st in
  concatTokenTexts st' = concatTokenTexts st
  /\ (forall r : tokref,
        tokenHeap st' r
        = set_hasFollowingLineBreak
            (hasFollowingLineBreak (tokenHeap st' r)) (tokenHeap st r))
  /\ Forall2 (fun s s' => exists c, s' = set_trailingComment c s)
       (body st) (body st').
Proof.
  intros st'. pose proof (applyClosingBracketsPosition_frame st) as Hf.
  fold st' in Hf. split; [|exact Hf].
  unfold concatTokenTexts. rewrite (storeFrame_refs _ _ Hf).
  f_equal. f_equal. apply map_ext. intros r.
  apply sameButBreaks_text, Hf.
Qed.

End BracketFrame.

(** ** The comment-merge pass *)
Section CommentMerge.
Import ClosingBracketsPositionRule.

(** [forcePeriodLine] finds the last period that has a predecessor and
    sets the break flag of that predecessor. *)
Lemma forcePeriodLine_from_last_period tokens h p cur prev :
  tokens !! S p = Some cur -> tokens !! p = Some prev ->
  isPeriodToken h cur = true ->
  (forall q c, S p < q -> tokens !! q = Some c -> isPeriodToken h c = false) ->
  forall index, S p <= index ->
    forcePeriodLine_from tokens index h = writeBreak prev true h.
Proof.
  intros Hcur Hprev Hper Hlast index.
  induction index as [|below IH]; intros Hle; [lia|].
  destruct (decide (below = p)) as [->|Hne].
  - simpl. rewrite Hcur, Hprev. unfold isPeriodToken in Hper.
    by rewrite Hper.
  - cbn [forcePeriodLine_from].
    destruct (tokens !! S below) as [c|] eqn:Ec; [|apply IH; lia].
    destruct (tokens !! below) as [c'|]; [|apply IH; lia].
    pose proof (Hlast (S below) c ltac:(lia) Ec) as Hn.
    unfold isPeriodToken in Hn. rewrite Hn. simpl. apply IH. lia.
Qed.

Lemma forcePeriodLine_last_period statement h p cur prev :
  tokens statement !! S p = Some cur -> tokens statement !! p = Some prev ->
  isPeriodToken h cur = true ->
  (forall q c, S p < q -> tokens statement !! q = Some c ->
               isPeriodToken h c = false) ->
  forcePeriodLine statement h = writeBreak prev true h.
Proof.
  intros Hcur Hprev Hper Hlast. unfold forcePeriodLine.
  pose proof (lookup_lt_Some _ _ _ Hcur) as Hlen.
  rewrite bool_decide_eq_false_2 by lia.
  eapply forcePeriodLine_from_last_period; eauto. lia.
Qed.

(** [C5] (counterexample) The call [any_operation( iv_param = 1] with
    trailing comment [" comment] is touched by bracket repositioning, and
    the inline trailing comment of the next statement, [" #EC NEEDED],
    starts on the call's last line.  Neither comment has [#] right after
    the sign, so neither is a pseudo-comment in the claim's sense and the
    claim has their texts merged into [" comment; #EC NEEDED].  The pass
    does not merge them: the call keeps [" comment], the other comment is
    stored as the call's post comment and the break flag is set on the
    closing parenthesis before the period. *)
Lemma spaced_pseudo_comment_is_not_merged :
  let st := applyClosingBracketsPosition Examples.callProgram in
  snd (adjustClosingBracketsInTokens
         (tokens <$> body Examples.callProgram !! 0%nat)
         (tokenHeap Examples.callProgram)) = true
  /\ inline Examples.spacedPseudoComment = true
  /\ (startLine (cloc Examples.spacedPseudoComment) = 2
      /\ (endLine <$> (sloc <$> body Examples.callProgram !! 0%nat)) = Some 2)%Z
  /\ beginsWithHashAfterSign Examples.firstComment = false
  /\ beginsWithHashAfterSign Examples.spacedPseudoComment = false
  /\ (trailingComment <$> body st !! 0%nat) = Some (Some Examples.firstComment)
  /\ value Examples.firstComment <> dquote ++ lit " comment; #EC NEEDED"
  /\ postComments st !! 0%nat = Some Examples.spacedPseudoComment
  /\ hasFollowingLineBreak (tokenHeap st 5%nat) = true.
Proof. vm_compute. repeat split; (reflexivity || discriminate). Qed.

(** [C5] (as amended) In the comment-merge pass, take an adjacent pair
    [(current, next)] at the moment the loop visits it, where [current]
    was touched by bracket repositioning and [next]'s inline trailing
    comment starts on [current]'s last line and begins with the comment
    sign.  A comment counts as a pseudo-comment when its text, after the
    sign and after any whitespace that follows the sign, begins with [#].
    If either comment is one, nothing is merged: [next]'s comment becomes
    [current]'s deferred post comment, the break flag is set on the token
    before [current]'s last period, [next]'s trailing comment is cleared
    and [current] keeps what it had.  Otherwise [current]'s trailing
    comment becomes the sign, a space and the texts joined as [a; b]
    (just [b] when [current] has no comment text of its own), and
    [next]'s trailing comment is cleared. *)
Theorem merge_pass_pair
    (touched : gset nat) (st : Store) (i : nat)
    (current next : AbapStatement) (nextComment : AbapComment)
    (nextParts : CommentParts) :
  body st !! i = Some current ->
  body st !! S i = Some next ->
  i ∈ touched ->
  trailingComment next = Some nextComment ->
  inline nextComment = true ->
  startLine (cloc nextComment) = endLine (sloc current) ->
  extractCommentParts nextComment = Some nextParts ->
  let currentParts := trailingComment current ≫= extractCommentParts in
  let st' := mergeAt touched st i in
  isPseudo nextParts
  = startsWith (lit "#") (trimStart (slice 1 (trimStart (value nextComment))))
  /\ pvalue nextParts
     = trim (trimStart (slice 1 (trimStart (value nextComment))))
  /\ if isPseudo nextParts || from_option isPseudo false currentParts
     then
       postComments st' !! i = Some nextComment
       /\ (forall p cur prev,
             tokens current !! S p = Some cur ->
             tokens current !! p = Some prev ->
             isPeriodToken (tokenHeap st) cur = true ->
             (forall q c, S p < q -> tokens current !! q = Some c ->
                          isPeriodToken (tokenHeap st) c = false) ->
             tokenHeap st' = writeBreak prev true (tokenHeap st))
       /\ (trailingComment <$> body st' !! S i) = Some None
       /\ body st' !! i = Some current
     else
       (exists merged,
           (trailingComment <$> body st' !! i) = Some (Some merged)
           /\ value merged
              = dquote ++ lit " "
                ++ match currentParts with
                   | Some currentParts =>
                       pvalue currentParts ++ lit "; " ++ pvalue nextParts
                   | None => pvalue nextParts
                   end)
       /\ (trailingComment <$> body st' !! S i) = Some None
       /\ postComments st' = postComments st
       /\ tokenHeap st' = tokenHeap st.
Proof.
  intros Hcur Hnext Htouched Hnc Hinline Hline Hparts currentParts st'.
  pose proof (lookup_lt_Some _ _ _ Hcur) as Hi.
  pose proof (lookup_lt_Some _ _ _ Hnext) as HSi.
  split; [|split].
  { unfold extractCommentParts in Hparts. case_match; by simplify_eq. }
  { unfold extractCommentParts in Hparts. case_match; by simplify_eq. }
  subst st'. unfold mergeAt.
  rewrite Hcur, Hnext, (bool_decide_eq_true_2 _ Htouched), Hnc, Hinline.
  rewrite (bool_decide_eq_true_2 _ Hline), Hparts. cbn [negb].
  fold currentParts.
  destruct (isPseudo nextParts || from_option isPseudo false currentParts);
    cbn [postComments tokenHeap body].
  - split; [|split; [|split]].
    + rewrite lookup_insert_eq. by destruct nextComment.
    + intros p cur prev H1 H2 H3 H4.
      by apply (forcePeriodLine_last_period current _ p cur prev).
    + by rewrite list_lookup_insert_eq by lia.
    + by rewrite list_lookup_insert_ne by lia.
  - split; [|split; [|split]]; [| |done..].
    + eexists. split.
      * rewrite list_lookup_insert_ne by lia.
        rewrite list_lookup_insert_eq by done. reflexivity.
      * reflexivity.
    + by rewrite list_lookup_insert_eq by (rewrite length_insert; lia).
Qed.

End CommentMerge.

(** ** The renderer: the line built for a token *)
Section RenderedLine.
Import SpaceBeforePeriodRule Printer SpacingPredicates.
Local Open Scope Z_scope.

Variable KEYWORDS : jsstring -> bool.
Variable toUpperCase toLowerCase : jsstring -> jsstring.

Lemma trimEnd_no_trailing (s : jsstring) :
  endsWithWhiteSpace s = false -> trimEnd s = s.
Proof.
  unfold endsWithWhiteSpace, trimEnd.
  destruct s as [|c r _] using rev_ind; [done|].
  rewrite last_snoc. intros Hc. rewrite rev_app_distr. cbn [rev app dropWhile].
  rewrite Hc. cbn [rev]. by rewrite rev_involutive.
Qed.

(** A token that does not start its line is appended to the line after
    as many spaces as [getSpacesBeforeToken] counts; the trailing white
    space of the line is trimmed first when the count is positive. *)
Lemma printToken_line active h statement options indent ls token :
  atLineStart ls = false ->
  renderToken KEYWORDS toUpperCase toLowerCase (h token) options <> [] ->
  let text := renderToken KEYWORDS toUpperCase toLowerCase (h token) options in
  let n := getSpacesBeforeToken active h token (previous ls) options in
  let after :=
    printToken KEYWORDS toUpperCase toLowerCase active h statement options
      indent ls token in
  (0 < n -> builtLine (h token) ls after
              (trimEnd (currentLine ls) ++ spaces n ++ text))
  /\ (n <= 0 -> builtLine (h token) ls after (currentLine ls ++ text)).
Proof.
  intros Hstart Htext text n after. subst after text n. unfold printToken.
  cbv zeta.
  rewrite bool_decide_eq_false_2
    by (destruct (renderToken _ _ _ _ _); [done|cbn; lia]).
  rewrite Hstart. unfold builtLine.
  split; intros Hn.
  - rewrite bool_decide_eq_true_2 by lia.
    destruct (endsWithWhiteSpace (currentLine ls)) eqn:E.
    + rewrite <- app_assoc. by destruct (hasFollowingLineBreak (h token)).
    + rewrite (trimEnd_no_trailing _ E), <- app_assoc.
      by destruct (hasFollowingLineBreak (h token)).
  - rewrite bool_decide_eq_false_2 by lia.
    by destruct (hasFollowingLineBreak (h token)).
Qed.

(** The same for a token of a chain entry that is not the first of its
    entry. *)
Lemma renderSequenceToken_line active h options result previous token :
  result <> [] ->
  renderToken KEYWORDS toUpperCase toLowerCase (h token) options <> [] ->
  let text := renderToken KEYWORDS toUpperCase toLowerCase (h token) options in
  let n := getSpacesBeforeToken active h token previous options in
  let out :=
    fst (renderSequenceToken KEYWORDS toUpperCase toLowerCase active h options
           (result, previous) token) in
  (0 < n -> out = trimEnd result ++ spaces n ++ text)
  /\ (n <= 0 ->
      out = (if isPunctuationToken (h token) then trimEnd result else result)
            ++ text).
Proof.
  intros Hresult Htext text n out. subst out text n.
  unfold renderSequenceToken. cbv zeta.
  rewrite bool_decide_eq_false_2
    by (destruct (renderToken _ _ _ _ _); [done|cbn; lia]).
  rewrite bool_decide_eq_true_2 by (destruct result; [done|cbn; lia]).
  cbn [fst]. split; intros Hn.
  - rewrite bool_decide_eq_true_2 by lia. by rewrite <- app_assoc.
  - rewrite bool_decide_eq_false_2 by lia. done.
Qed.

(** In the token loop, as long as every token renders to some text, a
    previous token is defined exactly in the middle of a line. *)
Lemma defined_previous_is_mid_line active h statement options indent pre :
  Forall (fun t =>
            renderToken KEYWORDS toUpperCase toLowerCase (h t) options <> [])
         pre ->
  let ls :=
    fold_left (printToken KEYWORDS toUpperCase toLowerCase active h statement
                 options indent)
      pre (initialLineState indent) in
  atLineStart ls = bool_decide (previous ls = None).
Proof.
  induction pre as [|t pre IH] using rev_ind; intros Hpre; [done|].
  apply Forall_app in Hpre as [_ Ht]. rewrite Forall_singleton in Ht.
  cbv zeta. rewrite fold_left_app. cbn [fold_left].
  generalize (fold_left
                (printToken KEYWORDS toUpperCase toLowerCase active h
                   statement options indent) pre (initialLineState indent)).
  intros ls. unfold printToken. cbv zeta.
  rewrite bool_decide_eq_false_2
    by (destruct (renderToken _ _ _ _ _); [done|cbn; lia]).
  by destruct (hasFollowingLineBreak (h t)).
Qed.

(** The same in the token loop of a chain entry: a previous token is
    defined only once the result holds some text. *)
Lemma defined_previous_is_mid_entry active h options pre :
  Forall (fun t =>
            renderToken KEYWORDS toUpperCase toLowerCase (h t) options <> [])
         pre ->
  let acc :=
    fold_left (renderSequenceToken KEYWORDS toUpperCase toLowerCase active h
                 options)
      pre ([], None) in
  is_Some (snd acc) -> fst acc <> [].
Proof.
  induction pre as [|t pre IH] using rev_ind; intros Hpre.
  - cbn. by intros [x Hx].
  - apply Forall_app in Hpre as [_ Ht]. rewrite Forall_singleton in Ht.
    cbv zeta. rewrite fold_left_app. cbn [fold_left].
    destruct (fold_left _ pre _) as [result previous].
    unfold renderSequenceToken.
    rewrite bool_decide_eq_false_2
      by (destruct (renderToken _ _ _ _ _); [done|cbn; lia]).
    cbn [fst snd]. intros _ Hnil. apply app_eq_nil in Hnil as [_ Hnil].
    done.
Qed.

End RenderedLine.

(** ** The base spacing rule and the renderer's space count *)
Section Spacing.
Import SpaceBeforePeriodRule Printer SpacingPredicates.
Local Open Scope Z_scope.

Lemma eqb_true (a b : jsstring) : a = b -> eqb a b = true.
Proof. intros ->. unfold eqb. by apply bool_decide_eq_true_2. Qed.

Lemma computeOriginalSpaces_nonneg t previous :
  (0 <= computeOriginalSpaces t previous)%Z.
Proof.
  unfold computeOriginalSpaces.
  repeat (case_match || case_bool_decide); lia.
Qed.

Variable KEYWORDS : jsstring -> bool.
Variable toUpperCase toLowerCase : jsstring -> jsstring.

(** [C9] For every pair of adjacent tokens with a defined previous token
    and for every option configuration, the base spacing rule answers
    [false] when the current token's trimmed text is an opening
    parenthesis and [true] when it is a closing parenthesis.  So, for a
    token without an override (no table, or no entry for it) that is
    rendered after a previous token, the renderer appends an opening
    parenthesis to the line as the line stands, with no space, and a
    closing parenthesis after the line's trailing white space has been
    trimmed and at least one space has been put; this in the token loop
    of a statement and in that of a chain entry alike.  In both loops,
    as long as every token renders to some text, a previous token is
    defined only in the middle of a line or entry. *)
Theorem parenthesis_spacing
    (h : heap) (token previous : tokref) (options : AbapPluginOptions)
    (active : option (gmap tokref Z)) :
  let rendering :=
    renderToken KEYWORDS toUpperCase toLowerCase (h token) options in
  active ≫= (fun table => table !! token) = None ->
  (trim (text (h token)) = lit "(" ->
     needsSpaceBefore (h token) (Some (h previous)) options = false
     /\ getSpacesBeforeToken active h token (Some previous) options = 0
     /\ (forall statement indent ls,
           Printer.previous ls = Some previous -> atLineStart ls = false ->
           rendering <> [] ->
           builtLine (h token) ls
             (printToken KEYWORDS toUpperCase toLowerCase active h statement
                options indent ls token)
             (currentLine ls ++ rendering))
     /\ (forall result,
           result <> [] -> rendering <> [] ->
           fst (renderSequenceToken KEYWORDS toUpperCase toLowerCase active h
                  options (result, Some previous) token)
           = (if isPunctuationToken (h token) then trimEnd result else result)
             ++ rendering))
  /\ (trim (text (h token)) = lit ")" ->
     needsSpaceBefore (h token) (Some (h previous)) options = true
     /\ 1 <= getSpacesBeforeToken active h token (Some previous) options
     /\ (forall statement indent ls,
           Printer.previous ls = Some previous -> atLineStart ls = false ->
           rendering <> [] ->
           exists n, 1 <= n
             /\ builtLine (h token) ls
                  (printToken KEYWORDS toUpperCase toLowerCase active h
                     statement options indent ls token)
                  (trimEnd (currentLine ls) ++ spaces n
                   ++ rendering))
     /\ (forall result,
           result <> [] -> rendering <> [] ->
           exists n, 1 <= n
             /\ fst (renderSequenceToken KEYWORDS toUpperCase toLowerCase
                       active h options (result, Some previous) token)
                = trimEnd result ++ spaces n ++ rendering))
  /\ (forall statement indent pre,
        Forall (fun t =>
                  renderToken KEYWORDS toUpperCase toLowerCase (h t) options
                  <> [])
               pre ->
        let ls :=
          fold_left (printToken KEYWORDS toUpperCase toLowerCase active h
                       statement options indent)
            pre (initialLineState indent) in
        Printer.previous ls = Some previous -> atLineStart ls = false)
  /\ (forall pre,
        Forall (fun t =>
                  renderToken KEYWORDS toUpperCase toLowerCase (h t) options
                  <> [])
               pre ->
        let acc :=
          fold_left (renderSequenceToken KEYWORDS toUpperCase toLowerCase
                       active h options)
            pre ([], None) in
        snd acc = Some previous -> fst acc <> []).
Proof.
  intros rendering Hnone. subst rendering.
  assert (Hopen : trim (text (h token)) = lit "(" ->
            needsSpaceBefore (h token) (Some (h previous)) options = false
            /\ getSpacesBeforeToken active h token (Some previous) options = 0).
  { intros Htext. unfold getSpacesBeforeToken. rewrite Hnone.
    cbn [fmap option_fmap option_map].
    assert (Hn : needsSpaceBefore (h token) (Some (h previous)) options
                 = false).
    { unfold needsSpaceBefore. by rewrite (eqb_true _ _ Htext). }
    by rewrite Hn. }
  assert (Hclose : trim (text (h token)) = lit ")" ->
            needsSpaceBefore (h token) (Some (h previous)) options = true
            /\ 1 <= getSpacesBeforeToken active h token (Some previous)
                      options).
  { intros Htext. unfold getSpacesBeforeToken. rewrite Hnone.
    cbn [fmap option_fmap option_map].
    assert (Hn : needsSpaceBefore (h token) (Some (h previous)) options
                 = true).
    { unfold needsSpaceBefore. rewrite Htext. reflexivity. }
    rewrite Hn. split; [done|].
    rewrite bool_decide_eq_false_2 by done. lia. }
  split_and!.
  - intros Htext. destruct (Hopen Htext) as [Hn Hcount].
    split_and!; [done|done| |].
    + intros statement indent ls Hprev Hmid Hink.
      destruct (printToken_line KEYWORDS toUpperCase toLowerCase active h
                  statement options indent ls token Hmid Hink) as [_ Hzero].
      apply Hzero. rewrite Hprev, Hcount. lia.
    + intros result Hresult Hink.
      destruct (renderSequenceToken_line KEYWORDS toUpperCase toLowerCase
                  active h options result (Some previous) token Hresult Hink)
        as [_ Hzero].
      apply Hzero. rewrite Hcount. lia.
  - intros Htext. destruct (Hclose Htext) as [Hn Hcount].
    split_and!; [done|done| |].
    + intros statement indent ls Hprev Hmid Hink.
      exists (getSpacesBeforeToken active h token (Some previous) options).
      split; [done|].
      destruct (printToken_line KEYWORDS toUpperCase toLowerCase active h
                  statement options indent ls token Hmid Hink) as [Hpos _].
      rewrite Hprev in Hpos. apply Hpos. lia.
    + intros result Hresult Hink.
      exists (getSpacesBeforeToken active h token (Some previous) options).
      split; [done|].
      destruct (renderSequenceToken_line KEYWORDS toUpperCase toLowerCase
                  active h options result (Some previous) token Hresult Hink)
        as [Hpos _].
      apply Hpos. lia.
  - intros statement indent pre Hpre ls Hprev. subst ls.
    rewrite (defined_previous_is_mid_line KEYWORDS toUpperCase toLowerCase
               active h statement options indent pre Hpre).
    cbv zeta. rewrite Hprev. by apply bool_decide_eq_false_2.
  - intros pre Hpre acc Hprev. subst acc.
    apply (defined_previous_is_mid_entry KEYWORDS toUpperCase toLowerCase
             active h options pre Hpre).
    cbv zeta. by rewrite Hprev.
Qed.

End Spacing.

(** ** The needless-spaces compressor: one run *)
Section Runs.
Import NeedlessSpacesRule.
Local Open Scope Z_scope.

Lemma foldr_min_acc (a b : Z) (l : list Z) :
  foldr Z.min (Z.min a b) l = Z.min b (foldr Z.min a l).
Proof. induction l as [|x r IH]; simpl; [lia|]. rewrite IH. lia. Qed.

Lemma foldr_min_le (a : Z) (l : list Z) :
  foldr Z.min a l <= a /\ Forall (fun x => foldr Z.min a l <= x) l.
Proof.
  induction l as [|x r [IH1 IH2]]; simpl; [split; [lia|constructor]|].
  split; [lia|]. constructor; [lia|].
  eapply Forall_impl; [exact IH2|]. intros y Hy. simpl in Hy. lia.
Qed.

Lemma fold_minSpare (g : TokenPos -> Z) (l : list TokenPos) (a : Z) :
  fold_left (fun acc t => minSpare acc (g t)) l (Some a)
  = Some (foldr Z.min a (map g l)).
Proof.
  revert a. induction l as [|t r IH]; intros a; simpl; [done|].
  rewrite IH, foldr_min_acc. done.
Qed.

(** [spacesToSpare] is the least of the members' slacks. *)
Lemma runSpacesToSpare_least special anchor members :
  runSpacesToSpare special anchor members
  = leastSlack (map (testSpacesToSpare special anchor) members).
Proof.
  unfold runSpacesToSpare. destruct members as [|t r]; simpl; [done|].
  by rewrite fold_minSpare.
Qed.

Lemma runSpacesToSpare_le special anchor members spare m :
  runSpacesToSpare special anchor members = Some spare ->
  m ∈ members ->
  spare <= testSpacesToSpare special anchor m.
Proof.
  rewrite runSpacesToSpare_least. intros Hs Hm.
  destruct members as [|t r]; [done|]. simpl in Hs. simplify_eq.
  destruct (foldr_min_le (testSpacesToSpare special anchor t)
              (map (testSpacesToSpare special anchor) r)) as [H1 H2].
  apply elem_of_cons in Hm as [->|Hm]; [done|].
  rewrite Forall_forall in H2. apply H2.
  apply list_elem_of_In, in_map, list_elem_of_In, Hm.
Qed.

Lemma writeRunOverrides_lookup spare members : forall o t v,
  writeRunOverrides spare members o !! t = Some v ->
  o !! t = Some v
  \/ exists m, m ∈ members /\ token m = t /\ receivesOverride m = true
               /\ v = Z.max 0 (spacesLeft m - spare).
Proof.
  unfold writeRunOverrides.
  induction members as [|m r IH]; intros o t v H; simpl in H; [by left|].
  apply IH in H as [H|(m' & Hin & Ht & He & Hv)].
  - unfold receivesOverride.
    destruct (isSeparatorType (tokenType m)) eqn:E1; [by left|].
    destruct (isFirstInLine m) eqn:E2; [by left|].
    case_bool_decide as E3; [by left|].
    destruct (decide (token m = t)) as [Heq|Hne].
    + rewrite Heq, lookup_insert_eq in H. injection H as <-.
      right. exists m. rewrite E1, E2. rewrite bool_decide_eq_false_2 by done.
      repeat split; [apply list_elem_of_here | done].
    + rewrite lookup_insert_ne in H by done. by left.
  - right. exists m'. repeat split; [by apply list_elem_of_further|done..].
Qed.

Lemma writeRunOverrides_none_eligible spare members o :
  forallb isFirstInLine members = true ->
  writeRunOverrides spare members o = o.
Proof.
  unfold writeRunOverrides. revert o.
  induction members as [|m r IH]; intros o H; simpl in *; [done|].
  apply andb_true_iff in H as [H1 H2]. rewrite H1.
  destruct (isSeparatorType (tokenType m)); by apply IH.
Qed.

(** What [processSequence] may have written: every override present
    afterwards was there before, or belongs to a member of the run that
    is neither line-leading nor a separator nor a comment, and is that
    member's spacing less the run's [spacesToSpare], which is positive. *)
Lemma processSequence_lookup tokenPosList startIndex endIndex special tb t v :
  overrides (processSequence tokenPosList startIndex endIndex special tb) !! t
  = Some v ->
  overrides tb !! t = Some v
  \/ exists m spare,
       let members := runMembers tokenPosList startIndex endIndex in
       m ∈ members /\ token m = t /\ receivesOverride m = true
       /\ runSpacesToSpare special
            (if special then runMaxPrevEndColumn members else 0) members
          = Some spare
       /\ 0 < spare
       /\ v = Z.max 0 (spacesLeft m - spare).
Proof.
  unfold processSequence. intros H.
  repeat (case_match; cbn [overrides] in H; try (by left)).
  all: apply writeRunOverrides_lookup in H as [H|(m & Hin & Ht & He & Hv)];
    [by left|].
  all: right; exists m; eexists; cbn zeta.
  all: repeat split; try done.
  all: match goal with
       | E : _ || bool_decide (_ <= 0) = false |- _ =>
           apply orb_false_iff in E as [_ E];
           apply bool_decide_eq_false in E; lia
       end.
Qed.

End Runs.

(** ** The needless-spaces compressor: the whole table *)
Section Table.
Import NeedlessSpacesRule.
Local Open Scope Z_scope.

Lemma addTokenPos_lookup M tp key k l m :
  addTokenPos M tp key !! k = Some l -> m ∈ l ->
  m = tp \/ exists l0, M !! k = Some l0 /\ m ∈ l0.
Proof.
  unfold addTokenPos. intros H Hm.
  destruct (M !! key) as [l0|] eqn:E.
  - destruct (decide (key = k)) as [->|Hne].
    + rewrite lookup_insert_eq in H. simplify_eq.
      apply elem_of_app in Hm as [Hm|Hm]; [right; eauto|].
      left. by apply list_elem_of_singleton in Hm.
    + rewrite lookup_insert_ne in H by done. right; eauto.
  - destruct (decide (key = k)) as [->|Hne].
    + rewrite lookup_insert_eq in H. simplify_eq.
      left. by apply list_elem_of_singleton in Hm.
    + rewrite lookup_insert_ne in H by done. right; eauto.
Qed.

Lemma collectToken_wellCollected h commandNumber c previous (r : tokref) :
  wellCollected h c ->
  wellCollected h (fst (collectToken h commandNumber (c, previous) r)).
Proof.
  intros [H1 H2]. unfold collectToken.
  set (isNewLine := match previous with
                    | None => true
                    | Some p => negb (bool_decide (lineNumber p = _))
                    end).
  destruct (match previous with
            | Some p => if isNewLine then _ else _
            | None => _
            end) as [pe sl] eqn:Epe.
  set (tp := Build_TokenPos _ _ _ _ _ _ _ _ _ _ _).
  cbn [fst tokensOfXPos collectedTokens].
  split.
  - intros key l m Hl Hm. apply elem_of_app.
    assert (Hstep : forall M, (forall k l0 m0, M !! k = Some l0 -> m0 ∈ l0 ->
                       m0 = tp \/ m0 ∈ collectedTokens c) ->
                     forall x k l0 m0, addTokenPos M tp x !! k = Some l0 ->
                       m0 ∈ l0 -> m0 = tp \/ m0 ∈ collectedTokens c).
    { intros M HM x k l0 m0 Hk Hm0.
      destruct (addTokenPos_lookup _ _ _ _ _ _ Hk Hm0) as [->|(l1 & Hl1 & Hin)];
        [by left|]. eapply HM; eauto. }
    assert (Hbase : forall k l0 m0, tokensOfXPos c !! k = Some l0 -> m0 ∈ l0 ->
                       m0 = tp \/ m0 ∈ collectedTokens c).
    { intros k l0 m0 Hk Hm0. right. eapply H1; eauto. }
    assert (Hm' : m = tp \/ m ∈ collectedTokens c).
    { repeat case_match; eauto. }
    destruct Hm' as [->|Hm']; [right; apply list_elem_of_singleton; done
                              | by left].
  - intros m Hm Hnf. apply elem_of_app in Hm as [Hm|Hm]; [by apply H2|].
    apply list_elem_of_singleton in Hm. subst m. subst tp.
    cbn [spacesLeft token prevEndColumn isFirstInLine] in *.
    destruct previous as [p|]; [|done]. subst isNewLine.
    rewrite Hnf in Epe. simplify_eq. reflexivity.
Qed.

Lemma fold_collectToken_wellCollected h commandNumber tokens :
  forall c previous, wellCollected h c ->
    wellCollected h
      (fst (fold_left (collectToken h commandNumber) tokens (c, previous))).
Proof.
  induction tokens as [|t r IH]; intros c previous Hc; cbn [fold_left];
    [done|].
  pose proof (collectToken_wellCollected h commandNumber c previous t Hc) as H.
  destruct (collectToken h commandNumber (c, previous) t) as [c1 p1].
  by apply IH.
Qed.

Lemma collectTokenPositions_wellCollected h statements :
  wellCollected h (collectTokenPositions h statements).
Proof.
  unfold collectTokenPositions.
  assert (H0 : wellCollected h
            {| tokensOfXPos := ∅; firstTokenOfLine := ∅; collectedTokens := [] |}).
  { split; [intros key l m H; cbn [tokensOfXPos] in H;
             by rewrite lookup_empty in H|].
    intros m Hm. by apply elem_of_nil in Hm. }
  revert H0. generalize 0 as n.
  generalize {| tokensOfXPos := ∅; firstTokenOfLine := ∅; collectedTokens := [] |}.
  induction statements as [|s r IH]; intros c n Hc; cbn [fold_left]; [done|].
  apply IH. clear IH. revert c Hc.
  induction (tokenArrays s) as [|ts arrays IHa]; intros c Hc; cbn [fold_left];
    [done|].
  apply IHa. by apply fold_collectToken_wellCollected.
Qed.

Lemma insertSorted_elem {A} (compare : A -> A -> Z) (x y : A) (l : list A) :
  y ∈ insertSorted compare x l <-> y = x \/ y ∈ l.
Proof.
  induction l as [|z r IH]; simpl.
  - by rewrite list_elem_of_singleton, elem_of_nil; intuition.
  - case_bool_decide; rewrite !elem_of_cons; [done|].
    rewrite IH. intuition.
Qed.

Lemma sort_elem {A} (compare : A -> A -> Z) (y : A) (l : list A) :
  y ∈ sort compare l <-> y ∈ l.
Proof.
  unfold sort. induction l as [|z r IH]; simpl; [done|].
  by rewrite insertSorted_elem, IH, elem_of_cons.
Qed.

Lemma runMembers_elem tokenPosList startIndex endIndex m :
  m ∈ runMembers tokenPosList startIndex endIndex -> m ∈ tokenPosList.
Proof.
  unfold runMembers. intros H.
  apply elem_of_take in H as (i & H & _).
  rewrite lookup_drop in H. by eapply list_elem_of_lookup_2.
Qed.

Lemma processSequence_bounded positions tokenPosList startIndex endIndex
    special tb :
  (forall m, m ∈ tokenPosList -> m ∈ positions) ->
  boundedBy positions (overrides tb) ->
  boundedBy positions
    (overrides (processSequence tokenPosList startIndex endIndex special tb)).
Proof.
  intros Hsub Hb t v H.
  apply processSequence_lookup in H as [H|(m & spare & H)]; [by apply Hb|].
  cbn zeta in H. destruct H as (Hin & Ht & He & _ & Hpos & Hv).
  destruct (decide (v = 0)) as [|Hnz]; [by left|].
  right. exists m. unfold receivesOverride in He.
  destruct (isFirstInLine m) eqn:Ef; [by rewrite andb_false_r in He|].
  repeat split; [by apply Hsub, (runMembers_elem _ startIndex endIndex)
                |done|lia|lia].
Qed.

Lemma processRuns_bounded positions h ftol tokenPosList special realXPos :
  (forall m, m ∈ tokenPosList -> m ∈ positions) ->
  forall fuel startIndex tb,
    boundedBy positions (overrides tb) ->
    boundedBy positions
      (overrides (processRuns fuel h ftol tokenPosList special realXPos
                    startIndex tb)).
Proof.
  intros Hsub. induction fuel as [|fuel IH]; intros startIndex tb Hb;
    cbn [processRuns]; [done|].
  destruct (tokenPosList !! startIndex) as [first|]; [|done].
  destruct (scanRun _ _ _ _ _ _ _ _ _) as [endIndex skip].
  apply IH. destruct skip; cbn [negb]; [done|].
  by apply processSequence_bounded.
Qed.

Lemma processXPos_bounded h c tb xPosKey :
  wellCollected h c ->
  boundedBy (collectedTokens c) (overrides tb) ->
  boundedBy (collectedTokens c) (overrides (processXPos h c tb xPosKey)).
Proof.
  intros [Hc _] Hb. unfold processXPos.
  destruct (tokensOfXPos c !! xPosKey) as [l|] eqn:El; [|done].
  case_bool_decide; [done|].
  apply processRuns_bounded; [|done].
  intros m Hm. apply sort_elem in Hm. by eapply Hc.
Qed.

Lemma condenseStandaloneTokens_bounded positions tokenPositions grouped :
  (forall m, m ∈ tokenPositions -> m ∈ positions) ->
  forall o, boundedBy positions o ->
    boundedBy positions (condenseStandaloneTokens tokenPositions grouped o).
Proof.
  unfold condenseStandaloneTokens.
  induction tokenPositions as [|m r IH]; intros Hsub o Hb; cbn [fold_left];
    [done|].
  apply IH; [intros m' Hm'; apply Hsub; by apply list_elem_of_further|].
  destruct (isFirstInLine m) eqn:Ef; [done|].
  repeat (case_bool_decide || case_match); try done.
  intros t v Hl. destruct (decide (token m = t)) as [Heq|Hne].
  - rewrite Heq, lookup_insert_eq in Hl. simplify_eq. right. exists m.
    repeat split; [apply Hsub, list_elem_of_here|done|lia|lia].
  - rewrite lookup_insert_ne in Hl by done. by apply Hb.
Qed.

Lemma applyEmptyBracketOverridesToTokens_bounded positions h tokens :
  forall o, boundedBy positions o ->
    boundedBy positions (applyEmptyBracketOverridesToTokens h tokens o).
Proof.
  induction tokens as [|current rest IH]; intros o Hb; [done|].
  destruct rest as [|next rest']; [done|].
  cbn [applyEmptyBracketOverridesToTokens]. apply IH.
  repeat (case_bool_decide || case_match); try done.
  intros t v Hl. destruct (decide (next = t)) as [Heq|Hne].
  - rewrite Heq, lookup_insert_eq in Hl. simplify_eq. by left.
  - rewrite lookup_insert_ne in Hl by done. by apply Hb.
Qed.

Lemma applyEmptyBracketOverrides_bounded positions h statements :
  forall o, boundedBy positions o ->
    boundedBy positions (applyEmptyBracketOverrides h statements o).
Proof.
  unfold applyEmptyBracketOverrides.
  induction statements as [|s r IH]; intros o Hb; cbn [fold_left]; [done|].
  apply IH. clear IH. revert o Hb.
  induction (tokenArrays s) as [|ts arrays IHa]; intros o Hb;
    cbn [fold_left]; [done|].
  apply IHa. by apply applyEmptyBracketOverridesToTokens_bounded.
Qed.

Lemma computeNeedlessSpacesOverrides_bounded h statements :
  boundedBy (collectedTokens (collectTokenPositions h statements))
    (computeNeedlessSpacesOverrides h statements).
Proof.
  unfold computeNeedlessSpacesOverrides.
  pose proof (collectTokenPositions_wellCollected h statements) as Hc.
  set (c := collectTokenPositions h statements) in *.
  assert (Hempty : boundedBy (collectedTokens c) ∅).
  { intros t v H. by rewrite lookup_empty in H. }
  case_bool_decide; [done|].
  apply applyEmptyBracketOverrides_bounded.
  apply condenseStandaloneTokens_bounded; [done|].
  generalize (rev (sort (fun a b => a - b)
                        (map fst (map_to_list (tokensOfXPos c))))).
  intros keys.
  assert (Hstart : boundedBy (collectedTokens c)
            (overrides {| processedTokens := ∅; overrides := ∅;
                          groupedTokens := ∅ |})) by done.
  revert Hstart.
  generalize {| processedTokens := ∅; overrides := ∅; groupedTokens := ∅ |}.
  induction keys as [|k r IH]; intros tb Hb; cbn [fold_left]; [done|].
  apply IH. by apply processXPos_bounded.
Qed.

End Table.

(** ** The loops with a bound on their rounds run to their end *)
Section Fuel.
Import NeedlessSpacesRule Printer.

(** The scan of a run always moves past its first member. *)
Lemma scanRun_advances h processed ftol realXPos first rest :
  forall prev endIndex skip,
    (endIndex < fst (scanRun h processed ftol realXPos first prev rest
                       endIndex skip))%nat.
Proof.
  induction rest as [|test rest' IH]; intros prev endIndex skip;
    cbn [scanRun fst]; [lia|].
  destruct (tokenBreaksSequence _ _ _ _ _ _); cbn [fst]; [lia|].
  specialize (IH test (S endIndex)
                (skip || bool_decide (token prev ∈ processed))). lia.
Qed.

(** [processRuns] does not depend on its fuel once the fuel covers the
    positions from [startIndex] on; [processXPos] passes the length of the
    list, with [startIndex] 0. *)
Lemma processRuns_enough_fuel h ftol tokenPosList special realXPos :
  forall fuel1 fuel2 startIndex tb,
    (length tokenPosList - startIndex <= fuel1)%nat ->
    (length tokenPosList - startIndex <= fuel2)%nat ->
    processRuns fuel1 h ftol tokenPosList special realXPos startIndex tb
    = processRuns fuel2 h ftol tokenPosList special realXPos startIndex tb.
Proof.
  induction fuel1 as [|fuel1 IH]; intros fuel2 startIndex tb H1 H2.
  - assert (Hnone : tokenPosList !! startIndex = None)
      by (apply lookup_ge_None; lia).
    destruct fuel2; cbn [processRuns]; [done|]. by rewrite Hnone.
  - destruct fuel2 as [|fuel2].
    + assert (Hnone : tokenPosList !! startIndex = None)
        by (apply lookup_ge_None; lia).
      cbn [processRuns]. by rewrite Hnone.
    + cbn [processRuns].
      destruct (tokenPosList !! startIndex) as [first|]; [|done].
      pose proof (scanRun_advances h (processedTokens tb) ftol realXPos first
                    (drop (S startIndex) tokenPosList) first startIndex false)
        as Hadv.
      destruct (scanRun _ _ _ _ _ _ _ _ _) as [endIndex skip].
      cbn [fst] in Hadv. apply IH; lia.
Qed.

(** Likewise for the loop that joins punctuation lines, entered at
    [i >= 1]: a round either moves [i] forward or shortens [lines]. *)
Lemma joinPunctuationLines_enough_fuel hasPost :
  forall fuel1 fuel2 i (lines : list jsstring) metas,
    (1 <= i)%nat ->
    (length lines - i <= fuel1)%nat ->
    (length lines - i <= fuel2)%nat ->
    joinPunctuationLines fuel1 hasPost i lines metas
    = joinPunctuationLines fuel2 hasPost i lines metas.
Proof.
  induction fuel1 as [|fuel1 IH]; intros fuel2 i lines metas Hi H1 H2.
  - destruct fuel2; cbn [joinPunctuationLines]; [done|].
    rewrite bool_decide_eq_false_2 by lia. done.
  - destruct fuel2 as [|fuel2]; cbn [joinPunctuationLines].
    + rewrite bool_decide_eq_false_2 by lia. done.
    + case_bool_decide as Hlt; cbn [negb]; [|done].
      destruct (hasPost && bool_decide (i = length lines - 1)%nat);
        [apply IH; lia|].
      destruct (lines !! i) as [line|]; [|apply IH; lia].
      destruct (lines !! (i - 1)%nat) as [lineBefore|]; [|apply IH; lia].
      destruct (startsWithPeriodOrComma line); [|apply IH; lia].
      apply IH; [done|..];
        rewrite length_app, length_take; cbn [length];
        rewrite length_drop; lia.
Qed.

End Fuel.

(** ** The needless-spaces compressor: the mandatory space *)
Section MandatorySpace.
Import NeedlessSpacesRule NeedlessPredicates SpacingPredicates.
Local Open Scope Z_scope.

Lemma applyEmptyBracketOverridesToTokens_exact h tokens t : forall o,
  applyEmptyBracketOverridesToTokens h tokens o !! t
  = if closesEmptyPair h tokens t then Some 0 else o !! t.
Proof.
  induction tokens as [|current rest IH]; intros o; [done|].
  destruct rest as [|next rest']; [done|].
  change (applyEmptyBracketOverridesToTokens h (current :: next :: rest') o)
    with (applyEmptyBracketOverridesToTokens h (next :: rest')
            (if negb (isMatchingBracketPair (text (h current)) (text (h next)))
             then o
             else if negb (bool_decide (Types.endLine (loc (h current))
                                        = Types.startLine (loc (h next))))
             then o
             else if bool_decide (Types.startColumn (loc (h next))
                                  - Types.endColumn (loc (h current)) - 1 > 0)
             then <[next := 0]> o else o)).
  change (closesEmptyPair h (current :: next :: rest') t)
    with ((bool_decide (next = t)
           && isMatchingBracketPair (text (h current)) (text (h next))
           && bool_decide (endLine (loc (h current)) = startLine (loc (h next)))
           && bool_decide (0 < Types.startColumn (loc (h next))
                               - Types.endColumn (loc (h current)) - 1))
          || closesEmptyPair h (next :: rest') t).
  rewrite IH.
  destruct (closesEmptyPair h (next :: rest') t);
    [by rewrite orb_true_r|]. rewrite orb_false_r.
  destruct (isMatchingBracketPair _ _); cbn [negb];
    [|by rewrite andb_false_r].
  case_bool_decide as Hline; cbn [negb]; [|by rewrite andb_false_r].
  rewrite !andb_true_r.
  case_bool_decide as Hgap.
  - rewrite (bool_decide_eq_true_2 (0 < _)) by lia. rewrite andb_true_r.
    case_bool_decide as Ht.
    + subst t. by rewrite lookup_insert_eq.
    + by rewrite lookup_insert_ne.
  - rewrite (bool_decide_eq_false_2 (0 < _)) by lia.
    by rewrite andb_false_r.
Qed.


Lemma applyEmptyBracketOverrides_arrays h arrays t : forall o,
  fold_left (fun o tokens => applyEmptyBracketOverridesToTokens h tokens o)
    arrays o !! t
  = if existsb (fun tokens => closesEmptyPair h tokens t) arrays
    then Some 0 else o !! t.
Proof.
  induction arrays as [|a r IH]; intros o; [done|].
  cbn [fold_left existsb]. rewrite IH, applyEmptyBracketOverridesToTokens_exact.
  destruct (existsb _ r); [by rewrite orb_true_r|]. by rewrite orb_false_r.
Qed.

Lemma applyEmptyBracketOverrides_exact h statements t : forall o,
  applyEmptyBracketOverrides h statements o !! t
  = if isEmptyBracketCloser h statements t then Some 0 else o !! t.
Proof.
  unfold applyEmptyBracketOverrides, isEmptyBracketCloser.
  induction statements as [|s r IH]; intros o; [done|].
  cbn [fold_left map concat]. rewrite existsb_app, IH.
  rewrite applyEmptyBracketOverrides_arrays.
  destruct (existsb _ (concat _)); [by rewrite orb_true_r|].
  by rewrite orb_false_r.
Qed.


Lemma fold_add_tokens (members : list TokenPos) : forall (p : gset tokref) t,
  t ∈ fold_left (fun p tokenPos => {[token tokenPos]} ∪ p) members p
  <-> t ∈ p \/ exists m, m ∈ members /\ token m = t.
Proof.
  induction members as [|m r IH]; intros p t; cbn [fold_left].
  - split; [by left|]. intros [H|(m & Hm & _)]; [done|].
    by apply elem_of_nil in Hm.
  - rewrite IH, elem_of_union, elem_of_singleton. split.
    + intros [[->|H]|(m' & Hm' & Ht)].
      * right. exists m. split; [apply list_elem_of_here|done].
      * by left.
      * right. exists m'. split; [by apply list_elem_of_further|done].
    + intros [H|(m' & Hm' & Ht)]; [left; by right|].
      apply elem_of_cons in Hm' as [->|Hm']; [left; by left|].
      right. by exists m'.
Qed.

(** [processedTokens] only grows. *)
Lemma processSequence_processed tokenPosList startIndex endIndex special tb t :
  t ∈ processedTokens tb ->
  t ∈ processedTokens
        (processSequence tokenPosList startIndex endIndex special tb).
Proof.
  intros H. unfold processSequence.
  repeat (case_match; cbn [processedTokens]; try done).
  all: apply fold_add_tokens; by left.
Qed.

(** A run on a derived column that writes overrides has recorded its
    members in [processedTokens]. *)
Lemma processSequence_derived tokenPosList startIndex endIndex tb t v :
  overrides (processSequence tokenPosList startIndex endIndex true tb) !! t
  = Some v ->
  overrides tb !! t = Some v
  \/ t ∈ processedTokens
          (processSequence tokenPosList startIndex endIndex true tb).
Proof.
  unfold processSequence. intros H.
  repeat (case_match; cbn [overrides processedTokens] in *; try (by left)).
  all: apply writeRunOverrides_lookup in H as [H|(m & Hin & Ht & _)];
    [by left|].
  all: right; apply fold_add_tokens; right; by exists m.
Qed.

Lemma processSequence_spaced positions tokenPosList startIndex endIndex
    special tb :
  (forall m, m ∈ tokenPosList -> m ∈ positions) ->
  spacedBy positions (processedTokens tb) (overrides tb) ->
  let after :=
    processSequence tokenPosList startIndex endIndex special tb in
  spacedBy positions (processedTokens after) (overrides after).
Proof.
  intros Hsub Hb after t v H. subst after.
  assert (Hold : overrides tb !! t = Some v ->
            exists m, m ∈ positions /\ token m = t /\ isFirstInLine m = false
              /\ 0 <= v <= Z.max 0 (spacesLeft m)
              /\ (1 <= v
                  \/ t ∈ processedTokens
                          (processSequence tokenPosList startIndex endIndex
                             special tb))).
  { intros Ho. destruct (Hb t v Ho) as (m & Hm & Ht & Hf & Hv & Hlow).
    exists m. split_and!; [done|done|done|lia|lia|].
    destruct Hlow as [Hlow|Hlow]; [by left|right].
    by apply processSequence_processed. }
  pose proof H as H'.
  apply processSequence_lookup in H as [H|(m & spare & H)]; [by apply Hold|].
  cbn zeta in H. destruct H as (Hin & Ht & He & Hs & Hpos & Hv).
  unfold receivesOverride in He.
  destruct (isFirstInLine m) eqn:Ef; [by rewrite andb_false_r in He|].
  pose proof (runMembers_elem _ _ _ _ Hin) as Hlist.
  destruct special.
  - apply processSequence_derived in H' as [H'|H']; [by apply Hold|].
    exists m. split_and!; [by apply Hsub|done|done|lia|lia|by right].
  - exists m. split_and!; [by apply Hsub|done|done|lia|lia|left].
    pose proof (runSpacesToSpare_le _ _ _ _ _ Hs Hin) as Hle.
    unfold testSpacesToSpare in Hle. lia.
Qed.

Lemma processRuns_spaced h positions ftol tokenPosList special realXPos :
  (forall m, m ∈ tokenPosList -> m ∈ positions) ->
  forall fuel startIndex tb,
    spacedBy positions (processedTokens tb) (overrides tb) ->
    let after :=
      processRuns fuel h ftol tokenPosList special realXPos startIndex tb in
    spacedBy positions (processedTokens after) (overrides after).
Proof.
  intros Hsub. induction fuel as [|fuel IH]; intros startIndex tb Hb;
    cbn [processRuns]; [done|].
  destruct (tokenPosList !! startIndex) as [first|]; [|done].
  destruct (scanRun _ _ _ _ _ _ _ _ _) as [endIndex skip].
  apply IH. destruct skip; cbn [negb]; [done|].
  by apply processSequence_spaced.
Qed.

Lemma processXPos_spaced h c tb xPosKey :
  wellCollected h c ->
  spacedBy (collectedTokens c) (processedTokens tb) (overrides tb) ->
  let after := processXPos h c tb xPosKey in
  spacedBy (collectedTokens c) (processedTokens after) (overrides after).
Proof.
  intros [Hc _] Hb. unfold processXPos.
  destruct (tokensOfXPos c !! xPosKey) as [l|] eqn:El; [|done].
  case_bool_decide; [done|].
  apply processRuns_spaced; [|done].
  intros m Hm. apply sort_elem in Hm. by eapply Hc.
Qed.

Lemma condenseStandaloneTokens_spaced positions derived tokenPositions
    grouped :
  (forall m, m ∈ tokenPositions -> m ∈ positions) ->
  forall o, spacedBy positions derived o ->
    spacedBy positions derived
      (condenseStandaloneTokens tokenPositions grouped o).
Proof.
  unfold condenseStandaloneTokens.
  induction tokenPositions as [|m r IH]; intros Hsub o Hb; cbn [fold_left];
    [done|].
  apply IH; [intros m' Hm'; apply Hsub; by apply list_elem_of_further|].
  destruct (isFirstInLine m) eqn:Ef; [done|].
  repeat (case_bool_decide || case_match); try done.
  intros t v Hl. destruct (decide (token m = t)) as [Heq|Hne].
  - rewrite Heq, lookup_insert_eq in Hl. simplify_eq. exists m.
    split_and!; [apply Hsub, list_elem_of_here|done|done|lia|lia|by left].
  - rewrite lookup_insert_ne in Hl by done. by apply Hb.
Qed.

(** The table before the empty-bracket pass. *)
Lemma table_before_brackets_spaced h statements :
  let c := collectTokenPositions h statements in
  let tb :=
    fold_left (processXPos h c)
      (rev (sort (fun a b => a - b) (map fst (map_to_list (tokensOfXPos c)))))
      noTables in
  spacedBy (collectedTokens c) (derivedRunTokens h statements)
    (condenseStandaloneTokens (collectedTokens c) (groupedTokens tb)
       (overrides tb)).
Proof.
  intros c tb.
  pose proof (collectTokenPositions_wellCollected h statements) as Hc.
  fold c in Hc.
  apply condenseStandaloneTokens_spaced; [done|].
  unfold derivedRunTokens. fold c.
  change (Build_Tables ∅ ∅ ∅) with noTables.
  fold tb. subst tb.
  generalize (rev (sort (fun a b => a - b)
                        (map fst (map_to_list (tokensOfXPos c))))).
  intros keys.
  assert (Hstart : spacedBy (collectedTokens c) (processedTokens noTables)
                     (overrides noTables)).
  { intros t v H. cbn [overrides noTables] in H.
    by rewrite lookup_empty in H. }
  revert Hstart. generalize noTables.
  induction keys as [|k r IH]; intros tb Hb; cbn [fold_left]; [done|].
  apply IH. by apply processXPos_spaced.
Qed.

Lemma computeNeedlessSpacesOverrides_spaced h statements t v :
  computeNeedlessSpacesOverrides h statements !! t = Some v ->
  (isEmptyBracketCloser h statements t = true /\ v = 0)
  \/ (isEmptyBracketCloser h statements t = false
      /\ exists m,
           m ∈ collectedTokens (collectTokenPositions h statements)
           /\ token m = t /\ isFirstInLine m = false
           /\ 0 <= v <= spacesLeft m
           /\ spacesLeft m
              = Z.max 0 (Z.max 0 (Types.startColumn (loc (h t)))
                         - prevEndColumn m - 1)
           /\ (1 <= v \/ t ∈ derivedRunTokens h statements)).
Proof.
  unfold computeNeedlessSpacesOverrides. cbv zeta.
  case_bool_decide; [by rewrite lookup_empty|].
  rewrite applyEmptyBracketOverrides_exact.
  destruct (isEmptyBracketCloser h statements t) eqn:Ecloser.
  - intros Hv. left. split; [done|]. by simplify_eq.
  - intros Hv. right. split; [done|].
    apply (table_before_brackets_spaced h statements) in Hv
      as (m & Hin & Ht & Hf & Hv & Hlow).
    destruct (collectTokenPositions_wellCollected h statements) as [_ Hc].
    pose proof (Hc m Hin Hf) as Hs. rewrite Ht in Hs.
    exists m. split_and!; try done; lia.
Qed.

(** No spacing on record is negative. *)
Lemma collectToken_spacing h commandNumber c previous (r : tokref) :
  Forall (fun m => 0 <= spacesLeft m) (collectedTokens c) ->
  Forall (fun m => 0 <= spacesLeft m)
    (collectedTokens (fst (collectToken h commandNumber (c, previous) r))).
Proof.
  intros Hc. unfold collectToken.
  set (isNewLine := match previous with
                    | None => true
                    | Some p => negb (bool_decide (lineNumber p = _))
                    end).
  destruct (match previous with
            | Some p => if isNewLine then _ else _
            | None => _
            end) as [pe sl] eqn:Epe.
  cbn [fst collectedTokens].
  apply Forall_app. split; [done|]. apply Forall_singleton.
  cbn [spacesLeft].
  destruct previous as [p|]; [destruct isNewLine|]; simplify_eq; lia.
Qed.

Lemma fold_collectToken_spacing h commandNumber tokens :
  forall c previous,
    Forall (fun m => 0 <= spacesLeft m) (collectedTokens c) ->
    Forall (fun m => 0 <= spacesLeft m)
      (collectedTokens
         (fst (fold_left (collectToken h commandNumber) tokens
                 (c, previous)))).
Proof.
  induction tokens as [|t r IH]; intros c previous Hc; cbn [fold_left];
    [done|].
  pose proof (collectToken_spacing h commandNumber c previous t Hc) as H.
  destruct (collectToken h commandNumber (c, previous) t) as [c1 p1].
  by apply IH.
Qed.

Lemma fold_statements_spacing h statements : forall c n,
  Forall (fun m => 0 <= spacesLeft m) (collectedTokens c) ->
  Forall (fun m => 0 <= spacesLeft m)
    (collectedTokens
       (fst (fold_left
               (fun '(c, commandNumber) statement =>
                  (fold_left
                     (fun c tokens =>
                        collectFromTokens h tokens commandNumber c)
                     (tokenArrays statement) c,
                   commandNumber + 1))
               statements (c, n)))).
Proof.
  induction statements as [|s r IH]; intros c n Hc; cbn [fold_left]; [done|].
  apply IH. clear IH. revert c Hc.
  induction (tokenArrays s) as [|ts arrays IHa]; intros c Hc; cbn [fold_left];
    [done|].
  apply IHa. by apply fold_collectToken_spacing.
Qed.

Lemma collectTokenPositions_spacing h statements :
  Forall (fun m => 0 <= spacesLeft m)
    (collectedTokens (collectTokenPositions h statements)).
Proof.
  unfold collectTokenPositions. apply fold_statements_spacing. constructor.
Qed.

(** So none is in a run that the compressor takes from its lists. *)
Lemma run_spacing h statements key l startIndex endIndex :
  tokensOfXPos (collectTokenPositions h statements) !! key = Some l ->
  Forall (fun m => 0 <= spacesLeft m)
    (runMembers (sort compareTokenPos l) startIndex endIndex).
Proof.
  intros Hl. apply Forall_forall. intros m Hm.
  apply runMembers_elem, sort_elem in Hm.
  destruct (collectTokenPositions_wellCollected h statements) as [Hc _].
  pose proof (collectTokenPositions_spacing h statements) as Hs.
  rewrite Forall_forall in Hs. apply Hs. by eapply Hc.
Qed.

End MandatorySpace.

(** ** The needless-spaces compressor: short runs and skipped runs *)
Section RunClaims.
Import NeedlessSpacesRule Examples SpacingPredicates SpacingExamples.
Local Open Scope Z_scope.

(** [C2] (counterexample) In [a    = 1.] over [bb   = 2.] the two [=]
    signs are an alignment run of two members, fewer than three (the scan
    of the column list from index 0 stops at index 2, the end of the
    list); the run is not discarded: processing it gives both members an
    override, and these overrides are in the table that the compressor
    returns. *)
Lemma run_of_two_is_processed :
  let h := heapOf twoAssignmentsTokens in
  let run :=
    sort compareTokenPos
      (default []
         (tokensOfXPos (collectTokenPositions h twoAssignmentsBody) !! 10)) in
  map token run = [1%nat; 5%nat]
  /\ match run with
     | first :: rest =>
         scanRun h ∅
           (firstTokenOfLine (collectTokenPositions h twoAssignmentsBody))
           5 first first rest 0 false = (2%nat, false)
     | [] => False
     end
  /\ overrides (processSequence run 0 2 false noTables) !! 1%nat = Some 2
  /\ overrides (processSequence run 0 2 false noTables) !! 5%nat = Some 1
  /\ computeNeedlessSpacesOverrides h twoAssignmentsBody !! 1%nat = Some 2
  /\ computeNeedlessSpacesOverrides h twoAssignmentsBody !! 5%nat = Some 1.
Proof. vm_compute. repeat split; reflexivity. Qed.

(** [C2] (as amended) For every alignment run detected by the
    needless-spaces compressor, if the run contains fewer than 2 member
    tokens, the run is discarded: processing it sets no space override
    for any of its members, and leaves the other two tables alone as
    well. *)
Theorem short_run_is_discarded
    (tokenPosList : list TokenPos) (startIndex endIndex : nat)
    (isSpecialAlignment : bool) (tb : Tables) :
  (endIndex - startIndex < 2)%nat ->
  processSequence tokenPosList startIndex endIndex isSpecialAlignment tb = tb
  /\ forall t,
       overrides (processSequence tokenPosList startIndex endIndex
                    isSpecialAlignment tb) !! t
       = overrides tb !! t.
Proof.
  intros H. unfold processSequence.
  case_bool_decide as E; [done|]. lia.
Qed.

(** [C3] (counterexample) In the run [bar], [baz], [qux] at column 10,
    [baz] is line-leading, yet the run is not skipped: its least slack is
    5 and [bar] and [qux] receive overrides. *)
Lemma run_with_a_leading_member_is_processed :
  map (fun m => (token m, isFirstInLine m)) columnRun
  = [(1%nat, false); (2%nat, true); (4%nat, false)]
  /\ match columnRun with
     | first :: rest =>
         scanRun (heapOf columnTokens) ∅
           (firstTokenOfLine
              (collectTokenPositions (heapOf columnTokens) columnBody))
           10 first first rest 0 false = (3%nat, false)
     | [] => False
     end
  /\ runSpacesToSpare false 0 columnRun = Some 5
  /\ overrides (processSequence columnRun 0 3 false noTables) !! 1%nat = Some 1
  /\ overrides (processSequence columnRun 0 3 false noTables) !! 4%nat = Some 3.
Proof. vm_compute. repeat split; reflexivity. Qed.

Lemma map_ext_Forall_spacing (members : list TokenPos) :
  Forall (fun m => 0 <= spacesLeft m) members ->
  map (testSpacesToSpare false 0) members
  = map slackBeyondMandatorySpace members.
Proof.
  induction 1 as [|m r Hm _ IH]; [done|]. cbn [map]. rewrite IH. f_equal.
  unfold testSpacesToSpare, slackBeyondMandatorySpace. lia.
Qed.

(** [C3] (as amended) For every alignment run on a raw column, none of
    whose members has a negative spacing on record, [spacesToSpare]
    equals the minimum over the run's members of the slack available
    beyond the mandatory one space: the spacing recorded before the
    member, less one.  Every alignment run, on a raw or on a derived
    column, is skipped (no member receives an override) whenever every
    member of the run is line-leading or [spacesToSpare] is less than or
    equal to 0.  When it is not skipped a member's override is its
    spacing less [spacesToSpare].  No run that the compressor takes from
    its sorted lists has a member with a negative spacing on record. *)
Theorem spare_is_least_slack_and_gates_the_run
    (tokenPosList : list TokenPos) (startIndex endIndex : nat)
    (isSpecialAlignment : bool) (tb : Tables) :
  let members := runMembers tokenPosList startIndex endIndex in
  let anchor :=
    if isSpecialAlignment then runMaxPrevEndColumn members else 0 in
  let spacesToSpare := runSpacesToSpare isSpecialAlignment anchor members in
  let after :=
    processSequence tokenPosList startIndex endIndex isSpecialAlignment tb in
  (isSpecialAlignment = false ->
   Forall (fun m => 0 <= spacesLeft m) members ->
   spacesToSpare = leastSlack (map slackBeyondMandatorySpace members))
  /\ (forallb isFirstInLine members = true
      \/ (exists spare, spacesToSpare = Some spare /\ spare <= 0) ->
      overrides after = overrides tb)
  /\ (forall t v, overrides after !! t = Some v ->
        overrides tb !! t = Some v
        \/ exists m spare, m ∈ members /\ token m = t
             /\ isFirstInLine m = false
             /\ spacesToSpare = Some spare /\ 0 < spare
             /\ v = Z.max 0 (spacesLeft m - spare))
  /\ (forall h statements key l,
        tokensOfXPos (collectTokenPositions h statements) !! key = Some l ->
        tokenPosList = sort compareTokenPos l ->
        Forall (fun m => 0 <= spacesLeft m) members).
Proof.
  intros members anchor spacesToSpare after. split_and!.
  - intros Hraw Hspacing. subst spacesToSpare anchor. rewrite Hraw.
    rewrite runSpacesToSpare_least. by rewrite map_ext_Forall_spacing.
  - intros Hskip. subst after. unfold processSequence.
    fold members. fold anchor. fold spacesToSpare.
    repeat (case_match; cbn [overrides]; try done).
    all: exfalso.
    all: match goal with
         | E : _ || bool_decide (_ <= 0) = false |- _ =>
             apply orb_false_iff in E as [E1 E2];
             apply bool_decide_eq_false in E2
         end.
    all: destruct Hskip as [Hall|(spare & Hs & Hle)]; [congruence|].
    all: simplify_eq; lia.
  - intros t v H. subst after.
    apply processSequence_lookup in H as [H|(m & spare & H)]; [by left|].
    cbn zeta in H. destruct H as (Hin & Ht & He & Hs & Hpos & Hv).
    right. exists m, spare. repeat split; try done.
    unfold receivesOverride in He.
    destruct (isFirstInLine m); [|done].
    by rewrite andb_false_r in He.
  - intros h statements key l Hl ->. subst members.
    by eapply run_spacing.
Qed.

(** On a derived column the anchor of the run is the largest end column
    before a member, and the member behind it contributes its whole
    spacing, not its spacing less one.  In
    <<
    IF a    < 1
    OR bb  <= 2.
    >>
    the two operators are such a run: the spacings on record are 3 and
    1, the least slack beyond one space is 0, yet [spacesToSpare] is 1;
    the run is processed, [<=] receives the override 0 and is printed
    without a space before it.  On a raw column the same spacings give
    [spacesToSpare] 0 and the run is skipped. *)
Lemma derived_run_spares_the_whole_spacing :
  map (fun m => (token m, spacesLeft m, startIndexInLine m, prevEndColumn m))
      comparisonRun
  = [(2%nat, 3, 8, 4); (6%nat, 1, 7, 5)]
  /\ leastSlack (map slackBeyondMandatorySpace comparisonRun) = Some 0
  /\ runSpacesToSpare true (runMaxPrevEndColumn comparisonRun) comparisonRun
     = Some 1
  /\ runSpacesToSpare false 0 comparisonRun = Some 0
  /\ bool_decide
       (6%nat ∈ derivedRunTokens (heapOf comparisonTokens) comparisonBody)
     = true
  /\ computeNeedlessSpacesOverrides (heapOf comparisonTokens) comparisonBody
       !! 6%nat = Some 0
  /\ fst (Printer.printProgram onlyEndif asciiUpper asciiLower defaultOptions
            (programOf comparisonTokens comparisonBody))
     = Printer.DocGroup
         (Printer.DocConcat
            [Printer.DocConcat
               [Printer.DocString (lit "IF a  < 1"); Printer.DocHardline;
                Printer.DocString (lit "OR bb<= 2.")];
             Printer.DocHardline]).
Proof. vm_compute. repeat split; reflexivity. Qed.

End RunClaims.

(** ** Overrides and the renderer *)
Section OverrideClaims.
Import NeedlessSpacesRule SpaceBeforePeriodRule Printer Examples.
Import ClosingBracketsPositionRule NeedlessPredicates.
Import SpacingPredicates SpacingExamples.
Local Open Scope Z_scope.

(** [C1] (counterexample) In [foo(  ).] the closing parenthesis has an
    entry in the override table, 0, written by the empty-bracket pass;
    the base rule asks for a space before it (the rule minimum is 1), and
    the renderer emits 0 spaces, not [max 0 1]: the statement is printed
    as [foo().], without the separating space.  In
    <<
    a = ( 1
        )   * 2.
    >>
    the line break moves behind the closing parenthesis, so [*] starts
    the second line of the output; it has the override 1 and the rule
    minimum 1, and is printed after the 8 spaces of its column, not
    after [max 1 1]. *)
Lemma override_is_not_always_the_emitted_maximum :
  (let h := heapOf emptyCallTokens in
   let table := computeNeedlessSpacesOverrides h emptyCallBody in
   table !! 2%nat = Some 0
   /\ needsSpaceBefore (h 2%nat) (Some (h 1%nat)) defaultOptions = true
   /\ getSpacesBeforeToken (Some table) h 2%nat (Some 1%nat) defaultOptions
      = 0
   /\ getSpacesBeforeToken (Some table) h 2%nat (Some 1%nat) defaultOptions
      <> Z.max 0 1
   /\ fst (printProgram onlyEndif asciiUpper asciiLower defaultOptions
             (programOf emptyCallTokens emptyCallBody))
      = DocGroup
          (DocConcat [DocConcat [DocString (lit "foo().")]; DocHardline]))
  /\ (let st :=
        applyClosingBracketsPosition
          (programOf brokenProductTokens brokenProductBody) in
      let h := tokenHeap st in
      let table := computeNeedlessSpacesOverrides h (body st) in
      hasFollowingLineBreak (h 4%nat) = true
      /\ table !! 5%nat = Some 1
      /\ needsSpaceBefore (h 5%nat) (Some (h 4%nat)) defaultOptions = true
      /\ fst (printProgram onlyEndif asciiUpper asciiLower defaultOptions
                (programOf brokenProductTokens brokenProductBody))
         = DocGroup
             (DocConcat
                [DocConcat
                   [DocString (lit "a =(1 )"); DocHardline;
                    DocString (lit "        * 2.")];
                 DocHardline])).
Proof. vm_compute. repeat split; (reflexivity || discriminate). Qed.

Variable KEYWORDS : jsstring -> bool.
Variable toUpperCase toLowerCase : jsstring -> jsstring.

(** [C1] (as amended) For every token that has an entry in the
    needless-spaces override table and that is appended to a line already
    begun, the renderer trims the line's trailing white space and emits
    exactly [max override ruleMinimum] spaces before the token when the
    override is at least 1, and emits no space when the override is 0;
    this in the token loop of a statement and in that of a chain entry
    alike.  An override written for a member of an alignment run is never
    more than the member's spacing, and for a run on a raw column it is
    at least 1.  In the table that the compressor returns for a program,
    an override is 0 for the closing bracket of an empty pair of
    brackets; every other override belongs to a recorded, non-leading
    position of its token, is not more than the spacing recorded there
    (the gap between the token's start column and the end of the token
    before it), and is at least 1, the mandatory separating space;
    only for the members of the runs on derived columns is no lower
    bound stated. *)
Theorem override_is_emitted_and_bounded :
  (forall (table : gmap tokref Z) h statement options indent ls token
          override,
      table !! token = Some override ->
      atLineStart ls = false ->
      renderToken KEYWORDS toUpperCase toLowerCase (h token) options <> [] ->
      let text :=
        renderToken KEYWORDS toUpperCase toLowerCase (h token) options in
      let after :=
        printToken KEYWORDS toUpperCase toLowerCase (Some table) h statement
          options indent ls token in
      (1 <= override ->
       builtLine (h token) ls after
         (trimEnd (currentLine ls)
          ++ spaces (Z.max override
                       (ruleMinimum h token (Printer.previous ls) options))
          ++ text))
      /\ (override <= 0 ->
          builtLine (h token) ls after (currentLine ls ++ text)))
  /\ (forall (table : gmap tokref Z) h options result previous token override,
        table !! token = Some override ->
        result <> [] ->
        renderToken KEYWORDS toUpperCase toLowerCase (h token) options <> [] ->
        let text :=
          renderToken KEYWORDS toUpperCase toLowerCase (h token) options in
        let out :=
          fst (renderSequenceToken KEYWORDS toUpperCase toLowerCase
                 (Some table) h options (result, previous) token) in
        (1 <= override ->
         out = trimEnd result
               ++ spaces (Z.max override
                            (ruleMinimum h token previous options))
               ++ text)
        /\ (override <= 0 ->
            out = (if isPunctuationToken (h token)
                   then trimEnd result else result) ++ text))
  /\ (forall tokenPosList startIndex endIndex isSpecialAlignment tb t v,
        overrides (processSequence tokenPosList startIndex endIndex
                     isSpecialAlignment tb) !! t = Some v ->
        overrides tb !! t = Some v
        \/ exists m,
             m ∈ runMembers tokenPosList startIndex endIndex
             /\ NeedlessSpacesRule.token m = t /\ isFirstInLine m = false
             /\ 0 <= v <= Z.max 0 (spacesLeft m)
             /\ (isSpecialAlignment = false -> 1 <= v))
  /\ (forall h statements t v,
        computeNeedlessSpacesOverrides h statements !! t = Some v ->
        (isEmptyBracketCloser h statements t = true /\ v = 0)
        \/ (isEmptyBracketCloser h statements t = false
            /\ exists m,
                 m ∈ collectedTokens (collectTokenPositions h statements)
                 /\ NeedlessSpacesRule.token m = t
                 /\ isFirstInLine m = false
                 /\ 0 <= v <= spacesLeft m
                 /\ spacesLeft m
                    = Z.max 0 (Z.max 0 (Types.startColumn (loc (h t)))
                               - prevEndColumn m - 1)
                 /\ (1 <= v \/ t ∈ derivedRunTokens h statements))).
Proof.
  assert (Hcount : forall (table : gmap tokref Z) h token previous options
                          override,
            table !! token = Some override ->
            getSpacesBeforeToken (Some table) h token previous options
            = override).
  { intros table h token previous options override H.
    unfold getSpacesBeforeToken. cbn [mbind option_bind]. by rewrite H. }
  assert (Hmax : forall h token previous options override,
            1 <= override ->
            Z.max override (ruleMinimum h token previous options) = override).
  { intros h token previous options override H. unfold ruleMinimum.
    destruct (needsSpaceBefore _ _ _); lia. }
  split_and!.
  - intros table h statement options indent ls token override Hentry Hmid
      Hink text after.
    destruct (printToken_line KEYWORDS toUpperCase toLowerCase (Some table) h
                statement options indent ls token Hmid Hink) as [Hpos Hzero].
    rewrite (Hcount _ _ _ _ _ _ Hentry) in Hpos, Hzero.
    split; intros Ho.
    + rewrite Hmax by done. apply Hpos. lia.
    + by apply Hzero.
  - intros table h options result previous token override Hentry Hresult
      Hink text out.
    destruct (renderSequenceToken_line KEYWORDS toUpperCase toLowerCase
                (Some table) h options result previous token Hresult Hink)
      as [Hpos Hzero].
    rewrite (Hcount _ _ _ _ _ _ Hentry) in Hpos, Hzero.
    split; intros Ho.
    + rewrite Hmax by done. apply Hpos. lia.
    + by apply Hzero.
  - intros l s e special tb t v H.
    apply processSequence_lookup in H as [H|(m & spare & H)]; [by left|].
    cbn zeta in H. destruct H as (Hin & Ht & He & Hs & Hpos & Hv).
    right. exists m. unfold receivesOverride in He.
    destruct (isFirstInLine m) eqn:Ef; [by rewrite andb_false_r in He|].
    repeat split; [done..|lia|lia|].
    intros ->. pose proof (runSpacesToSpare_le _ _ _ _ _ Hs Hin) as Hle.
    unfold testSpacesToSpare in Hle. lia.
  - intros h statements t v H.
    by apply computeNeedlessSpacesOverrides_spaced.
Qed.

End OverrideClaims.

(** ** The fallback path *)
Section Fallback.
Import ClosingBracketsPositionRule Printer Parser Examples.
Local Open Scope Z_scope.

(** [C6] (the code at the failing input) The tokenizer fails on a
    document whose only line is [  endif]; the parser falls back, and the
    formatted output is not the trimmed line [endif]: the fallback token
    has the role of a word, so the printer applies the keyword case to it
    and prints [ENDIF]. *)
Lemma fallback_recases_keyword_line :
  fst (printProgram onlyEndif asciiUpper asciiLower defaultOptions
         (parseAbap_fallback asciiUpper (lit "  endif") ParseThrows))
  = DocGroup (DocConcat [DocConcat [DocString (lit "ENDIF")]; DocHardline])
  /\ passThrough (lit "  endif")
     = DocGroup (DocConcat [DocConcat [DocString (lit "endif")]; DocHardline]).
Proof. vm_compute. split; reflexivity. Qed.

(** *** Trimming *)

Lemma dropWhile_idem {A} (p : A -> bool) (l : list A) :
  dropWhile p (dropWhile p l) = dropWhile p l.
Proof.
  induction l as [|x r IH]; simpl; [done|].
  destruct (p x) eqn:E; [done|]. simpl. by rewrite E.
Qed.

Lemma dropWhile_snoc {A} (p : A -> bool) (l : list A) (c : A) :
  dropWhile p (l ++ [c])
  = match dropWhile p l with
    | [] => dropWhile p [c]
    | d => d ++ [c]
    end.
Proof.
  induction l as [|x r IH]; simpl; [done|]. destruct (p x); [done|]. done.
Qed.

Lemma trimEnd_idem (s : jsstring) : trimEnd (trimEnd s) = trimEnd s.
Proof. unfold trimEnd. by rewrite rev_involutive, dropWhile_idem. Qed.

Lemma trimEnd_cons_keep (c : N) (s : jsstring) :
  isWhiteSpace c = false -> trimEnd (c :: s) = c :: trimEnd s.
Proof.
  intros Hc. unfold trimEnd. simpl rev. rewrite dropWhile_snoc.
  destruct (dropWhile isWhiteSpace (rev s)) as [|d ds]; simpl.
  - by rewrite Hc.
  - by rewrite rev_app_distr.
Qed.

Lemma trimStart_head (s : jsstring) :
  trimStart s = [] \/ exists c r, trimStart s = c :: r /\ isWhiteSpace c = false.
Proof.
  unfold trimStart. induction s as [|x r IH]; simpl; [by left|].
  destruct (isWhiteSpace x) eqn:E; [done|]. right. eauto.
Qed.

Lemma trimStart_trim (s : jsstring) : trimStart (trim s) = trim s.
Proof.
  unfold trim. destruct (trimStart_head s) as [->|(c & r & -> & Hc)];
    [done|].
  rewrite trimEnd_cons_keep by done. unfold trimStart. simpl. by rewrite Hc.
Qed.

Lemma trim_idem (s : jsstring) : trim (trim s) = trim s.
Proof.
  unfold trim at 1. rewrite trimStart_trim. unfold trim. apply trimEnd_idem.
Qed.

(** *** The passes on a fallback program *)

Lemma mergeAt_untouched touched st i :
  i ∉ touched -> mergeAt touched st i = st.
Proof.
  intros H. unfold mergeAt.
  destruct (body st !! i); [|done]. destruct (body st !! S i); [|done].
  by rewrite (bool_decide_eq_false_2 _ H).
Qed.

Lemma mergeTrailingComments_untouched st :
  mergeTrailingComments ∅ st = st.
Proof.
  unfold mergeTrailingComments.
  generalize (seq 0 (length (body st) - 1)). intros l.
  induction l as [|i r IH]; cbn [fold_left]; [done|].
  by rewrite mergeAt_untouched by set_solver.
Qed.

(** Statements of at most one token and without a chain are left alone by
    the repositioning loop. *)
Lemma reposition_single_tokens h b (l : list (nat * AbapStatement)) :
  Forall (fun ix => (length (tokens ix.2) < 2)%nat /\ chain ix.2 = None) l ->
  fold_left repositionStatement l
    ({| tokenHeap := h; body := b; postComments := ∅ |}, ∅)
  = ({| tokenHeap := h; body := b; postComments := ∅ |}, ∅).
Proof.
  induction 1 as [|[i s] r [Hlen Hchain] _ IH]; cbn [fold_left]; [done|].
  unfold repositionStatement at 2. cbn [tokenHeap body postComments].
  unfold adjustClosingBracketsInTokens.
  cbn [snd] in Hlen, Hchain.
  rewrite (bool_decide_eq_true_2 _ Hlen), Hchain, delete_empty. exact IH.
Qed.

Section WithRuntime.

Variable KEYWORDS : jsstring -> bool.
Variable toUpperCase toLowerCase : jsstring -> jsstring.
Variable options : AbapPluginOptions.

Lemma fallbackStatement_tokens (lineOffsets : list Z) index line :
  (length (tokens (fallbackStatement lineOffsets index line)) < 2)%nat
  /\ chain (fallbackStatement lineOffsets index line) = None.
Proof.
  unfold fallbackStatement. cbn [tokens chain].
  destruct (eqb (trim line) []); simpl; split; (lia || done).
Qed.

Lemma applyClosingBracketsPosition_fallback (lineOffsets : list Z) text :
  applyClosingBracketsPosition (buildFallbackAst toUpperCase text lineOffsets)
  = buildFallbackAst toUpperCase text lineOffsets.
Proof.
  unfold applyClosingBracketsPosition, buildFallbackAst.
  cbn [body]. case_bool_decide; [done|].
  rewrite reposition_single_tokens.
  - apply mergeTrailingComments_untouched.
  - apply Forall_forall. intros [i s] Hin.
    apply list_elem_of_lookup in Hin as [j Hj].
    rewrite list_lookup_imap in Hj.
    destruct (imap _ _ !! j) as [s'|] eqn:E; [|done].
    rewrite list_lookup_imap in E.
    destruct (splitLines text !! j) as [line|]; [|done].
    cbn in Hj, E. simplify_eq. apply fallbackStatement_tokens.
Qed.

(** A line that is not a keyword is printed trimmed, whatever the
    override table holds, and the store is left as it was. *)
Lemma printStatement_fallback (lineOffsets : list Z) active st index line :
  tokenHeap st index = fallbackToken toUpperCase lineOffsets index line ->
  postComments st = ∅ ->
  KEYWORDS (toUpperCase (trim line)) = false ->
  printBodyStatement KEYWORDS toUpperCase toLowerCase active index
    (fallbackStatement lineOffsets index line) options st
  = (passThroughLine line, st).
Proof.
  intros Hheap Hpost Hkey.
  unfold printBodyStatement, passThroughLine, fallbackStatement.
  cbn [chain]. unfold printStatement.
  cbn [tokens trailingComment indentLevel sloc].
  destruct (eqb (trim line) []) eqn:Hempty; [reflexivity|].
  unfold eqb in Hempty. apply bool_decide_eq_false in Hempty.
  cbn [length fold_left andb bool_decide negb].
  rewrite (bool_decide_eq_false_2 (1%nat = 0%nat)) by done. cbn [andb].
  unfold printToken. rewrite Hheap.
  assert (Hrender : renderToken KEYWORDS toUpperCase toLowerCase
                      (fallbackToken toUpperCase lineOffsets index line) options
                    = trim line).
  { unfold renderToken, applyKeywordCase, fallbackToken.
    cbn [role upper text]. rewrite Hkey. done. }
  rewrite Hrender.
  assert (Hlen : length (trim line) <> 0%nat) by by destruct (trim line).
  rewrite (bool_decide_eq_false_2 _ Hlen).
  cbn [atLineStart currentLine lines lineMetas currentLineStartLine
       fallbackToken fallbackLoc loc hasFollowingLineBreak startColumn].
  rewrite (bool_decide_eq_true_2 (0 >= 0)) by lia.
  replace (0 * Z.max 1 (default 2 (tabWidth options))) with 0 by lia.
  rewrite (bool_decide_eq_false_2 (Z.max 0 (0 - 0) > 0)) by lia.
  change (spaces 0) with (@nil N). cbn [app].
  rewrite trim_idem.
  rewrite (bool_decide_eq_true_2 (0 < length (trim line))%nat) by lia.
  unfold takePostComment. rewrite Hpost, lookup_empty.
  cbn [app mapLast length]. cbn.
  unfold trim. rewrite !trimEnd_idem. done.
Qed.

(** The printing loop over the fallback statements of the lines [ls],
    which are the lines from index [k] on. *)
Lemma printProgramStep_fallback (lineOffsets : list Z) active
    (ls : list jsstring) :
  forall (k : nat) docs prev st,
    postComments st = ∅ ->
    (forall j l, ls !! j = Some l ->
       tokenHeap st (k + j)%nat
       = fallbackToken toUpperCase lineOffsets (k + j) l
       /\ KEYWORDS (toUpperCase (trim l)) = false) ->
    match prev with
    | None => True
    | Some p => endLine (sloc p) = Z.of_nat k
    end ->
    exists prev',
      fold_left (printProgramStep KEYWORDS toUpperCase toLowerCase active options)
        (imap (fun j l => ((k + j)%nat,
                           fallbackStatement lineOffsets (k + j) l)) ls)
        (docs, prev, st)
      = (docs
         ++ match prev with
            | None => passThroughDocs ls
            | Some _ =>
                flat_map (fun l => [DocHardline; passThroughLine l]) ls
            end,
         prev', st).
Proof.
  induction ls as [|l r IH]; intros k docs prev st Hpost Hlines Hprev.
  - exists prev. cbn. destruct prev; by rewrite app_nil_r.
  - rewrite imap_cons. cbn [fold_left]. rewrite Nat.add_0_r.
    destruct (Hlines 0%nat l eq_refl) as [Hheap Hkey].
    rewrite Nat.add_0_r in Hheap.
    unfold printProgramStep at 2.
    rewrite (printStatement_fallback lineOffsets active st k l Hheap Hpost Hkey).
    set (gapLines := match prev with
                     | None => []
                     | Some p => replicate _ DocHardline
                     end).
    destruct (IH (S k) (docs ++ gapLines ++ [passThroughLine l])
                (Some (fallbackStatement lineOffsets k l)) st Hpost)
      as [prev' Hfold].
    + intros j l' Hj. replace (S k + j)%nat with (k + S j)%nat by lia.
      by apply Hlines.
    + cbn. lia.
    + exists prev'.
      rewrite (imap_ext _ (fun j l0 => ((S k + j)%nat,
                             fallbackStatement lineOffsets (S k + j) l0)))
        by (intros j x _; cbn;
            by replace (k + S j)%nat with (S (k + j))%nat by lia).
      rewrite Hfold. f_equal. f_equal. subst gapLines.
      destruct prev as [p|]; cbn [passThroughDocs flat_map].
      * replace (Z.to_nat _) with 1%nat by (cbn; lia).
        cbn. by rewrite <- !app_assoc.
      * cbn. by rewrite <- !app_assoc.
Qed.

(** [X29] On every document none of whose lines, trimmed and upper-cased, is a
    keyword, the fallback does what the spec says: the formatted output
    is the document passed through line by line with only whitespace
    trimming applied.  (A line that is a keyword is put into the keyword
    case, see [fallback_recases_keyword_line].) *)
Theorem fallback_passes_other_lines_through source failure :
  (forall line, line ∈ splitLines (normalizeNewlines source) ->
                KEYWORDS (toUpperCase (trim line)) = false) ->
  fst (printProgram KEYWORDS toUpperCase toLowerCase options
         (parseAbap_fallback toUpperCase source failure))
  = passThrough source.
Proof.
  intros Hkey. unfold parseAbap_fallback, passThrough.
  set (text := normalizeNewlines source) in *.
  set (lo := buildLineOffsets text).
  unfold printProgram.
  assert (Hlen : length (body (buildFallbackAst toUpperCase text lo)) <> 0%nat).
  { unfold buildFallbackAst. cbn [body]. rewrite length_imap.
    by destruct text; simpl; repeat case_match. }
  rewrite (bool_decide_eq_false_2 _ Hlen).
  cbv zeta. rewrite applyClosingBracketsPosition_fallback.
  set (st0 := buildFallbackAst toUpperCase text lo).
  set (active := Some _).
  assert (Hpairs :
            imap pair (body st0)
            = imap (fun j l => ((0 + j)%nat, fallbackStatement lo (0 + j) l))
                (splitLines text)).
  { unfold st0, buildFallbackAst. cbn [body]. apply list_eq. intros i.
    rewrite !list_lookup_imap. by destruct (splitLines text !! i). }
  rewrite Hpairs.
  destruct (printProgramStep_fallback lo active (splitLines text) 0 [] None st0)
    as [prev' Hfold]; [done| |done|].
  - intros j l Hj. split.
    + subst st0. unfold buildFallbackAst. cbn [tokenHeap].
      rewrite Nat.add_0_l. f_equal.
      exact (f_equal (default []) Hj).
    + apply Hkey. by eapply list_elem_of_lookup_2.
  - rewrite Hfold. reflexivity.
Qed.

End WithRuntime.

End Fallback.

(** ** The theorems at concrete inputs *)
Section Witnesses.
Import Abaplint IndentRule ClosingBracketsPositionRule NeedlessSpacesRule.
Import SpaceBeforePeriodRule Printer Examples.
Import SpacingPredicates SpacingExamples.
Local Open Scope Z_scope.

Lemma indent_after_increments_depth_witness :
  selectLoopProgram !! 0%nat = Some (nodeAt Statements.Select 1)
  /\ matches Statements.Select INDENT_AFTER = true
  /\ depth (indentLoop selectLoopProgram (take 1 selectLoopProgram)) = 1.
Proof.
  split; [reflexivity|split; [reflexivity|]].
  pose proof (indent_after_increments_depth selectLoopProgram 0
                (nodeAt Statements.Select 1) _
                eq_refl eq_refl eq_refl eq_refl) as H.
  cbv zeta in H. destruct H as (_ & H & _). exact H.
Defined.

Lemma merge_pass_pair_witness :
  extractCommentParts spacedPseudoComment
  = Some {| pvalue := lit "#EC NEEDED"; isPseudo := true |}
  /\ postComments (mergeAt {[0%nat]} callProgramRepositioned 0) !! 0%nat
     = Some spacedPseudoComment.
Proof.
  split; [reflexivity|].
  pose proof (merge_pass_pair {[0%nat]} callProgramRepositioned 0 _ _
                spacedPseudoComment _
                eq_refl eq_refl ltac:(set_solver) eq_refl eq_refl eq_refl
                eq_refl) as H.
  cbv zeta in H. destruct H as (_ & _ & H).
  exact (proj1 H).
Defined.

Lemma parenthesis_spacing_witness :
  let h := heapOf emptyCallTokens in
  trim (text (h 1%nat)) = lit "("
  /\ getSpacesBeforeToken None h 1%nat (Some 0%nat) defaultOptions = 0
  /\ fst (renderSequenceToken (fun _ => false) asciiUpper asciiLower None h
            defaultOptions (lit "foo", Some 0%nat) 1%nat)
     = lit "foo("
  /\ trim (text (h 2%nat)) = lit ")"
  /\ 1 <= getSpacesBeforeToken None h 2%nat (Some 1%nat) defaultOptions
  /\ exists n, 1 <= n
       /\ fst (renderSequenceToken (fun _ => false) asciiUpper asciiLower None
                 h defaultOptions (lit "foo(", Some 1%nat) 2%nat)
          = lit "foo(" ++ spaces n ++ lit ")".
Proof.
  intros h.
  pose proof (parenthesis_spacing (fun _ => false) asciiUpper asciiLower
                h 1%nat 0%nat defaultOptions None eq_refl) as (Hopen & _).
  pose proof (parenthesis_spacing (fun _ => false) asciiUpper asciiLower
                h 2%nat 1%nat defaultOptions None eq_refl) as (_ & Hclose & _).
  destruct (Hopen eq_refl) as (_ & Hcount & _ & Hseq).
  destruct (Hclose eq_refl) as (_ & Hcount' & _ & Hseq').
  split_and!; [reflexivity|exact Hcount| |reflexivity|exact Hcount'|].
  - exact (Hseq (lit "foo") ltac:(discriminate) ltac:(discriminate)).
  - exact (Hseq' (lit "foo(") ltac:(discriminate) ltac:(discriminate)).
Defined.

Lemma short_run_is_discarded_witness :
  (1 - 0 < 2)%nat
  /\ processSequence columnRun 0 1 false noTables = noTables.
Proof.
  split; [lia|].
  apply (proj1 (short_run_is_discarded columnRun 0 1 false noTables
                  ltac:(lia))).
Defined.

(** The run [bar], [baz], [qux] at the raw column 10: the least slack is
    that of [bar], 6 less one. *)
Lemma spare_is_least_slack_and_gates_the_run_witness :
  Forall (fun m => 0 <= spacesLeft m) (runMembers columnRun 0 3)
  /\ runSpacesToSpare false 0 (runMembers columnRun 0 3)
     = leastSlack (map slackBeyondMandatorySpace (runMembers columnRun 0 3))
  /\ leastSlack (map slackBeyondMandatorySpace (runMembers columnRun 0 3))
     = Some 5.
Proof.
  assert (Hspacing : Forall (fun m => 0 <= spacesLeft m)
                       (runMembers columnRun 0 3)).
  { vm_compute. repeat constructor; discriminate. }
  split; [exact Hspacing|]. split; [|reflexivity].
  pose proof (spare_is_least_slack_and_gates_the_run columnRun 0 3 false
                noTables) as H.
  cbv zeta in H. destruct H as (H & _ & _).
  exact (H eq_refl Hspacing).
Defined.

Lemma override_is_emitted_and_bounded_witness :
  let h := heapOf emptyCallTokens in
  let table := computeNeedlessSpacesOverrides h emptyCallBody in
  table !! 2%nat = Some 0
  /\ fst (renderSequenceToken onlyEndif asciiUpper asciiLower (Some table) h
            defaultOptions (lit "foo(", Some 1%nat) 2%nat)
     = lit "foo()"
  /\ isEmptyBracketCloser h emptyCallBody 2%nat = true.
Proof.
  intros h table.
  assert (Hentry : table !! 2%nat = Some 0) by reflexivity.
  split; [exact Hentry|]. split; [|reflexivity].
  pose proof (override_is_emitted_and_bounded onlyEndif asciiUpper asciiLower)
    as (_ & Hseq & _).
  exact (proj2 (Hseq table h defaultOptions (lit "foo(") (Some 1%nat) 2%nat 0
                  Hentry ltac:(discriminate) ltac:(discriminate))
               ltac:(lia)).
Defined.

End Witnesses.

(** ** The repository's test cases, run on the embedding *)
Section Regression.
Import Abaplint IndentRule SpaceAroundCommentSignRule Printer Examples.

(** [IndentRule.test.ts], "select-non-block": a select without
    [ENDSELECT] adds no indentation; a select loop does. *)
Example indent_select_loop :
  computeIndentationLevels selectLoopProgram = [0; 1; 0]%Z.
Proof. reflexivity. Qed.

Example indent_select_single :
  computeIndentationLevels selectSingleProgram = [0; 0]%Z.
Proof. reflexivity. Qed.

Example indent_nested_blocks :
  computeIndentationLevels
    [ nodeAt Statements.MethodImplementation 1; nodeAt Statements.If 2;
      nodeAt Statements.Other 3; nodeAt Statements.Else 4;
      nodeAt Statements.Other 5; nodeAt Statements.EndIf 6;
      nodeAt Statements.EndMethod 7 ]
  = [0; 1; 2; 1; 2; 1; 0]%Z.
Proof. reflexivity. Qed.

(** [SpaceAroundCommentSignRule]: a space is put after the sign when a
    letter or digit follows it; a pseudo-comment is left alone. *)
Example comment_sign_space_inserted :
  formatCommentValue (dquote ++ lit "Comment signs") defaultOptions
  = dquote ++ lit " Comment signs".
Proof. reflexivity. Qed.

Example comment_sign_pseudo_comment_kept :
  formatCommentValue (dquote ++ lit "#EC NEEDED") defaultOptions
  = dquote ++ lit "#EC NEEDED".
Proof. reflexivity. Qed.

(** [ClosingBracketsPositionRule.test.ts], "parameter list with
    conflicting comments". *)
Example closing_bracket_conflicting_comments :
  firstStatementLines
    (fst (printProgram onlyEndif asciiUpper asciiLower defaultOptions
            (callProgramWith conflictingComment)))
  = [ lit "  any_operation(iv_param = 1 ). " ++ dquote
      ++ lit " comment; conflicting comment" ].
Proof. vm_compute. reflexivity. Qed.

(** "parameter list with comment and pseudo comment unchanged". *)
Example closing_bracket_pseudo_comment :
  firstStatementLines
    (fst (printProgram onlyEndif asciiUpper asciiLower defaultOptions
            (callProgramWith pseudoComment)))
  = [ lit "  any_operation(iv_param = 1 ) " ++ dquote ++ lit " comment";
      lit "                . " ++ dquote ++ lit "#EC NEEDED" ].
Proof. vm_compute. reflexivity. Qed.

(** The printer on [foo(  ).] and on the tokens of what it printed: the
    empty-bracket override takes the spaces out, and without them no
    override is written and the base rule puts its one space back. *)
Example empty_call_printed :
  firstStatementLines
    (fst (printProgram onlyEndif asciiUpper asciiLower defaultOptions
            (programOf emptyCallTokens emptyCallBody)))
  = [lit "foo()."].
Proof. vm_compute. reflexivity. Qed.

Example closed_call_printed :
  firstStatementLines
    (fst (printProgram onlyEndif asciiUpper asciiLower defaultOptions
            (programOf closedCallTokens closedCallBody)))
  = [lit "foo( )."].
Proof. vm_compute. reflexivity. Qed.

End Regression.

(** ** The indentation engine: shape of the result, bounds, blocks *)
Section IndentationExtras.
Import Abaplint IndentRule IndentPredicates.
Local Open Scope Z_scope.

(** The engine returns one level per statement. *)
Theorem computeIndentationLevels_length (statements : list StatementNode) :
  length (computeIndentationLevels statements) = length statements.
Proof.
  unfold computeIndentationLevels, indentLoop.
  rewrite fold_indentStep_length. reflexivity.
Qed.

Lemma findAlignmentTarget_depth statements startIndex currentDepth t d :
  findAlignmentTarget statements startIndex currentDepth = Some (t, d) ->
  d = currentDepth - 1 /\ 0 <= d.
Proof.
  unfold findAlignmentTarget. intros H.
  repeat (case_bool_decide || case_match); simplify_eq. lia.
Qed.

Lemma indentInvariant_push visited st s level newDepth alignDepth alignTarget :
  Forall2 levelFits visited (result st) ->
  levelFits s level -> 0 <= newDepth ->
  (forall d, alignDepth = Some d -> 0 <= d) ->
  indentInvariant (visited ++ [s])
    {| result := result st ++ [level]; depth := newDepth;
       activeAlignDepth := alignDepth; activeAlignTarget := alignTarget |}.
Proof.
  intros Hr Hl Hd Ha. split; [done|]. split; [done|]. cbn [result].
  apply Forall2_app; [done|]. by constructor.
Qed.

Lemma indentStep_invariant statements sb visited st s :
  indentInvariant visited st ->
  indentInvariant (visited ++ [s]) (indentStep statements sb st s).
Proof.
  intros (Hd & Ha & Hr). unfold indentStep.
  set (reached := match activeAlignTarget st with
                  | Some target => bool_decide (target <= length (result st))%nat
                  | None => false
                  end).
  assert (Ha' : forall d, (if reached then None else activeAlignDepth st)
                          = Some d -> 0 <= d).
  { intros d. destruct reached; [done|]. apply Ha. }
  fold (isSynthetic s).
  destruct (isSynthetic s) eqn:Esyn.
  - apply indentInvariant_push; try done. unfold levelFits. by rewrite Esyn.
  - set (depth1 := if matches (get s) DEDENT_BEFORE
                      || matches (get s) MIDDLE_KEYWORDS
                   then Z.max (depth st - 1) 0 else depth st).
    assert (Hd1 : 0 <= depth1) by (subst depth1; destruct (_ || _); lia).
    set (newDepth := if matches (get s) INDENT_AFTER && _
                     then depth1 + 1 else depth1).
    assert (Hnd : 0 <= newDepth) by (subst newDepth; destruct (_ && _); lia).
    assert (Hfit : forall l, 0 <= l -> levelFits s l).
    { intros l Hl. unfold levelFits. by rewrite Esyn. }
    destruct (if reached then None else activeAlignDepth st) as [d|] eqn:Ead.
    + apply indentInvariant_push; try done. apply Hfit. by apply Ha'.
    + destruct (isStandaloneComment s).
      * destruct (findAlignmentTarget statements (length (result st)) depth1)
          as [[t d]|] eqn:Ef.
        -- apply findAlignmentTarget_depth in Ef as [_ Hdpos].
           apply indentInvariant_push; try done; [by apply Hfit|].
           intros d' Hd'. by simplify_eq.
        -- apply indentInvariant_push; try done. by apply Hfit.
      * apply indentInvariant_push; try done. by apply Hfit.
Qed.

Lemma indentLoop_invariant statements visited :
  indentInvariant visited (indentLoop statements visited).
Proof.
  unfold indentLoop.
  induction visited as [|s r IH] using rev_ind.
  - repeat split; cbn; try lia; [done|constructor].
  - rewrite fold_left_app. cbn [fold_left]. by apply indentStep_invariant.
Qed.

Lemma indentStep_depth statements sb st s :
  depth (indentStep statements sb st s)
  = if isSynthetic s then depth st
    else if matches (get s) INDENT_AFTER
            && (negb (isSelect (get s))
                || bool_decide (length (result st) ∈ sb))
         then depthAfterDedent s (depth st) + 1
         else depthAfterDedent s (depth st).
Proof.
  unfold indentStep. fold (isSynthetic s).
  destruct (isSynthetic s); [done|]. unfold depthAfterDedent.
  repeat (case_match; cbn [depth]); done.
Qed.

Lemma indentLoop_app statements visited s :
  indentLoop statements (visited ++ [s])
  = indentStep statements (findSelectBlocks statements)
      (indentLoop statements visited) s.
Proof. unfold indentLoop. by rewrite fold_left_app. Qed.

Lemma DEDENT_BEFORE_not_INDENT_AFTER k :
  matches k DEDENT_BEFORE = true -> matches k INDENT_AFTER = false.
Proof. destruct k; vm_compute; congruence. Qed.

Lemma terminator_is_no_select k :
  matches k DEDENT_BEFORE || matches k MIDDLE_KEYWORDS = true ->
  isSelect k = false.
Proof. destruct k; vm_compute; congruence. Qed.

(** [X1] The depth is never negative, however many terminators the
    program has.  A block terminator met at depth 0 leaves the depth at
    0.  A middle keyword met at depth 0 leaves it at 0 as well, unless the
    keyword also opens a block (ELSE, ELSEIF, CATCH, CLEANUP): then the
    depth is 1 after it. *)
Theorem depth_never_negative (statements visited : list StatementNode) :
  0 <= depth (indentLoop statements visited)
  /\ (forall s,
        matches (get s) DEDENT_BEFORE = true ->
        depth (indentLoop statements visited) = 0 ->
        depth (indentLoop statements (visited ++ [s])) = 0)
  /\ (forall s,
        isSynthetic s = false ->
        matches (get s) MIDDLE_KEYWORDS = true ->
        depth (indentLoop statements visited) = 0 ->
        depth (indentLoop statements (visited ++ [s]))
        = if matches (get s) [Statements.Else; Statements.ElseIf;
                              Statements.Catch; Statements.Cleanup]
          then 1 else 0).
Proof.
  split_and!.
  - apply indentLoop_invariant.
  - intros s Hs Hd.
    rewrite indentLoop_app, indentStep_depth, Hd.
    destruct (isSynthetic s); [done|].
    rewrite (DEDENT_BEFORE_not_INDENT_AFTER _ Hs). cbn [andb].
    unfold depthAfterDedent. rewrite Hs. reflexivity.
  - intros s Hsyn Hs Hd.
    rewrite indentLoop_app, indentStep_depth, Hd, Hsyn.
    rewrite terminator_is_no_select by (rewrite Hs; apply orb_true_r).
    cbn [negb orb]. rewrite andb_true_r.
    unfold depthAfterDedent. rewrite Hs, orb_true_r.
    destruct (get s); vm_compute in Hs |- *; congruence.
Qed.

(** [X2] In the result, a statement has the sentinel [-1] exactly when it is
    synthetic; every other statement has a level that is not negative. *)
Theorem level_is_sentinel_or_nonnegative
    (statements : list StatementNode) (i : nat) (s : StatementNode) :
  statements !! i = Some s ->
  exists level,
    computeIndentationLevels statements !! i = Some level
    /\ (isSynthetic s = true -> level = KEEP_EXISTING_INDENT)
    /\ (isSynthetic s = false -> 0 <= level).
Proof.
  intros Hi. unfold computeIndentationLevels.
  destruct (indentLoop_invariant statements statements) as (_ & _ & Hr).
  destruct (Forall2_lookup_l _ _ _ _ _ Hr Hi) as (level & Hl & Hfit).
  exists level. split; [done|]. unfold levelFits in Hfit.
  destruct (isSynthetic s); split; (done || intros; done).
Qed.

Lemma plain_statements_keep_depth statements body : forall visited,
  Forall (fun s => isPlain s = true) body ->
  depth (indentLoop statements (visited ++ body))
  = depth (indentLoop statements visited).
Proof.
  induction body as [|s r IH] using rev_ind; intros visited Hplain.
  - by rewrite app_nil_r.
  - apply Forall_app in Hplain as [Hr Hs]. rewrite Forall_singleton in Hs.
    rewrite app_assoc, indentLoop_app, indentStep_depth, (IH _ Hr).
    unfold isPlain in Hs. unfold depthAfterDedent.
    destruct (isSynthetic s); [done|].
    destruct (matches (get s) DEDENT_BEFORE); [done|].
    destruct (matches (get s) MIDDLE_KEYWORDS); [done|].
    destruct (matches (get s) INDENT_AFTER); done.
Qed.

(** [X3] A block opener followed by plain statements and by a block
    terminator: the statements of the block see the opener's depth plus
    one, and after the terminator the depth is the opener's again. *)
Theorem plain_block_restores_depth
    (statements visited : list StatementNode) (opener closer : StatementNode)
    (body : list StatementNode) :
  isSynthetic opener = false ->
  matches (get opener) INDENT_AFTER = true ->
  isSelect (get opener) = false ->
  Forall (fun s => isPlain s = true) body ->
  isSynthetic closer = false ->
  matches (get closer) DEDENT_BEFORE = true ->
  let d := depthAfterDedent opener (depth (indentLoop statements visited)) in
  (forall k,
      depth (indentLoop statements (visited ++ opener :: take k body)) = d + 1)
  /\ depth (indentLoop statements (visited ++ opener :: body ++ [closer])) = d.
Proof.
  intros Hso Hio Hsel Hbody Hsc Hdc d.
  assert (Hopen : depth (indentLoop statements (visited ++ [opener])) = d + 1).
  { rewrite indentLoop_app, indentStep_depth, Hso, Hio, Hsel. done. }
  assert (Hin : forall k,
             depth (indentLoop statements (visited ++ opener :: take k body))
             = d + 1).
  { intros k. rewrite (cons_middle opener), app_assoc.
    rewrite plain_statements_keep_depth; [done|].
    apply Forall_take. done. }
  split; [done|].
  rewrite (cons_middle opener), !app_assoc, indentLoop_app, indentStep_depth.
  rewrite Hsc, (DEDENT_BEFORE_not_INDENT_AFTER _ Hdc). cbn [andb].
  rewrite plain_statements_keep_depth by done.
  rewrite Hopen. unfold depthAfterDedent. rewrite Hdc. cbn [orb].
  pose proof (proj1 (indentLoop_invariant statements visited)) as Hn.
  subst d. unfold depthAfterDedent. destruct (_ || _); lia.
Qed.

Lemma skipAttachedComments_spec rest : forall prev cursor,
  let cursor' := skipAttachedComments prev rest cursor in
  (cursor <= cursor' <= cursor + length rest)%nat
  /\ forall j, (j < cursor' - cursor)%nat ->
       exists s, rest !! j = Some s /\ isStandaloneComment s = true
                 /\ hasBlankLineAbove s
                      (match j with O => prev | S j' => rest !! j' end)
                    = false.
Proof.
  induction rest as [|candidate rest' IH]; intros prev cursor; cbn zeta.
  - cbn. split; [lia|]. intros j Hj. lia.
  - cbn [skipAttachedComments length].
    destruct (isStandaloneComment candidate
              && negb (hasBlankLineAbove candidate prev)) eqn:E.
    + destruct (IH (Some candidate) (S cursor)) as [Hb Hc]. split; [lia|].
      intros [|j] Hj.
      * exists candidate. apply andb_true_iff in E as [E1 E2].
        apply negb_true_iff in E2. done.
      * destruct (Hc j ltac:(lia)) as (s & Hs & Hcom & Hbl).
        exists s. cbn. split; [done|]. split; [done|].
        destruct j; done.
    + split; [lia|]. intros j Hj. lia.
Qed.

(** [X4] When an alignment target is found for the comment at [startIndex]:
    the depth was positive and the alignment depth is one less; the
    comment has a blank line above it; the target comes later, is a
    middle keyword ([ELSE], [WHEN], [CATCH], ...), and everything between
    the two is a comment directly attached to the line before it. *)
Theorem findAlignmentTarget_found
    (statements : list StatementNode) (startIndex : nat) (currentDepth : Z)
    (t : nat) (d : Z) :
  findAlignmentTarget statements startIndex currentDepth = Some (t, d) ->
  0 < currentDepth /\ d = currentDepth - 1
  /\ (exists current,
        statements !! startIndex = Some current
        /\ hasBlankLineAbove current (before statements startIndex) = true)
  /\ (startIndex < t)%nat
  /\ (exists target,
        statements !! t = Some target
        /\ matches (get target) ALIGN_WITH_NEXT = true)
  /\ forall j, (startIndex < j < t)%nat ->
       exists s, statements !! j = Some s /\ isStandaloneComment s = true
                 /\ hasBlankLineAbove s (before statements j) = false.
Proof.
  unfold findAlignmentTarget. intros H.
  case_bool_decide as Hdepth; [done|].
  destruct (statements !! startIndex) as [current|] eqn:Ecur; [|done].
  destruct (hasBlankLineAbove current (before statements startIndex)) eqn:Ebl;
    [|done]. cbn [negb] in H.
  destruct (skipAttachedComments_spec (drop (S startIndex) statements)
              (Some current) (S startIndex)) as [Hb Hc].
  set (cursor := skipAttachedComments _ _ _) in *.
  destruct (statements !! cursor) as [target|] eqn:Et; [|done].
  destruct (matches (get target) ALIGN_WITH_NEXT) eqn:Em; [|done].
  cbn [negb] in H. simplify_eq.
  split; [lia|]. split; [lia|]. split; [eauto|]. split; [lia|].
  split; [eauto|].
  intros j Hj.
  destruct (Hc (j - S startIndex)%nat ltac:(lia)) as (s & Hs & Hcom & Hbl).
  rewrite lookup_drop in Hs.
  replace (S startIndex + (j - S startIndex))%nat with j in Hs by lia.
  exists s. split; [done|]. split; [done|].
  destruct j as [|j']; [lia|]. cbn [before].
  destruct (j' - startIndex)%nat as [|k] eqn:Ek.
  - assert (j' = startIndex) by lia. subst j'.
    replace (S startIndex - S startIndex)%nat with 0%nat in Hbl by lia.
    by rewrite Ecur.
  - replace (S j' - S startIndex)%nat with (S k) in Hbl by lia.
    rewrite lookup_drop in Hbl.
    replace (S startIndex + k)%nat with j' in Hbl by lia. done.
Qed.

Lemma hasMatchingEndSelect_later rest : forall pending,
  hasMatchingEndSelect pending rest = true ->
  exists j e, rest !! j = Some e /\ get e = Statements.EndSelect.
Proof.
  induction rest as [|s r IH]; intros pending H; cbn in H; [done|].
  destruct (isSelect (get s)).
  - destruct (IH _ H) as (j & e & Hj & He). by exists (S j), e.
  - case_bool_decide as Hend.
    + by exists 0%nat, s.
    + destruct (IH _ H) as (j & e & Hj & He). by exists (S j), e.
Qed.

(** [X5] The pre-pass marks optional-block openers only: an index in its
    result is the index of a [SELECT] statement of the program, and an
    [ENDSELECT] follows it. *)
Theorem findSelectBlocks_marks_closed_selects
    (statements : list StatementNode) (i : nat) :
  i ∈ findSelectBlocks statements ->
  exists s j e,
    statements !! i = Some s /\ isSelect (get s) = true
    /\ (i < j)%nat /\ statements !! j = Some e
    /\ get e = Statements.EndSelect.
Proof.
  unfold findSelectBlocks. rewrite findSelectBlocks_loop_spec.
  intros [H|[(k & Hk & _)|(j & s & Hj & Hs & E & Hc)]]; [done..|].
  cbn in E. subst j.
  destruct (hasMatchingEndSelect_later _ _ Hc) as (j & e & Hj' & He).
  rewrite lookup_drop in Hj'.
  exists s, (S i + j)%nat, e. repeat split; [done..|lia|done|done].
Qed.

End IndentationExtras.

(** ** Closing-bracket repositioning: what it does to the break flags *)
Section BracketExtras.
Import ClosingBracketsPositionRule BracketPredicates.

(** One round either leaves the heap alone or reports a change. *)
Lemma adjustAt_changed tokens h changed index :
  adjustAt tokens (h, changed) index = (h, changed)
  \/ snd (adjustAt tokens (h, changed) index) = true.
Proof.
  unfold adjustAt.
  destruct (tokens !! index) as [current|]; [|by left].
  destruct (tokens !! (index - 1)) as [previous|]; [|by left].
  destruct (hasFollowingLineBreak (h previous)) eqn:Eb.
  - repeat (case_match; simplify_eq; cbn [snd]); auto.
  - unfold shouldAttach. rewrite Eb. cbn [negb].
    rewrite !andb_false_r. cbn. by left.
Qed.

Lemma fold_adjustAt_changed tokens indices : forall h changed,
  snd (fold_left (adjustAt tokens) indices (h, changed)) = false ->
  fold_left (adjustAt tokens) indices (h, changed) = (h, false).
Proof.
  induction indices as [|i r IH]; intros h changed H; cbn [fold_left] in *.
  - cbn in H. by subst.
  - destruct (adjustAt_changed tokens h changed i) as [E|E].
    + rewrite E in *. by apply IH.
    + destruct (adjustAt tokens (h, changed) i) as [h1 c1]. cbn in E. subst c1.
      exfalso. clear IH. revert h1 H.
      induction r as [|j r IHr]; intros h1 H; cbn [fold_left] in H; [done|].
      destruct (adjustAt_changed tokens h1 true j) as [E|E].
      * rewrite E in H. by eapply IHr.
      * destruct (adjustAt tokens (h1, true) j) as [h2 c2]. cbn in E.
        subst c2. by eapply IHr.
Qed.

(** The result of [adjustClosingBracketsInTokens] is honest: when it
    answers [false] no token was written. *)
Theorem adjust_reports_every_change (tokens : option (list tokref)) (h : heap) :
  snd (adjustClosingBracketsInTokens tokens h) = false ->
  fst (adjustClosingBracketsInTokens tokens h) = h.
Proof.
  unfold adjustClosingBracketsInTokens.
  destruct tokens as [tokens|]; [|done].
  case_bool_decide; [done|]. intros Hsnd.
  by rewrite (fold_adjustAt_changed _ _ _ _ Hsnd).
Qed.

(** One round writes the tokens at [index - 1] and [index] only. *)
Lemma adjustAt_other tokens h changed index r :
  tokens !! index <> Some r -> tokens !! (index - 1) <> Some r ->
  fst (adjustAt tokens (h, changed) index) r = h r.
Proof.
  intros Hc Hp. unfold adjustAt.
  destruct (tokens !! index) as [current|]; [|done].
  destruct (tokens !! (index - 1)) as [previous|]; [|done].
  assert (r <> current) by congruence. assert (r <> previous) by congruence.
  repeat (case_match; simplify_eq; cbn [fst]);
    unfold writeBreak; repeat case_decide; congruence.
Qed.

Lemma fold_adjustAt_other tokens indices r : forall h changed,
  (forall i, i ∈ indices ->
             tokens !! i <> Some r /\ tokens !! (i - 1) <> Some r) ->
  fst (fold_left (adjustAt tokens) indices (h, changed)) r = h r.
Proof.
  induction indices as [|i l IH]; intros h changed Hi; cbn [fold_left];
    [done|].
  destruct (Hi i (list_elem_of_here _ _)) as [H1 H2].
  pose proof (adjustAt_other tokens h changed i r H1 H2) as Hstep.
  destruct (adjustAt tokens (h, changed) i) as [h1 c1]. cbn [fst] in Hstep.
  rewrite IH; [done|]. intros j Hj. apply Hi. by apply list_elem_of_further.
Qed.

(** [X6] A token that is not in the list is not written. *)
Theorem adjust_writes_listed_tokens_only
    (tokens : list tokref) (h : heap) (r : tokref) :
  r ∉ tokens ->
  fst (adjustClosingBracketsInTokens (Some tokens) h) r = h r.
Proof.
  intros Hr. unfold adjustClosingBracketsInTokens.
  case_bool_decide; [done|].
  apply fold_adjustAt_other. intros i _.
  split; intros Hi; apply Hr; by eapply list_elem_of_lookup_2.
Qed.

Lemma joinsPair_sameButBreaks h h' previous current :
  sameButBreaks h h' -> joinsPair h' previous current = joinsPair h previous current.
Proof.
  intros H. unfold joinsPair, isClosingToken, isPeriodToken.
  rewrite (H previous), (H current). reflexivity.
Qed.

(** The round at a pair that the rule joins leaves the first token of
    the pair without a break flag. *)
Lemma adjustAt_joins tokens h changed i previous current :
  tokens !! S i = Some current -> tokens !! i = Some previous ->
  previous <> current ->
  joinsPair h previous current = true ->
  hasFollowingLineBreak (fst (adjustAt tokens (h, changed) (S i)) previous)
  = false.
Proof.
  intros Hc Hp Hne Hj. unfold adjustAt.
  replace (S i - 1) with i by lia. rewrite Hc, Hp.
  unfold joinsPair, isClosingToken, isPeriodToken in Hj.
  apply andb_true_iff in Hj as [Hrole Hj]. apply negb_true_iff in Hrole.
  unfold shouldAttach. rewrite Hrole.
  destruct (hasFollowingLineBreak (h previous)) eqn:Eb; cbn [negb].
  - assert (Hmove :
              negb (has CLOSING_TOKENS (simplify (text (h current))) && true)
              && negb (eqb (simplify (text (h current))) PERIOD && true
                       && has CLOSING_TOKENS (simplify (text (h previous))))
              = false).
    { apply orb_true_iff in Hj as [Hj|Hj].
      - by rewrite Hj.
      - apply andb_true_iff in Hj as [Hj1 Hj2]. rewrite Hj1, Hj2. cbn.
        by rewrite andb_false_r. }
    rewrite Hmove.
    assert (Hw : forall b, hasFollowingLineBreak
                   (writeBreak previous b h previous) = b).
    { intros b. unfold writeBreak. by rewrite decide_True. }
    assert (Hw2 : forall b (h0 : heap),
               hasFollowingLineBreak (writeBreak current b h0 previous)
               = hasFollowingLineBreak (h0 previous)).
    { intros b h0. unfold writeBreak. by rewrite decide_False. }
    repeat (case_match; simplify_eq; cbn [fst]); rewrite ?Hw2, ?Hw; done.
  - rewrite !andb_false_r. cbn. done.
Qed.

Lemma adjust_joins_every_pair
    (tokens : list tokref) (h : heap) (i : nat) (previous current : tokref) :
  NoDup tokens ->
  tokens !! i = Some previous -> tokens !! S i = Some current ->
  joinsPair h previous current = true ->
  hasFollowingLineBreak
    (fst (adjustClosingBracketsInTokens (Some tokens) h) previous) = false.
Proof.
  intros Hnd Hp Hc Hj. unfold adjustClosingBracketsInTokens.
  pose proof (lookup_lt_Some _ _ _ Hc) as Hlen.
  rewrite bool_decide_eq_false_2 by lia.
  replace (seq 1 (length tokens - 1))
    with (seq 1 i ++ [S i] ++ seq (S (S i)) (length tokens - 2 - i)).
  2:{ replace (length tokens - 1) with (i + (1 + (length tokens - 2 - i)))
        by lia.
      rewrite !seq_app. cbn. repeat f_equal; lia. }
  rewrite !fold_left_app. cbn [fold_left].
  pose proof (fold_adjustAt_frame tokens (seq 1 i) h false) as Hframe.
  destruct (fold_left (adjustAt tokens) (seq 1 i) (h, false)) as [h1 c1].
  cbn [fst] in Hframe.
  assert (Hne : previous <> current).
  { intros ->. pose proof (NoDup_lookup _ _ _ _ Hnd Hp Hc). lia. }
  pose proof (adjustAt_joins tokens h1 c1 i previous current Hc Hp Hne) as Hround.
  rewrite (joinsPair_sameButBreaks _ _ _ _ Hframe) in Hround.
  specialize (Hround Hj).
  destruct (adjustAt tokens (h1, c1) (S i)) as [h2 c2]. cbn [fst] in Hround.
  rewrite fold_adjustAt_other; [done|].
  intros j Hjin. apply elem_of_seq in Hjin.
  split; intros Hj'; pose proof (NoDup_lookup _ _ _ _ Hnd Hp Hj'); lia.
Qed.

Lemma adjustAt_nothing_to_join tokens h changed index :
  (forall previous current,
      tokens !! index = Some current -> tokens !! (index - 1) = Some previous ->
      joinsPair h previous current = true ->
      hasFollowingLineBreak (h previous) = false) ->
  adjustAt tokens (h, changed) index = (h, changed).
Proof.
  intros Hno. unfold adjustAt.
  destruct (tokens !! index) as [current|]; [|done].
  destruct (tokens !! (index - 1)) as [previous|]; [|done].
  specialize (Hno previous current eq_refl eq_refl).
  unfold joinsPair, isClosingToken, isPeriodToken in Hno.
  unfold shouldAttach.
  destruct (hasFollowingLineBreak (h previous)) eqn:Eb; cbn [negb];
    [|by rewrite !andb_false_r].
  destruct (bool_decide (role (h previous) = role_comment)) eqn:Er;
    [by rewrite !andb_false_r|].
  cbn [negb andb] in Hno.
  destruct (has CLOSING_TOKENS (simplify (text (h current)))) eqn:E1;
    [by specialize (Hno eq_refl)|].
  destruct (eqb (simplify (text (h current))) PERIOD) eqn:E2; [|done].
  destruct (has CLOSING_TOKENS (simplify (text (h previous)))) eqn:E3;
    [by specialize (Hno eq_refl)|]. done.
Qed.

(** [X7] After [adjustClosingBracketsInTokens] has run over a list of distinct
    tokens, no closing bracket follows a line break after a token that is
    not a comment, and no period follows a line break after a closing
    bracket: in every such pair the first token has no break flag. *)
Theorem adjust_leaves_no_break_before_closer
    (tokens : list tokref) (h : heap) (i : nat) (previous current : tokref) :
  NoDup tokens ->
  tokens !! i = Some previous -> tokens !! S i = Some current ->
  joinsPair h previous current = true ->
  hasFollowingLineBreak
    (fst (adjustClosingBracketsInTokens (Some tokens) h) previous) = false.
Proof. apply adjust_joins_every_pair. Qed.

(** [X8] Repositioning is idempotent on a list of distinct tokens: a second
    run finds nothing to move. *)
Theorem adjust_twice_changes_nothing (tokens : list tokref) (h : heap) :
  NoDup tokens ->
  let h' := fst (adjustClosingBracketsInTokens (Some tokens) h) in
  adjustClosingBracketsInTokens (Some tokens) h' = (h', false).
Proof.
  intros Hnd h'.
  assert (Hpost : forall i previous current,
             tokens !! i = Some previous -> tokens !! S i = Some current ->
             joinsPair h' previous current = true ->
             hasFollowingLineBreak (h' previous) = false).
  { intros i previous current Hp Hc Hj. subst h'.
    apply (adjust_joins_every_pair tokens h i previous current);
      try done.
    rewrite <- Hj. symmetry. apply joinsPair_sameButBreaks.
    apply (adjustClosingBracketsInTokens_frame (Some tokens) h). }
  unfold adjustClosingBracketsInTokens at 1.
  case_bool_decide; [done|].
  generalize false.
  assert (Hall : forall j, j ∈ seq 1 (length tokens - 1) -> (1 <= j)%nat).
  { intros j Hj. apply elem_of_seq in Hj. lia. }
  revert Hall. generalize (seq 1 (length tokens - 1)). intros indices.
  induction indices as [|j r IH]; intros Hall changed; cbn [fold_left];
    [done|].
  rewrite adjustAt_nothing_to_join.
  - apply IH. intros k Hk. apply Hall. by apply list_elem_of_further.
  - intros previous current Hc Hp Hj.
    pose proof (Hall j (list_elem_of_here _ _)) as Hj1.
    apply (Hpost (j - 1) previous current); [done| |done].
    by replace (S (j - 1)) with j by lia.
Qed.

Lemma adjust_no_breaks tokens (h : heap) :
  (forall r, hasFollowingLineBreak (h r) = false) ->
  adjustClosingBracketsInTokens tokens h = (h, false).
Proof.
  intros Hno. unfold adjustClosingBracketsInTokens.
  destruct tokens as [tokens|]; [|done]. case_bool_decide; [done|].
  generalize false. generalize (seq 1 (length tokens - 1)). intros indices.
  induction indices as [|j r IH]; intros changed; cbn [fold_left]; [done|].
  rewrite adjustAt_nothing_to_join; [apply IH|]. intros; apply Hno.
Qed.

Lemma adjustChainEntries_no_breaks entries (h : heap) :
  (forall r, hasFollowingLineBreak (h r) = false) ->
  adjustChainEntries entries h = h.
Proof.
  intros Hno. unfold adjustChainEntries.
  induction entries as [|e r IH]; cbn [fold_left]; [done|].
  destruct (etokens e); [|done]. by rewrite adjust_no_breaks.
Qed.

Lemma reposition_no_breaks (l : list (nat * AbapStatement)) : forall st,
  (forall r, hasFollowingLineBreak (tokenHeap st r) = false) ->
  exists pc,
    fold_left repositionStatement l (st, ∅)
    = ({| tokenHeap := tokenHeap st; body := body st; postComments := pc |},
       ∅).
Proof.
  induction l as [|[i s] r IH]; intros st Hno; cbn [fold_left].
  - exists (postComments st). by destruct st.
  - unfold repositionStatement at 2.
    rewrite adjust_no_breaks by done.
    assert (Hchain : match chain s with
                     | Some chain => adjustChainEntries (entries chain)
                                       (tokenHeap st)
                     | None => tokenHeap st
                     end = tokenHeap st).
    { destruct (chain s); [|done]. by apply adjustChainEntries_no_breaks. }
    rewrite Hchain.
    destruct (IH {| tokenHeap := tokenHeap st; body := body st;
                    postComments := delete i (postComments st) |} Hno)
      as [pc Hpc].
    exists pc. exact Hpc.
Qed.

(** [X9] A program none of whose tokens is followed by a line break is left
    as it is by the whole pass: no token and no statement is written
    (only the post-comment table is cleared). *)
Theorem no_breaks_nothing_repositioned (st : Store) :
  (forall r, hasFollowingLineBreak (tokenHeap st r) = false) ->
  tokenHeap (applyClosingBracketsPosition st) = tokenHeap st
  /\ body (applyClosingBracketsPosition st) = body st.
Proof.
  intros Hno. unfold applyClosingBracketsPosition.
  case_bool_decide; [done|].
  destruct (reposition_no_breaks (imap pair (body st)) st Hno) as [pc Hpc].
  rewrite Hpc, mergeTrailingComments_untouched. done.
Qed.

Lemma mergeAt_lookup_other touched st i j :
  i ∉ touched \/ (j <> i /\ j <> S i) ->
  body (mergeAt touched st i) !! j = body st !! j.
Proof.
  intros [Hi|[H1 H2]]; [by rewrite mergeAt_untouched|].
  unfold mergeAt.
  repeat (case_match; try done); cbn [body];
    rewrite ?list_lookup_insert_ne by done; done.
Qed.

(** [X10] The merge pass writes a statement only if it is touched or follows a
    touched statement: every other statement keeps its trailing
    comment. *)
Theorem merge_pass_leaves_other_statements
    (touched : gset nat) (st : Store) (j : nat) :
  j ∉ touched -> (forall i, S i = j -> i ∉ touched) ->
  body (mergeTrailingComments touched st) !! j = body st !! j.
Proof.
  intros Hj Hpred. unfold mergeTrailingComments.
  generalize (seq 0 (length (body st) - 1)). intros indices. revert st.
  induction indices as [|i r IH]; intros st; cbn [fold_left]; [done|].
  rewrite IH. apply mergeAt_lookup_other.
  destruct (decide (i ∈ touched)) as [Hi|Hi]; [|by left].
  right. split; [intros ->; done|]. intros ->. by apply (Hpred i).
Qed.

End BracketExtras.

(** ** The needless-spaces compressor: collection, order and the later passes *)
Section NeedlessExtras.
Import NeedlessSpacesRule NeedlessPredicates SpacingPredicates.
Local Open Scope Z_scope.

Lemma collectToken_collected h n c previous (r : tokref) :
  exists tp,
    collectToken h n (c, previous) r
    = (Build_Collected
         (tokensOfXPos (fst (collectToken h n (c, previous) r)))
         (firstTokenOfLine (fst (collectToken h n (c, previous) r)))
         (collectedTokens c ++ [tp]), Some tp)
    /\ token tp = r /\ consistentPos h tp.
Proof.
  unfold collectToken.
  set (isNewLine := match previous with
                    | None => true
                    | Some p => negb (bool_decide (lineNumber p = _))
                    end).
  destruct (match previous with
            | Some p => if isNewLine then _ else _
            | None => _
            end) as [pe sl] eqn:Epe.
  set (tp := Build_TokenPos _ _ _ _ _ _ _ _ _ _ _).
  exists tp. cbn [fst tokensOfXPos firstTokenOfLine]. split; [done|].
  split; [done|]. subst tp. unfold consistentPos.
  cbn [startColumn endColumn spacesLeft startIndexInLine lineNumber token
       tokenType isFirstInLine].
  assert (Hsl : 0 <= sl /\ (isNewLine = true
                            -> sl = Z.max 0 (Types.startColumn (loc (h r))))).
  { destruct previous as [p|]; [destruct isNewLine|]; simplify_eq;
      split; (lia || done). }
  repeat split; (lia || tauto || done).
Qed.

Lemma fold_collectToken_tokens h n tokens : forall c previous,
  map token (collectedTokens
               (fst (fold_left (collectToken h n) tokens (c, previous))))
  = map token (collectedTokens c) ++ tokens.
Proof.
  induction tokens as [|r rest IH]; intros c previous; cbn [fold_left fst].
  - by rewrite app_nil_r.
  - destruct (collectToken_collected h n c previous r) as (tp & -> & Ht & _).
    rewrite IH. cbn [collectedTokens]. rewrite map_app. cbn [map].
    rewrite Ht, <- app_assoc. done.
Qed.

Lemma fold_collectToken_consistent h n tokens : forall c previous,
  Forall (consistentPos h) (collectedTokens c) ->
  Forall (consistentPos h)
    (collectedTokens (fst (fold_left (collectToken h n) tokens (c, previous)))).
Proof.
  induction tokens as [|r rest IH]; intros c previous Hc; cbn [fold_left fst];
    [done|].
  destruct (collectToken_collected h n c previous r) as (tp & -> & _ & Hp).
  apply IH. cbn [collectedTokens]. apply Forall_app. split; [done|].
  by apply Forall_singleton.
Qed.

Lemma fold_collectFromTokens_tokens h n arrays : forall c,
  map token (collectedTokens
               (fold_left (fun c tokens => collectFromTokens h tokens n c)
                          arrays c))
  = map token (collectedTokens c) ++ concat arrays.
Proof.
  induction arrays as [|ts rest IH]; intros c; cbn [fold_left concat].
  - by rewrite app_nil_r.
  - rewrite IH. unfold collectFromTokens.
    rewrite fold_collectToken_tokens, <- app_assoc. done.
Qed.

Lemma fold_collectFromTokens_consistent h n arrays : forall c,
  Forall (consistentPos h) (collectedTokens c) ->
  Forall (consistentPos h)
    (collectedTokens
       (fold_left (fun c tokens => collectFromTokens h tokens n c) arrays c)).
Proof.
  induction arrays as [|ts rest IH]; intros c Hc; cbn [fold_left]; [done|].
  apply IH. by apply fold_collectToken_consistent.
Qed.

(** [X11] The rule records exactly one position for each token that it visits,
    in the order of the visit: the statements in their order, for each
    the statement's own tokens and then those of its chain entries. *)
Theorem collected_tokens_follow_visit_order h statements :
  map token (collectedTokens (collectTokenPositions h statements))
  = visitedTokens statements.
Proof.
  unfold collectTokenPositions, visitedTokens.
  change (concat (concat (map tokenArrays statements)))
    with (map token (collectedTokens
                       {| tokensOfXPos := ∅; firstTokenOfLine := ∅;
                          collectedTokens := [] |})
          ++ concat (concat (map tokenArrays statements))).
  generalize 0 as n.
  generalize {| tokensOfXPos := ∅; firstTokenOfLine := ∅;
                collectedTokens := [] |}.
  induction statements as [|s r IH]; intros c n; cbn [fold_left fst map concat].
  - by rewrite app_nil_r.
  - rewrite IH, fold_collectFromTokens_tokens, concat_app, <- app_assoc. done.
Qed.

(** [X12] Every recorded position is consistent with its token: its columns
    are ordered and not negative, its spacing is not negative, its line
    and type are the token's, and a position that leads its line has its
    start column as its spacing. *)
Theorem collected_positions_are_consistent h statements :
  Forall (consistentPos h)
    (collectedTokens (collectTokenPositions h statements)).
Proof.
  unfold collectTokenPositions.
  assert (H0 : Forall (consistentPos h)
                 (collectedTokens {| tokensOfXPos := ∅; firstTokenOfLine := ∅;
                                     collectedTokens := [] |})) by constructor.
  revert H0. generalize 0 as n.
  generalize {| tokensOfXPos := ∅; firstTokenOfLine := ∅;
                collectedTokens := [] |}.
  induction statements as [|s r IH]; intros c n Hc; cbn [fold_left fst];
    [done|].
  apply IH. by apply fold_collectFromTokens_consistent.
Qed.

Lemma addTokenPos_filed M tp key :
  exists l, addTokenPos M tp key !! key = Some l /\ tp ∈ l.
Proof.
  unfold addTokenPos. destruct (M !! key) as [l0|] eqn:E.
  - exists (l0 ++ [tp]). rewrite lookup_insert_eq. split; [done|].
    apply elem_of_app. right. apply list_elem_of_here.
  - exists [tp]. rewrite lookup_insert_eq. split; [done|].
    apply list_elem_of_here.
Qed.

Lemma addTokenPos_keeps M tp key k l m :
  M !! k = Some l -> m ∈ l ->
  exists l', addTokenPos M tp key !! k = Some l' /\ m ∈ l'.
Proof.
  intros Hl Hm. unfold addTokenPos.
  destruct (decide (key = k)) as [->|Hne].
  - rewrite Hl. exists (l ++ [tp]). rewrite lookup_insert_eq.
    split; [done|]. apply elem_of_app. by left.
  - exists l. destruct (M !! key); by rewrite lookup_insert_ne.
Qed.

Lemma collectToken_filed h n c previous (r : tokref) :
  Forall (filed c) (collectedTokens c) ->
  Forall (filed (fst (collectToken h n (c, previous) r)))
    (collectedTokens (fst (collectToken h n (c, previous) r))).
Proof.
  intros Hc. unfold collectToken.
  set (isNewLine := match previous with
                    | None => true
                    | Some p => negb (bool_decide (lineNumber p = _))
                    end).
  destruct (match previous with
            | Some p => if isNewLine then _ else _
            | None => _
            end) as [pe sl] eqn:Epe.
  set (tp := Build_TokenPos _ _ _ _ _ _ _ _ _ _ _).
  cbn [fst collectedTokens].
  assert (Hkeep : forall M x m,
            (exists l, M !! (2 * startIndexInLine m) = Some l /\ m ∈ l) ->
            exists l, addTokenPos M tp x !! (2 * startIndexInLine m) = Some l
                      /\ m ∈ l).
  { intros M x m (l & Hl & Hm). by eapply addTokenPos_keeps. }
  assert (Hall : forall m, m = tp \/ m ∈ collectedTokens c ->
            exists l, addTokenPos (tokensOfXPos c) tp (2 * startIndexInLine tp)
                        !! (2 * startIndexInLine m) = Some l /\ m ∈ l).
  { intros m [->|Hm]; [apply addTokenPos_filed|].
    apply Hkeep. rewrite Forall_forall in Hc. by apply Hc. }
  apply Forall_forall. intros m Hm. unfold filed. cbn [tokensOfXPos].
  assert (Hm' : m = tp \/ m ∈ collectedTokens c).
  { apply elem_of_app in Hm as [Hm|Hm]; [by right|].
    left. by apply list_elem_of_singleton in Hm. }
  destruct (isAssignmentOperatorToken (h r));
    [apply Hkeep; by apply Hall|].
  destruct (isComparisonOperatorToken (h r));
    [apply Hkeep; by apply Hall|].
  destruct (isNumericLiteralToken (h r));
    [apply Hkeep; by apply Hall|].
  by apply Hall.
Qed.

Lemma fold_collectToken_filed h n tokens : forall c previous,
  Forall (filed c) (collectedTokens c) ->
  let c' := fst (fold_left (collectToken h n) tokens (c, previous)) in
  Forall (filed c') (collectedTokens c').
Proof.
  induction tokens as [|r rest IH]; intros c previous Hc; cbn [fold_left fst];
    [done|].
  pose proof (collectToken_filed h n c previous r Hc) as H.
  destruct (collectToken h n (c, previous) r) as [c1 p1]. by apply IH.
Qed.

(** [X13] Every recorded position is filed in the x-position table under the
    even key of its own start column, so each token takes part in the
    scan of its raw column. *)
Theorem collected_positions_are_filed h statements :
  Forall (filed (collectTokenPositions h statements))
    (collectedTokens (collectTokenPositions h statements)).
Proof.
  unfold collectTokenPositions.
  assert (H0 : Forall (filed {| tokensOfXPos := ∅; firstTokenOfLine := ∅;
                                collectedTokens := [] |})
                 (collectedTokens {| tokensOfXPos := ∅; firstTokenOfLine := ∅;
                                     collectedTokens := [] |})) by constructor.
  revert H0. generalize 0 as n.
  generalize {| tokensOfXPos := ∅; firstTokenOfLine := ∅;
                collectedTokens := [] |}.
  induction statements as [|s r IH]; intros c n Hc; cbn [fold_left fst];
    [done|].
  apply IH. clear IH. revert c Hc.
  induction (tokenArrays s) as [|ts arrays IHa]; intros c Hc; cbn [fold_left];
    [done|].
  apply IHa. by apply fold_collectToken_filed.
Qed.

(** [X14] The condensing pass never replaces an override: an entry of the
    table is there afterwards, unchanged.  What it adds is the override 1,
    for a token outside every alignment group that has a recorded position
    off the line start, of a type other than comment, pragma, comma,
    period and colon, with more than one space before it. *)
Theorem condense_only_adds_single_spaces
    (tokenPositions : list TokenPos) (grouped : gset tokref)
    (o : gmap tokref Z) (t : tokref) :
  (forall v, o !! t = Some v ->
     condenseStandaloneTokens tokenPositions grouped o !! t = Some v)
  /\ (forall v, condenseStandaloneTokens tokenPositions grouped o !! t = Some v ->
       o !! t = Some v
       \/ (v = 1 /\ (o !! t = None) /\ (t ∉ grouped)
           /\ exists m, m ∈ tokenPositions /\ token m = t
                        /\ isCondensable m = true)).
Proof.
  unfold condenseStandaloneTokens. revert o.
  induction tokenPositions as [|m r IH]; intros o; cbn [fold_left]; [by eauto|].
  set (o1 := if isFirstInLine m then o else _).
  destruct (IH o1) as [IH1 IH2].
  assert (Hkeep : forall v, o !! t = Some v -> o1 !! t = Some v).
  { intros v Hv. subst o1.
    destruct (isFirstInLine m); [done|].
    case_bool_decide; [done|]. case_bool_decide as Hs; [done|].
    destruct (_ || _); [done|]. case_bool_decide; [done|].
    rewrite lookup_insert_ne; [done|]. intros Heq.
    apply Hs. rewrite Heq. eauto. }
  assert (Hnew : forall v, o1 !! t = Some v ->
            o !! t = Some v
            \/ (v = 1 /\ (o !! t = None) /\ (t ∉ grouped) /\ token m = t
                /\ isCondensable m = true)).
  { intros v Hv. subst o1. unfold isCondensable.
    destruct (isFirstInLine m) eqn:Ef; [by left|].
    case_bool_decide as Hg; [by left|]. case_bool_decide as Hs; [by left|].
    destruct (_ || _) eqn:Ety; [by left|]. case_bool_decide as Hsp; [by left|].
    destruct (decide (token m = t)) as [Heq|Hne].
    - rewrite Heq, lookup_insert_eq in Hv. simplify_eq. right.
      split_and!; try done.
      + apply eq_None_not_Some. done.
      + cbn [negb andb].
        repeat (apply orb_false_iff in Ety as [Ety ?]).
        rewrite bool_decide_eq_false_2.
        * cbn [negb andb]. apply bool_decide_eq_true. lia.
        * rewrite !elem_of_cons, elem_of_nil.
          repeat match goal with
                 | H : bool_decide _ = false |- _ =>
                     apply bool_decide_eq_false in H
                 end.
          tauto.
    - rewrite lookup_insert_ne in Hv by done. by left. }
  split.
  - intros v Hv. by apply IH1, Hkeep.
  - intros v Hv. apply IH2 in Hv as [Hv|(-> & Hnone & Hg & m' & Hin & Ht & Hc)].
    + apply Hnew in Hv as [Hv|(-> & Hnone & Hg & Ht & Hc)]; [by left|].
      right. split_and!; try done. exists m.
      split_and!; [apply list_elem_of_here|done..].
    + right. split_and!; try done.
      * destruct (o !! t) as [v|] eqn:E; [|done].
        by rewrite (Hkeep v eq_refl) in Hnone.
      * exists m'. split_and!; [by apply list_elem_of_further|done..].
Qed.


(** Two token types match when they are equal, or when neither is one
    of the types compared exactly (colon, comma, period, assignment and
    comparison operator, comment, pragma): a literal and an identifier
    match each other.  The relation is symmetric. *)
Theorem tokenTypesMatch_characterised (type1 type2 : TokenType) :
  tokenTypesMatch type1 type2
  = bool_decide (type1 = type2)
    || (negb (isExactType type1) && negb (isExactType type2))
  /\ tokenTypesMatch type1 type2 = tokenTypesMatch type2 type1.
Proof. by destruct type1, type2. Qed.

Lemma indexOfDot_bounds (s : jsstring) : forall index dotIndex,
  indexOfDot s index = Some dotIndex ->
  index <= dotIndex < index + Z.of_nat (length s).
Proof.
  induction s as [|c r IH]; intros index dotIndex H; cbn [indexOfDot] in H;
    [done|].
  cbn [length]. destruct (c =? 46)%N; [simplify_eq; lia|].
  apply IH in H. lia.
Qed.

Lemma lastAlignmentChar_bounds (s : jsstring) : forall index found,
  lastAlignmentChar s index = Some found ->
  index - Z.of_nat (length s) < found <= index.
Proof.
  induction s as [|c r IH]; intros index found H;
    cbn [lastAlignmentChar] in H; [done|].
  cbn [length]. destruct (_ && _); [simplify_eq; lia|].
  apply IH in H. lia.
Qed.

(** The alignment index of a numeric literal is a position of its
    trimmed text, or its length: it is never negative and never beyond
    the end. *)
Theorem getNumericAlignmentIndex_in_range (text : jsstring) :
  0 <= getNumericAlignmentIndex text <= Z.of_nat (length (trim text)).
Proof.
  unfold getNumericAlignmentIndex.
  destruct (indexOfDot (trim text) 0) as [dotIndex|] eqn:Edot.
  - apply indexOfDot_bounds in Edot. lia.
  - destruct (lastAlignmentChar _ _) as [index|] eqn:Elast; [|lia].
    apply lastAlignmentChar_bounds in Elast.
    rewrite length_rev in Elast. lia.
Qed.

Lemma compareTokenPos_total a b : orderedBefore a b \/ orderedBefore b a.
Proof.
  unfold orderedBefore, compareTokenPos.
  repeat case_bool_decide; cbn [negb]; lia.
Qed.

Lemma compareTokenPos_trans a b c :
  orderedBefore a b -> orderedBefore b c -> orderedBefore a c.
Proof.
  unfold orderedBefore, compareTokenPos.
  repeat case_bool_decide; cbn [negb]; lia.
Qed.

Lemma insertSorted_perm {A} (compare : A -> A -> Z) (x : A) (l : list A) :
  insertSorted compare x l ≡ₚ x :: l.
Proof.
  induction l as [|y r IH]; cbn [insertSorted]; [done|].
  case_bool_decide; [done|]. rewrite IH. apply Permutation_swap.
Qed.

Lemma insertSorted_sorted (x : TokenPos) (l : list TokenPos) :
  StronglySorted orderedBefore l ->
  StronglySorted orderedBefore (insertSorted compareTokenPos x l).
Proof.
  induction 1 as [|y r Hr IH Hy]; cbn [insertSorted].
  - repeat constructor.
  - case_bool_decide as Hxy.
    + constructor; [by constructor|]. constructor; [done|].
      eapply Forall_impl; [exact Hy|]. intros z Hz.
      by apply (compareTokenPos_trans x y z).
    + constructor; [done|].
      rewrite insertSorted_perm. constructor; [|done].
      destruct (compareTokenPos_total x y); done.
Qed.

Lemma sort_perm {A} (compare : A -> A -> Z) (l : list A) :
  sort compare l ≡ₚ l.
Proof.
  unfold sort. induction l as [|x r IH]; cbn [foldr]; [done|].
  by rewrite insertSorted_perm, IH.
Qed.

(** [X16] Sorting the positions of an x-position with [compareTokenPos] keeps
    the same positions and leaves them ordered by line, then command,
    then start column: the comparator is a total preorder. *)
Theorem sort_orders_positions (l : list TokenPos) :
  sort compareTokenPos l ≡ₚ l
  /\ StronglySorted orderedBefore (sort compareTokenPos l).
Proof.
  unfold sort. induction l as [|x r [IHp IHs]]; cbn [foldr].
  - split; [done|constructor].
  - split; [by rewrite insertSorted_perm, IHp|by apply insertSorted_sorted].
Qed.

Lemma scanRun_within h processed ftol realXPos first rest :
  forall prev endIndex skip,
    (fst (scanRun h processed ftol realXPos first prev rest endIndex skip)
     <= S endIndex + length rest)%nat.
Proof.
  induction rest as [|test rest' IH]; intros prev endIndex skip;
    cbn [scanRun fst length]; [lia|].
  destruct (tokenBreaksSequence _ _ _ _ _ _); cbn [fst]; [lia|].
  specialize (IH test (S endIndex)
                (skip || bool_decide (token prev ∈ processed))). lia.
Qed.

(** [X17] The run that the scan finds from a start index inside the list is
    never empty and ends inside the list: the indices handed to
    [processSequence] satisfy [startIndex < endIndex <= length]. *)
Theorem scanRun_finds_a_run_inside_the_list
    h processed ftol realXPos (tokenPosList : list TokenPos)
    (startIndex : nat) (first : TokenPos) :
  tokenPosList !! startIndex = Some first ->
  let endIndex :=
    fst (scanRun h processed ftol realXPos first first
           (drop (S startIndex) tokenPosList) startIndex false) in
  (startIndex < endIndex <= length tokenPosList)%nat.
Proof.
  intros Hfirst endIndex. subst endIndex. split.
  - apply scanRun_advances.
  - pose proof (scanRun_within h processed ftol realXPos first
                  (drop (S startIndex) tokenPosList) first startIndex false)
      as H.
    apply lookup_lt_Some in Hfirst. rewrite length_drop in H. lia.
Qed.

End NeedlessExtras.

(** ** The parser: line ends, offsets, pragmas and trailing comments *)
Section ParserExtras.
Import Abaplint Parser ParserBuilder ParserPredicates.
Local Open Scope Z_scope.

Lemma normalizeNewlines_no_CR_aux (n : nat) : forall input : jsstring,
  (length input <= n)%nat ->
  (13%N ∉ normalizeNewlines input)
  /\ (13%N ∉ input -> normalizeNewlines input = input).
Proof.
  induction n as [|n IH]; intros input Hlen.
  - destruct input; [|cbn in Hlen; lia]. cbn. split; [|done].
    apply not_elem_of_nil.
  - destruct input as [|c rest]; [cbn; split; [apply not_elem_of_nil|done]|].
    cbn [length] in Hlen. cbn [normalizeNewlines].
    destruct (c =? 13)%N eqn:Ec.
    + apply N.eqb_eq in Ec. subst c. split.
      * destruct rest as [|c' rest'].
        { intros H. apply list_elem_of_singleton in H. done. }
        cbn [length] in Hlen.
        destruct (c' =? 10)%N; intros H; apply elem_of_cons in H as [H|H];
          try done.
        -- by apply (IH rest'); [lia|].
        -- by apply (IH (c' :: rest')); [cbn [length]; lia|].
      * intros Hno. exfalso. apply Hno. apply list_elem_of_here.
    + apply N.eqb_neq in Ec. destruct (IH rest ltac:(lia)) as [IH1 IH2].
      split.
      * intros H. apply elem_of_cons in H as [H|H]; [by subst|done].
      * intros Hno. f_equal. apply IH2. intros H. apply Hno.
        by apply list_elem_of_further.
Qed.

(** [X18] After the normalisation of line ends no carriage return is left, a
    text without carriage returns is returned as it is, and normalising
    twice is normalising once. *)
Theorem normalizeNewlines_removes_carriage_returns (input : jsstring) :
  (13%N ∉ normalizeNewlines input)
  /\ (13%N ∉ input -> normalizeNewlines input = input)
  /\ normalizeNewlines (normalizeNewlines input) = normalizeNewlines input.
Proof.
  destruct (normalizeNewlines_no_CR_aux (length input) input (le_n _))
    as [H1 H2].
  split_and!; [done..|].
  by apply (normalizeNewlines_no_CR_aux _ _ (le_n _)).
Qed.

Lemma splitLines_nonempty (text : jsstring) : splitLines text <> [].
Proof.
  destruct text as [|c rest]; cbn [splitLines]; [done|].
  destruct (c =? 10)%N; [done|]. by destruct (splitLines rest).
Qed.

Lemma lineStartOf_0 lines : lineStartOf lines 0 = 0.
Proof. done. Qed.

Lemma lineStartOf_S line lines index :
  lineStartOf (line :: lines) (S index)
  = Z.of_nat (length line) + 1 + lineStartOf lines index.
Proof. done. Qed.

Lemma lineStartOf_nonneg lines index : 0 <= lineStartOf lines index.
Proof.
  revert index. induction lines as [|l r IH]; intros [|i];
    rewrite ?lineStartOf_S; try (cbv; discriminate).
  specialize (IH i). lia.
Qed.

(** In the text, the code unit at [k] of line [i] is found [k] after the
    start of the line. *)
Lemma splitLines_lookup (text : jsstring) : forall (i k : nat) line,
  splitLines text !! i = Some line -> (k < length line)%nat ->
  text !! Z.to_nat (lineStartOf (splitLines text) i + Z.of_nat k) = line !! k.
Proof.
  induction text as [|c rest IH]; intros i k line Hline Hk.
  - cbn [splitLines] in Hline. destruct i; cbn in Hline; [|done].
    simplify_eq. cbn in Hk. lia.
  - cbn [splitLines] in Hline |- *.
    destruct (c =? 10)%N.
    + destruct i as [|i]; cbn [lookup list_lookup] in Hline.
      * simplify_eq. cbn in Hk. lia.
      * rewrite lineStartOf_S. cbn [length].
        pose proof (lineStartOf_nonneg (splitLines rest) i) as Hnn.
        replace (Z.to_nat (Z.of_nat 0 + 1 + lineStartOf (splitLines rest) i
                           + Z.of_nat k))
          with (S (Z.to_nat (lineStartOf (splitLines rest) i + Z.of_nat k)))
          by lia.
        cbn [lookup list_lookup]. by apply IH.
    + pose proof (splitLines_nonempty rest) as Hne.
      destruct (splitLines rest) as [|line0 lines0] eqn:Esplit; [done|].
      destruct i as [|i]; cbn [lookup list_lookup] in Hline.
      * simplify_eq. rewrite lineStartOf_0.
        destruct k as [|k]; [done|].
        replace (Z.to_nat (0 + Z.of_nat (S k))) with (S k) by lia.
        cbn [lookup list_lookup]. cbn [length] in Hk.
        specialize (IH 0%nat k line0 eq_refl ltac:(lia)).
        rewrite lineStartOf_0 in IH.
        replace (Z.to_nat (0 + Z.of_nat k)) with k in IH by lia. done.
      * rewrite lineStartOf_S. cbn [length].
        pose proof (lineStartOf_nonneg lines0 i) as Hnn.
        specialize (IH (S i) k line Hline Hk).
        rewrite lineStartOf_S in IH.
        replace (Z.to_nat (Z.of_nat (S (length line0)) + 1
                           + lineStartOf lines0 i + Z.of_nat k))
          with (S (Z.to_nat (Z.of_nat (length line0) + 1
                             + lineStartOf lines0 i + Z.of_nat k)))
          by lia.
        cbn [lookup list_lookup]. done.
Qed.

Lemma fold_offsets (lines : list jsstring) : forall offsets current,
  fst (fold_left
         (fun '(offsets, current) line =>
            let current := current + Z.of_nat (length line) + 1 in
            (offsets ++ [current], current))
         lines (offsets, current))
  = offsets
    ++ map (fun i => current + lineStartOf lines i) (seq 1 (length lines)).
Proof.
  induction lines as [|l r IH]; intros offsets current; cbn [fold_left].
  - cbn. by rewrite app_nil_r.
  - rewrite IH, <- app_assoc. f_equal. cbn [length seq map app].
    rewrite lineStartOf_S, lineStartOf_0. f_equal; [lia|].
    rewrite <- (seq_shift (length r) 1), map_map. apply map_ext. intros i.
    rewrite lineStartOf_S. lia.
Qed.

(** [buildLineOffsets] lists the start of every line and, last, the
    offset one past the line feed that would end the last line. *)
Lemma buildLineOffsets_lookup (text : jsstring) (i : nat) :
  (i <= length (splitLines text))%nat ->
  buildLineOffsets text !! i = Some (lineStartOf (splitLines text) i).
Proof.
  intros Hi. unfold buildLineOffsets. rewrite fold_offsets.
  destruct i as [|i]; [done|]. cbn [app]. rewrite lookup_cons. cbn iota.
  change (map ?f ?l) with (f <$> l).
  rewrite list_lookup_fmap, lookup_seq_lt by lia. done.
Qed.

(** [X19] The offset computed for a position addresses, in the text, the code
    unit found at the position's column in the position's line: rows
    and columns count from 1, lines are those of the text split at its
    line feeds. *)
Theorem positionToOffset_addresses_the_position
    (text : jsstring) (pos : Position) (line : jsstring) :
  1 <= getRow pos ->
  splitLines text !! Z.to_nat (getRow pos - 1) = Some line ->
  1 <= getCol pos <= Z.of_nat (length line) ->
  text !! Z.to_nat (positionToOffset pos (buildLineOffsets text))
  = line !! Z.to_nat (getCol pos - 1).
Proof.
  intros Hrow Hline Hcol. unfold positionToOffset.
  rewrite !Z.max_l by lia.
  rewrite buildLineOffsets_lookup
    by (apply lookup_lt_Some in Hline; lia).
  cbn [default].
  pose proof (splitLines_lookup text _ (Z.to_nat (getCol pos - 1)) line Hline
                ltac:(lia)) as H.
  unfold id. rewrite <- (Z2Nat.id (getCol pos - 1)) at 1 by lia. exact H.
Qed.

Lemma findCommentIndex_spec (h : heap) (tokens : list tokref) : forall base,
  match findCommentIndex h tokens base with
  | None => Forall (fun t => isCommentToken (h t) = false) tokens
  | Some index =>
      exists before t after,
        tokens = before ++ t :: after /\ index = (base + length before)%nat
        /\ Forall (fun t => isCommentToken (h t) = false) before
        /\ isCommentToken (h t) = true
  end.
Proof.
  induction tokens as [|t rest IH]; intros base; cbn [findCommentIndex];
    [constructor|].
  destruct (bool_decide (role (h t) = role_comment)) eqn:Et.
  - exists [], t, rest. split_and!; [done|cbn; lia|constructor|done].
  - specialize (IH (S base)).
    destruct (findCommentIndex h rest (S base)) as [index|].
    + destruct IH as (before & c & after & -> & -> & Hb & Hc).
      exists (t :: before), c, after.
      split_and!; [done|cbn [length]; lia|by constructor|done].
    + by constructor.
Qed.

Lemma extractTrailingComment_spec (h : heap) (tokens : list tokref) :
  match extractTrailingComment h tokens with
  | (None, rest) =>
      rest = tokens /\ Forall (fun t => isCommentToken (h t) = false) tokens
  | (Some comment, rest) =>
      exists before t after,
        tokens = before ++ t :: after /\ rest = before ++ after
        /\ Forall (fun t => isCommentToken (h t) = false) before
        /\ isCommentToken (h t) = true
        /\ comment = {| value := text (h t); inline := true;
                        cloc := loc (h t) |}
  end.
Proof.
  unfold extractTrailingComment.
  pose proof (findCommentIndex_spec h tokens 0) as H.
  destruct (findCommentIndex h tokens 0) as [index|]; [|done].
  destruct H as (before & t & after & -> & -> & Hb & Ht).
  cbn [Nat.add].
  rewrite list_lookup_middle by done.
  exists before, t, after. split_and!; try done.
  rewrite take_app_length.
  rewrite cons_middle, app_assoc, drop_app_length'; [done|].
  rewrite length_app. cbn [length]. lia.
Qed.

(** [X20] [extractTrailingComment] takes the first comment token out of the
    array and returns it as an inline comment with the token's text and
    location; the tokens before and after it, later comment tokens
    among them, stay in their order.  Without a comment token the array
    is left as it is. *)
Theorem extractTrailingComment_takes_first_comment
    (h : heap) (tokens : list tokref) :
  match extractTrailingComment h tokens with
  | (None, rest) =>
      rest = tokens /\ Forall (fun t => isCommentToken (h t) = false) tokens
  | (Some comment, rest) =>
      exists before t after,
        tokens = before ++ t :: after /\ rest = before ++ after
        /\ Forall (fun t => isCommentToken (h t) = false) before
        /\ isCommentToken (h t) = true
        /\ comment = {| value := text (h t); inline := true;
                        cloc := loc (h t) |}
  end.
Proof. apply extractTrailingComment_spec. Qed.

Lemma mergeTokensWithPragmas_snoc (h : heap) (body : list tokref)
    (lastToken : tokref) (pragmas : list tokref) :
  mergeTokensWithPragmas h (body ++ [lastToken]) pragmas
  = (if isTerminal (h lastToken) then body ++ pragmas ++ [lastToken]
     else body ++ [lastToken] ++ pragmas).
Proof.
  unfold mergeTokensWithPragmas, isTerminal.
  case_bool_decide as Hp.
  - destruct pragmas; [|done]. cbn [app]. by destruct (_ || _).
  - rewrite bool_decide_eq_false_2
      by (rewrite length_app; cbn [length]; lia).
    rewrite last_snoc.
    destruct (_ || _ || _); [|by rewrite <- app_assoc].
    rewrite length_app. cbn [length].
    replace (length body + 1 - 1)%nat with (length body) by lia.
    rewrite take_app_length, drop_app_length. done.
Qed.

Lemma mergeTokensWithPragmas_perm (h : heap) (tokens pragmas : list tokref) :
  mergeTokensWithPragmas h tokens pragmas ≡ₚ tokens ++ pragmas.
Proof.
  destruct tokens as [|t0 r] using rev_ind.
  - unfold mergeTokensWithPragmas. by destruct pragmas.
  - rewrite mergeTokensWithPragmas_snoc. destruct (isTerminal (h t0)).
    + rewrite <- app_assoc. apply Permutation_app_head, Permutation_app_comm.
    + by rewrite <- app_assoc.
Qed.

(** [X21] Where the pragmas go: a statement without tokens consists of its
    pragmas; otherwise the pragmas are put before the last token when
    that is a punctuation token, a comma or a period, and after it when
    it is not.  Nothing is lost or duplicated. *)
Theorem mergeTokensWithPragmas_places_pragmas
    (h : heap) (body : list tokref) (lastToken : tokref)
    (pragmas : list tokref) :
  mergeTokensWithPragmas h [] pragmas = pragmas
  /\ mergeTokensWithPragmas h (body ++ [lastToken]) pragmas
     = (if isTerminal (h lastToken) then body ++ pragmas ++ [lastToken]
        else body ++ [lastToken] ++ pragmas)
  /\ mergeTokensWithPragmas h (body ++ [lastToken]) pragmas
     ≡ₚ (body ++ [lastToken]) ++ pragmas.
Proof.
  split_and!.
  - unfold mergeTokensWithPragmas. by destruct pragmas.
  - apply mergeTokensWithPragmas_snoc.
  - apply mergeTokensWithPragmas_perm.
Qed.

Lemma startsWith_app (p q s : jsstring) :
  startsWith (p ++ q) s = true -> startsWith p s = true.
Proof.
  revert s. induction p as [|a p IH]; intros s H; [by destruct s|].
  destruct s as [|b s]; [done|]. cbn [app startsWith] in *.
  apply andb_true_iff in H as [H1 H2]. rewrite H1. by apply IH.
Qed.

Lemma startsWith_same_head (a b : N) (p q s : jsstring) :
  startsWith (a :: p) s = true -> startsWith (b :: q) s = true -> a = b.
Proof.
  destruct s as [|c s]; [done|]. cbn [startsWith].
  intros H1 H2. apply andb_true_iff in H1 as [H1 _].
  apply andb_true_iff in H2 as [H2 _].
  apply N.eqb_eq in H1, H2. congruence.
Qed.

(** [X22] The file name handed to the tokenizer is the base name of the path
    when that ends, in any case of the letters, with [.ddlsrc],
    [.clas.abap], [.intf.abap] or [.clas.macros], and the default name
    otherwise; the last test of the function, for [.intf.abap], never
    decides anything. *)
Theorem inferFilename_keeps_known_names
    (basename : jsstring -> jsstring) (filepath : option jsstring) :
  inferFilename basename filepath
  = match filepath with
    | None => DEFAULT_FILENAME
    | Some filepath =>
        let name := basename (replaceBackslashes filepath) in
        if negb (bool_decide (length filepath = 0%nat)) && isKeptFilename name
        then name else DEFAULT_FILENAME
    end.
Proof.
  destruct filepath as [filepath|]; [|done]. unfold inferFilename. cbn zeta.
  case_bool_decide; [done|]. cbn [negb andb].
  unfold isKeptFilename, testSuffixIgnoreCase, endsWith.
  set (x := rev (asciiLower (basename (replaceBackslashes filepath)))).
  destruct (startsWith (rev (lit ".ddlsrc")) x) eqn:Eddl; [done|].
  destruct (startsWith (rev (lit ".clas.abap")) x) eqn:Eclas;
  destruct (startsWith (rev (lit ".intf.abap")) x) eqn:Eintf;
  destruct (startsWith (rev (lit ".abap")) x) eqn:Eabap;
  destruct (startsWith (rev (lit ".clas.macros")) x) eqn:Emacros;
    cbn [orb]; try done.
  all: try (pose proof (startsWith_same_head _ _ _ _ _ Eabap Emacros);
            discriminate).
  all: try (apply (startsWith_app (rev (lit ".abap")) (rev (lit ".clas")))
              in Eclas; congruence).
  all: try (apply (startsWith_app (rev (lit ".abap")) (rev (lit ".intf")))
              in Eintf; congruence).
Qed.

End ParserExtras.

(** ** The parser: building the program from the tokenizer's statements *)
Section BuilderExtras.
Import Abaplint Parser ParserBuilder ParserPredicates.

Variable classOf : AbstractToken -> Tokens.class.
Variable toUpperCase : jsstring -> jsstring.
Variable constructorName : StatementNode -> jsstring.
Variable getColon : StatementNode -> option AbstractToken.
Variable getPragmas : StatementNode -> list AbstractToken.
Variable concatTokens : StatementNode -> jsstring.

Lemma extendsAlloc_refl a : extendsAlloc a a.
Proof. by split. Qed.

Lemma extendsAlloc_trans a1 a2 a3 :
  extendsAlloc a1 a2 -> extendsAlloc a2 a3 -> extendsAlloc a1 a3.
Proof.
  intros [H1 F1] [H2 F2]. split; [lia|].
  intros r Hr. rewrite F2 by lia. by apply F1.
Qed.

(** The tokens of an array are made one after the other, at the next
    free references, and the objects made before are left alone. *)
Lemma convertTokens_spec (tokens : list AbstractToken) lineOffsets :
  forall a,
    let res := convertTokens classOf toUpperCase tokens lineOffsets a in
    fst res = seq (nextRef a) (length tokens)
    /\ nextRef (snd res) = (nextRef a + length tokens)%nat
    /\ (forall r, (r < nextRef a)%nat ->
          allocated (snd res) r = allocated a r)
    /\ forall i token, tokens !! i = Some token ->
         allocated (snd res) (nextRef a + i)%nat
         = convertToken classOf toUpperCase token (tokens !! S i) lineOffsets.
Proof.
  induction tokens as [|token rest IH]; intros a; cbn [convertTokens].
  - cbn. split_and!; [done|lia|done|done].
  - unfold newToken.
    set (a1 := {| allocated := _; nextRef := S (nextRef a) |}).
    specialize (IH a1).
    destruct (convertTokens classOf toUpperCase rest lineOffsets a1)
      as [rs a2].
    cbn [fst snd] in *. destruct IH as (Hrs & Hnext & Hframe & Hobj).
    subst a1. cbn [nextRef] in Hrs, Hnext, Hframe, Hobj. cbn [length seq].
    split_and!.
    + by rewrite Hrs.
    + lia.
    + intros r Hr. rewrite Hframe by lia. cbn [allocated].
      by rewrite decide_False by lia.
    + intros [|i] t Ht; cbn in Ht.
      * simplify_eq. rewrite Nat.add_0_r, Hframe by lia. cbn [allocated].
        rewrite decide_True by done. by destruct rest.
      * replace (nextRef a + S i)%nat with (S (nextRef a) + i)%nat by lia.
        by rewrite (Hobj i t Ht).
Qed.

Lemma convertPragmaTokens_spec (pragmas : list AbstractToken) lineOffsets :
  forall a,
    let res := convertPragmaTokens classOf toUpperCase pragmas lineOffsets a in
    fst res = seq (nextRef a) (length pragmas)
    /\ nextRef (snd res) = (nextRef a + length pragmas)%nat
    /\ (forall r, (r < nextRef a)%nat ->
          allocated (snd res) r = allocated a r).
Proof.
  induction pragmas as [|pragma rest IH]; intros a;
    cbn [convertPragmaTokens].
  - cbn. split_and!; [done|lia|done].
  - unfold newToken.
    set (a1 := {| allocated := _; nextRef := S (nextRef a) |}).
    specialize (IH a1).
    destruct (convertPragmaTokens classOf toUpperCase rest lineOffsets a1)
      as [rs a2].
    cbn [fst snd] in *. destruct IH as (Hrs & Hnext & Hframe).
    subst a1. cbn [nextRef] in Hrs, Hnext, Hframe. cbn [length seq].
    split_and!.
    + by rewrite Hrs.
    + lia.
    + intros r Hr. rewrite Hframe by lia. cbn [allocated].
      by rewrite decide_False by lia.
Qed.

(** [X23] Each token of the tokenizer becomes one token object, in order, with
    the tokenizer's text; the object is marked as followed by a line
    break exactly when a next token exists and starts on a later row
    than the one the token ends on, so the last token of an array never
    is. *)
Theorem convertTokens_marks_line_breaks
    (tokens : list AbstractToken) (lineOffsets : list Z) (a : Alloc)
    (i : nat) (token : AbstractToken) :
  tokens !! i = Some token ->
  let res := convertTokens classOf toUpperCase tokens lineOffsets a in
  length (fst res) = length tokens
  /\ exists r,
       fst res !! i = Some r
       /\ text (allocated (snd res) r) = getStr token
       /\ role (allocated (snd res) r) = classifyToken (classOf token)
       /\ (hasFollowingLineBreak (allocated (snd res) r) = true
           <-> exists next,
                 tokens !! S i = Some next
                 /\ (getRow (getEnd token) < getRow (getStart next))%Z).
Proof.
  intros Hi res.
  destruct (convertTokens_spec tokens lineOffsets a)
    as (Hrefs & _ & _ & Hobj).
  fold res in Hrefs, Hobj. rewrite Hrefs, length_seq. split; [done|].
  exists (nextRef a + i)%nat.
  rewrite lookup_seq_lt by (apply lookup_lt_Some in Hi; lia).
  rewrite (Hobj i token Hi). cbn [text role hasFollowingLineBreak convertToken].
  split_and!; [done..|].
  destruct (tokens !! S i) as [next|].
  - unfold isNewLineBetween. rewrite bool_decide_eq_true.
    split; [intros H; by exists next|]. intros (n & Hn & H). by simplify_eq.
  - split; [done|]. by intros (n & Hn & _).
Qed.

Lemma extractTrailingComment_sub (h : heap) (tokens : list tokref) :
  NoDup tokens ->
  NoDup (snd (extractTrailingComment h tokens))
  /\ forall r, r ∈ snd (extractTrailingComment h tokens) -> r ∈ tokens.
Proof.
  intros Hnd. pose proof (extractTrailingComment_spec h tokens) as H.
  destruct (extractTrailingComment h tokens) as [[comment|] rest];
    cbn [snd].
  - destruct H as (before & t & after & -> & -> & _).
    apply NoDup_app in Hnd as (Hb & Hdis & Ha).
    apply NoDup_cons in Ha as [_ Ha]. split.
    + apply NoDup_app. split_and!; [done| |done].
      intros x Hx Hx'. apply (Hdis x Hx). by apply list_elem_of_further.
    + intros r Hr. apply elem_of_app in Hr as [Hr|Hr]; apply elem_of_app;
        [by left|right; by apply list_elem_of_further].
  - destruct H as [-> _]. done.
Qed.

Lemma seq_range (n k r : nat) : r ∈ seq n k -> (n <= r < n + k)%nat.
Proof. intros H. apply elem_of_seq in H. lia. Qed.

(** What the conversion of one statement makes. *)
Lemma convertSingleStatement_spec statement indentLevel lineOffsets a :
  let res :=
    convertSingleStatement classOf toUpperCase constructorName getPragmas
      concatTokens statement indentLevel lineOffsets a in
  extendsAlloc a (snd res)
  /\ NoDup (tokens (fst res))
  /\ Forall (madeBetween a (snd res)) (tokens (fst res))
  /\ kind (fst res) = constructorName statement
  /\ Types.indentLevel (fst res) = indentLevel
  /\ chain (fst res) = None
  /\ raw (fst res) = concatTokens statement.
Proof.
  unfold convertSingleStatement, convertPragmas.
  destruct (convertTokens_spec (getTokens statement) lineOffsets a)
    as (Hc & Hn1 & Hf1 & _).
  destruct (convertTokens classOf toUpperCase (getTokens statement)
              lineOffsets a) as [converted a1].
  cbn [fst snd] in Hc, Hn1, Hf1.
  destruct (convertPragmaTokens_spec (getPragmas statement) lineOffsets a1)
    as (Hp & Hn2 & Hf2).
  destruct (convertPragmaTokens classOf toUpperCase (getPragmas statement)
              lineOffsets a1) as [pragmaTokens a2].
  cbn [fst snd] in Hp, Hn2, Hf2.
  set (merged := mergeTokensWithPragmas (allocated a2) converted pragmaTokens).
  assert (Hperm : merged ≡ₚ seq (nextRef a)
                    (length (getTokens statement)
                     + length (getPragmas statement))).
  { subst merged. rewrite mergeTokensWithPragmas_perm, Hc, Hp, Hn1.
    by rewrite seq_app. }
  assert (Hnd : NoDup merged) by (rewrite Hperm; apply NoDup_seq).
  destruct (extractTrailingComment_sub (allocated a2) merged Hnd)
    as [Hnd' Hsub].
  destruct (extractTrailingComment (allocated a2) merged)
    as [trailingComment rest].
  cbn [fst snd] in *. cbn [tokens kind Types.indentLevel chain raw
                            buildStatementObject].
  split_and!; try done.
  - split; [lia|]. intros r Hr. rewrite Hf2 by lia. by apply Hf1.
  - apply Forall_forall. intros r Hr. apply Hsub in Hr.
    rewrite Hperm in Hr. apply seq_range in Hr. unfold madeBetween. lia.
Qed.

Lemma builtSince_push a0 result a a1 statement :
  builtSince a0 result a -> extendsAlloc a a1 ->
  NoDup (tokens statement) ->
  Forall (madeBetween a a1) (tokens statement) ->
  builtSince a0 (result ++ [statement]) a1.
Proof.
  intros (He & Hnd & Hall) He1 Hs Hsa. unfold builtSince, tokensOf in *.
  rewrite map_app, concat_app. cbn [map concat]. rewrite app_nil_r.
  split_and!.
  - by eapply extendsAlloc_trans.
  - apply NoDup_app. split_and!; [done| |done].
    intros r Hr Hr'. rewrite Forall_forall in Hall, Hsa.
    specialize (Hall r Hr). specialize (Hsa r Hr').
    unfold madeBetween in *. lia.
  - destruct He as [He _]. destruct He1 as [He1 _].
    apply Forall_app. split.
    + eapply Forall_impl; [exact Hall|]. unfold madeBetween. intros; lia.
    + eapply Forall_impl; [exact Hsa|]. unfold madeBetween. intros; lia.
Qed.

Lemma builtSince_set_trailingComment a0 result a statement c :
  builtSince a0 (result ++ [statement]) a ->
  builtSince a0 (result ++ [set_trailingComment c statement]) a.
Proof.
  unfold builtSince, tokensOf. by rewrite !map_app.
Qed.

Lemma entryTokens_app (l1 l2 : list AbapChainEntry) :
  entryTokens (l1 ++ l2) = entryTokens l1 ++ entryTokens l2.
Proof. unfold entryTokens. apply flat_map_app. Qed.

Lemma entryTokens_perm (l1 l2 : list AbapChainEntry) :
  l1 ≡ₚ l2 -> entryTokens l1 ≡ₚ entryTokens l2.
Proof.
  unfold entryTokens. induction 1 as [|x l l' _ IH|x y l|l l' l'' _ IH1 _ IH2];
    cbn [flat_map]; [done|by rewrite IH| |by etransitivity].
  rewrite !app_assoc. apply Permutation_app_tail, Permutation_app_comm.
Qed.

(** What one round of the loop of [convertColonGroup] keeps. *)
Lemma convertGroupMember_spec a group lineOffsets gs idx gs' :
  convertGroupMember classOf toUpperCase constructorName getColon getPragmas
    group lineOffsets gs idx = Some gs' ->
  extendsAlloc a (galloc gs) ->
  NoDup (entryTokens (gentries gs)) ->
  Forall (madeBetween a (galloc gs)) (entryTokens (gentries gs)) ->
  extendsAlloc a (galloc gs')
  /\ NoDup (entryTokens (gentries gs'))
  /\ Forall (madeBetween a (galloc gs')) (entryTokens (gentries gs')).
Proof.
  intros Hstep He Hnd Hall. unfold convertGroupMember in Hstep.
  destruct (group !! idx) as [current|]; [|by simplify_eq].
  destruct (getColon current) as [colon|].
  - destruct (convertTokens_spec (getTokens current) lineOffsets (galloc gs))
      as (Hc & Hn1 & Hf1 & _).
    destruct (convertTokens classOf toUpperCase (getTokens current)
                lineOffsets (galloc gs)) as [converted a1].
    cbn [fst snd] in Hc, Hn1, Hf1.
    assert (He1 : extendsAlloc (galloc gs) a1) by (split; [lia|done]).
    case_bool_decide as Hempty.
    + simplify_eq. cbn [galloc gentries]. split_and!; [|done|].
      * by eapply extendsAlloc_trans.
      * eapply Forall_impl; [exact Hall|]. unfold madeBetween.
        destruct He1. intros; lia.
    + unfold convertPragmas in Hstep.
      destruct (convertPragmaTokens_spec (getPragmas current) lineOffsets a1)
        as (Hp & Hn2 & Hf2).
      destruct (convertPragmaTokens classOf toUpperCase (getPragmas current)
                  lineOffsets a1) as [pragmaTokens a2].
      cbn [fst snd] in Hp, Hn2, Hf2. injection Hstep as <-.
      cbn [galloc gentries].
      assert (He2 : extendsAlloc a1 a2) by (split; [lia|done]).
      set (made := mergeTokensWithPragmas (allocated a2) _ _).
      assert (Hin : forall r, r ∈ made ->
                (nextRef (galloc gs) <= r < nextRef a2)%nat).
      { intros r Hr. subst made. rewrite mergeTokensWithPragmas_perm in Hr.
        apply elem_of_app in Hr as [Hr|Hr].
        - apply subseteq_drop in Hr.
          rewrite Hc in Hr. apply seq_range in Hr. lia.
        - rewrite Hp in Hr. apply seq_range in Hr. lia. }
      assert (Hndm : NoDup made).
      { subst made. rewrite mergeTokensWithPragmas_perm.
        apply NoDup_app. split_and!.
        - rewrite Hc. eapply sublist_NoDup; [apply NoDup_seq|].
          apply sublist_drop.
        - intros r Hr Hr'. apply subseteq_drop in Hr.
          rewrite Hc in Hr. rewrite Hp in Hr'.
          apply seq_range in Hr, Hr'. lia.
        - rewrite Hp. apply NoDup_seq. }
      rewrite entryTokens_app.
      change (entryTokens [_]) with (made ++ []). rewrite app_nil_r.
      split_and!.
      * eapply extendsAlloc_trans; [exact He|].
        by eapply extendsAlloc_trans.
      * apply NoDup_app. split_and!; [done| |done].
        intros r Hr Hr'. rewrite Forall_forall in Hall.
        specialize (Hall r Hr). specialize (Hin r Hr').
        unfold madeBetween in Hall. lia.
      * destruct He as [He _]. apply Forall_app. split.
        -- eapply Forall_impl; [exact Hall|]. unfold madeBetween.
           intros; lia.
        -- apply Forall_forall. intros r Hr. specialize (Hin r Hr).
           unfold madeBetween. lia.
  - destruct (isStandaloneComment constructorName current);
      [|by simplify_eq].
    destruct (convertCommentNode current lineOffsets) as [comment|];
      [|done]. cbn [mbind option_bind] in Hstep.
    destruct (_ && _ && _); simplify_eq; cbn [galloc gentries]; [done|].
    rewrite entryTokens_app. change (entryTokens [_]) with (@nil tokref).
    by rewrite app_nil_r.
Qed.

Lemma foldl_group_None group lineOffsets indices :
  foldl (fun gs idx =>
           gs ← gs;
           convertGroupMember classOf toUpperCase constructorName getColon
             getPragmas group lineOffsets gs idx)
        None indices = None.
Proof. induction indices as [|i r IH]; [done|]. exact IH. Qed.

Lemma foldl_group_spec a group lineOffsets indices : forall gs gs',
  foldl (fun gs idx =>
           gs ← gs;
           convertGroupMember classOf toUpperCase constructorName getColon
             getPragmas group lineOffsets gs idx)
        (Some gs) indices = Some gs' ->
  extendsAlloc a (galloc gs) ->
  NoDup (entryTokens (gentries gs)) ->
  Forall (madeBetween a (galloc gs)) (entryTokens (gentries gs)) ->
  extendsAlloc a (galloc gs')
  /\ NoDup (entryTokens (gentries gs'))
  /\ Forall (madeBetween a (galloc gs')) (entryTokens (gentries gs')).
Proof.
  induction indices as [|i r IH]; intros gs gs' Hfold He Hnd Hall.
  - cbn in Hfold. by simplify_eq.
  - cbn [foldl] in Hfold. cbn [mbind option_bind] in Hfold.
    destruct (convertGroupMember classOf toUpperCase constructorName getColon
                getPragmas group lineOffsets gs i) as [gs1|] eqn:Estep.
    + destruct (convertGroupMember_spec a _ _ _ _ _ Estep He Hnd Hall)
        as (He1 & Hnd1 & Hall1).
      by apply (IH gs1 gs').
    + by rewrite foldl_group_None in Hfold.
Qed.

(** What the conversion of a chain makes. *)
Lemma convertColonGroup_spec group indentLevel lineOffsets a statement a' :
  convertColonGroup classOf toUpperCase constructorName getColon getPragmas
    concatTokens group indentLevel lineOffsets a = Some (statement, a') ->
  extendsAlloc a a'
  /\ NoDup (tokens statement)
  /\ Forall (madeBetween a a') (tokens statement).
Proof.
  unfold convertColonGroup. intros H.
  destruct (head group) as [keywordSource|]; [|done].
  cbn [mbind option_bind] in H.
  destruct (convertTokens_spec (getTokens keywordSource) lineOffsets a)
    as (_ & Hn1 & Hf1 & _).
  destruct (convertTokens classOf toUpperCase (getTokens keywordSource)
              lineOffsets a) as [keywordTokens a1].
  cbn [fst snd] in Hn1, Hf1.
  destruct (head keywordTokens) as [keyword|]; [|done].
  cbn [mbind option_bind] in H.
  destruct (foldl _ _ _) as [gs|] eqn:Efold; [|done].
  cbn [mbind option_bind] in H. injection H as <- <-.
  cbn [tokens buildStatementObject].
  assert (He1 : extendsAlloc a a1) by (split; [lia|done]).
  destruct (foldl_group_spec a _ _ _ _ _ Efold He1) as (He & Hnd & Hall);
    [constructor|constructor|].
  fold (entryTokens
          (NeedlessSpacesRule.sort
             (fun x y => getEntryStartLine (allocated (galloc gs)) x
                         - getEntryStartLine (allocated (galloc gs)) y)%Z
             match gpendingTrailing gs with
             | Some pending =>
                 gentries gs
                 ++ [{| etype := entry_comment; etokens := None;
                        etrailingComment := None;
                        ecomment := Some {| value := value pending;
                                            inline := false;
                                            cloc := cloc pending |} |}]
             | None => gentries gs
             end)).
  rewrite (entryTokens_perm _ _ (sort_perm _ _)).
  assert (Hsame : entryTokens
                    match gpendingTrailing gs with
                    | Some pending =>
                        gentries gs
                        ++ [{| etype := entry_comment; etokens := None;
                               etrailingComment := None;
                               ecomment := Some {| value := value pending;
                                                   inline := false;
                                                   cloc := cloc pending |} |}]
                    | None => gentries gs
                    end = entryTokens (gentries gs)).
  { destruct (gpendingTrailing gs); [|done].
    rewrite entryTokens_app. change (entryTokens [_]) with (@nil tokref).
    by rewrite app_nil_r. }
  rewrite Hsame. done.
Qed.

(** The loop of [convertStatements] keeps [builtSince]. *)
Lemma convertStatementsFrom_built a0 statements indentLevels lineOffsets :
  forall fuel index pendingTrailing result a body a',
    convertStatementsFrom classOf toUpperCase constructorName getColon
      getPragmas concatTokens fuel statements indentLevels lineOffsets
      index pendingTrailing result a = Some (body, a') ->
    builtSince a0 result a -> builtSince a0 body a'.
Proof.
  induction fuel as [|fuel IH];
    intros index pendingTrailing result a body a' H Hinv;
    cbn [convertStatementsFrom] in H; [by simplify_eq|].
  destruct (statements !! index) as [statement|]; [|by simplify_eq].
  destruct (_ && _ && _).
  - destruct (convertCommentNode statement lineOffsets) as [comment|];
      [|done]. cbn [mbind option_bind] in H. by eapply IH.
  - destruct (getColon statement) as [colonToken|].
    + destruct (convertColonGroup _ _ _ _ _ _ _ _ _ _)
        as [[chainStatement a1]|] eqn:Egroup; [|done].
      cbn [mbind option_bind] in H.
      destruct (convertColonGroup_spec _ _ _ _ _ _ Egroup)
        as (He & Hnd & Hall).
      eapply IH; [exact H|]. by eapply builtSince_push.
    + pose proof (convertSingleStatement_spec statement
                    (default 0%Z (indentLevels !! index)) lineOffsets a)
        as Hs.
      destruct (convertSingleStatement _ _ _ _ _ _ _ _ _)
        as [converted a1].
      cbn [fst snd] in Hs. destruct Hs as (He & Hnd & Hall & _).
      eapply IH; [exact H|].
      pose proof (builtSince_push a0 result a a1 converted Hinv He Hnd Hall)
        as Hpush.
      destruct pendingTrailing; [|done].
      by apply builtSince_set_trailingComment.
Qed.

(** [X24] Every token of the statements that the parser builds is an object
    of its own, made during the conversion: no token object is shared
    between two statements or occurs twice in one, and the objects that
    existed before are left as they were. *)
Theorem convertStatements_makes_distinct_tokens
    (statements : list StatementNode) (indentLevels lineOffsets : list Z)
    (a : Alloc) (body : list AbapStatement) (a' : Alloc) :
  convertStatements classOf toUpperCase constructorName getColon getPragmas
    concatTokens statements indentLevels lineOffsets a = Some (body, a') ->
  extendsAlloc a a'
  /\ NoDup (tokensOf body)
  /\ Forall (madeBetween a a') (tokensOf body).
Proof.
  intros H. apply (convertStatementsFrom_built a _ _ _ _ _ _ _ _ _ _ H).
  split_and!; [apply extendsAlloc_refl|constructor|constructor].
Qed.

(** The group gathered at a statement with a colon holds that statement:
    a round of the loop moves forward. *)
Lemma colon_group_nonempty statements index statement colonToken :
  statements !! index = Some statement ->
  getColon statement = Some colonToken ->
  (1 <= length (takeWhile
                  (inColonGroup constructorName getColon
                     (buildColonKey colonToken))
                  (drop index statements)))%nat.
Proof.
  intros Hs Hc. rewrite (drop_S _ _ _ Hs). cbn [takeWhile].
  unfold inColonGroup at 1. rewrite Hc.
  rewrite bool_decide_eq_true_2 by done. cbn [orb length]. lia.
Qed.

(** [convertStatementsFrom] does not depend on its fuel once the fuel
    covers the statements from [index] on; [convertStatements] passes
    the number of statements, with [index] 0. *)
Lemma convertStatementsFrom_enough_fuel statements indentLevels lineOffsets :
  forall fuel1 fuel2 index pendingTrailing result a,
    (length statements - index <= fuel1)%nat ->
    (length statements - index <= fuel2)%nat ->
    convertStatementsFrom classOf toUpperCase constructorName getColon
      getPragmas concatTokens fuel1 statements indentLevels lineOffsets
      index pendingTrailing result a
    = convertStatementsFrom classOf toUpperCase constructorName getColon
        getPragmas concatTokens fuel2 statements indentLevels lineOffsets
        index pendingTrailing result a.
Proof.
  induction fuel1 as [|fuel1 IH];
    intros fuel2 index pendingTrailing result a H1 H2.
  - assert (Hnone : statements !! index = None)
      by (apply lookup_ge_None; lia).
    destruct fuel2; cbn [convertStatementsFrom]; [done|]. by rewrite Hnone.
  - destruct fuel2 as [|fuel2].
    + assert (Hnone : statements !! index = None)
        by (apply lookup_ge_None; lia).
      cbn [convertStatementsFrom]. by rewrite Hnone.
    + cbn [convertStatementsFrom].
      destruct (statements !! index) as [statement|] eqn:Es; [|done].
      destruct (_ && _ && _).
      * destruct (convertCommentNode statement lineOffsets); [|done].
        cbn [mbind option_bind]. apply IH; lia.
      * destruct (getColon statement) as [colonToken|] eqn:Ec.
        -- pose proof (colon_group_nonempty _ _ _ _ Es Ec) as Hgroup.
           destruct (convertColonGroup _ _ _ _ _ _ _ _ _ _) as [[c a1]|];
             [|done].
           cbn [mbind option_bind]. apply IH; lia.
        -- destruct (convertSingleStatement _ _ _ _ _ _ _ _ _) as [c a1].
           apply IH; lia.
Qed.

Lemma convertStatementsFrom_plain statements indentLevels lineOffsets :
  Forall (fun s => isStandaloneComment constructorName s = false
                   /\ getColon s = None) statements ->
  forall fuel index result a,
    (length statements - index <= fuel)%nat ->
    exists rest a',
      convertStatementsFrom classOf toUpperCase constructorName getColon
        getPragmas concatTokens fuel statements indentLevels lineOffsets
        index None result a = Some (result ++ rest, a')
      /\ length rest = (length statements - index)%nat
      /\ forall k s, statements !! (index + k)%nat = Some s ->
           exists statement,
             rest !! k = Some statement
             /\ builtFrom constructorName concatTokens s
                  (default 0%Z (indentLevels !! (index + k)%nat)) statement.
Proof.
  intros Hplain. induction fuel as [|fuel IH]; intros index result a Hfuel;
    cbn [convertStatementsFrom].
  - exists [], a. rewrite app_nil_r. split_and!; [done|cbn; lia|].
    intros k s Hs. apply lookup_lt_Some in Hs. lia.
  - destruct (statements !! index) as [statement|] eqn:Es.
    + rewrite Forall_forall in Hplain.
      destruct (Hplain statement (list_elem_of_lookup_2 _ _ _ Es))
        as [Hcomment Hcolon].
      rewrite Hcomment, Hcolon. cbn [andb].
      pose proof (convertSingleStatement_spec statement
                    (default 0%Z (indentLevels !! index)) lineOffsets a)
        as Hs.
      destruct (convertSingleStatement _ _ _ _ _ _ _ _ _)
        as [converted a1].
      cbn [fst snd] in Hs.
      destruct Hs as (_ & _ & _ & Hkind & Hlevel & Hchain & Hraw).
      destruct (IH (S index) (result ++ [converted]) a1 ltac:(lia))
        as (rest & a' & Hrun & Hlen & Hrest).
      exists (converted :: rest), a'. split_and!.
      * rewrite Hrun, <- app_assoc. done.
      * cbn [length]. apply lookup_lt_Some in Es. lia.
      * intros [|k] s Hk.
        -- rewrite Nat.add_0_r in Hk |- *. simplify_eq.
           exists converted. by split.
        -- replace (index + S k)%nat with (S index + k)%nat in Hk |- * by lia.
           destruct (Hrest k s Hk) as (st & Hst & Hb). by exists st.
    + exists [], a. rewrite app_nil_r. apply lookup_ge_None in Es.
      split_and!; [done|cbn; lia|].
      intros k s Hs. apply lookup_lt_Some in Hs. lia.
Qed.

(** [X25] A program without comments and without chains is parsed statement by
    statement: the conversion does not throw, so the fallback is not
    taken, each statement of the tokenizer becomes one statement of the
    program, in order, without a chain, and its indent level is the one
    that the indentation engine computed for it. *)
Theorem parseAbap_converts_plain_statements
    (source : jsstring) (statements : list StatementNode) :
  Forall (fun s => isStandaloneComment constructorName s = false
                   /\ getColon s = None) statements ->
  let program :=
    parseAbap_tokenized classOf toUpperCase constructorName getColon
      getPragmas concatTokens source statements in
  length (ClosingBracketsPositionRule.body program) = length statements
  /\ forall i s, statements !! i = Some s ->
       exists statement level,
         ClosingBracketsPositionRule.body program !! i = Some statement
         /\ IndentRule.computeIndentationLevels statements !! i = Some level
         /\ builtFrom constructorName concatTokens s level statement.
Proof.
  intros Hplain program. subst program. unfold parseAbap_tokenized.
  cbv zeta. unfold convertStatements.
  match goal with
  | |- context [convertStatementsFrom _ _ _ _ _ _ ?f ?s ?l ?o ?i None [] ?a] =>
      destruct (convertStatementsFrom_plain s l o Hplain f i [] a
                  ltac:(lia)) as (rest & a' & Hrun & Hlen & Hrest)
  end.
  rewrite Hrun. cbn [app ClosingBracketsPositionRule.body].
  split; [lia|]. intros i s Hs.
  destruct (Hrest i s Hs) as (statement & Hst & Hb).
  pose proof (computeIndentationLevels_length statements) as Hlevels.
  destruct (lookup_lt_is_Some_2 (IndentRule.computeIndentationLevels statements)
              i) as [level Hlevel].
  { rewrite Hlevels. by eapply lookup_lt_Some. }
  exists statement, level. split_and!; [done..|].
  cbn [Nat.add] in Hb. by rewrite Hlevel in Hb.
Qed.

End BuilderExtras.

(** ** The printer: joining punctuation lines *)
Section PrinterExtras.
Import Printer PrinterPredicates.

Lemma ink_app (a b : jsstring) : ink (a ++ b) = ink a ++ ink b.
Proof. apply List.filter_app. Qed.

Lemma ink_trimStart (s : jsstring) : ink (trimStart s) = ink s.
Proof.
  unfold trimStart, ink. induction s as [|c r IH]; [done|].
  change (dropWhile isWhiteSpace (c :: r))
    with (if isWhiteSpace c then dropWhile isWhiteSpace r else c :: r).
  change (List.filter ?f (c :: r))
    with (if f c then c :: List.filter f r else List.filter f r).
  cbn beta. destruct (isWhiteSpace c) eqn:E; cbn [negb]; [exact IH|].
  change (List.filter ?f (c :: r))
    with (if f c then c :: List.filter f r else List.filter f r).
  cbn beta. by rewrite E.
Qed.

Lemma ink_trimEnd (s : jsstring) : ink (trimEnd s) = ink s.
Proof.
  unfold trimEnd. unfold ink at 1. rewrite List.filter_rev.
  fold (ink (dropWhile isWhiteSpace (rev s))).
  change (dropWhile isWhiteSpace (rev s)) with (trimStart (rev s)).
  rewrite ink_trimStart. unfold ink. rewrite List.filter_rev.
  by rewrite rev_involutive.
Qed.

Lemma inkOfLines_app (a b : list jsstring) :
  inkOfLines (a ++ b) = inkOfLines a ++ inkOfLines b.
Proof. unfold inkOfLines. by rewrite concat_app, ink_app. Qed.

(** The two lines that a round of the loop looks at, in their place. *)
Lemma lines_around {A} (l : list A) (i : nat) (x y : A) :
  (1 <= i)%nat -> l !! (i - 1)%nat = Some x -> l !! i = Some y ->
  l = take (i - 1) l ++ x :: y :: drop (i + 1) l.
Proof.
  intros Hi Hx Hy.
  rewrite <- (take_drop_middle l (i - 1) x Hx) at 1. do 2 f_equal.
  replace (S (i - 1)) with i by lia.
  rewrite <- (take_drop_middle l i y Hy) at 1.
  rewrite drop_app_length' by (rewrite length_take; apply lookup_lt_Some in Hy; lia).
  by replace (i + 1)%nat with (S i) by lia.
Qed.

(** [X26] The loop that joins a line starting with a period or comma to the
    line before it only moves white space: the characters of the lines
    that are not white space are the same, in the same order, after the
    loop; the number of lines never grows, and the line metas stay in
    step with the lines. *)
Theorem joinPunctuationLines_keeps_the_ink
    (fuel : nat) (hasPost : bool) (i : nat) (lines : list jsstring)
    (metas : list LineMeta) :
  (1 <= i)%nat ->
  let result := joinPunctuationLines fuel hasPost i lines metas in
  inkOfLines (fst result) = inkOfLines lines
  /\ (length (fst result) <= length lines)%nat
  /\ (length metas = length lines ->
      length (snd result) = length (fst result)).
Proof.
  revert i lines metas.
  induction fuel as [|fuel IH]; intros i lines metas Hi;
    cbn [joinPunctuationLines]; [done|].
  case_bool_decide as Hlt; cbn [negb]; [|done].
  destruct (hasPost && bool_decide (i = length lines - 1)%nat);
    [apply IH; lia|].
  destruct (lines !! i) as [line|] eqn:Eline; [|apply IH; lia].
  destruct (lines !! (i - 1)%nat) as [lineBefore|] eqn:Ebefore;
    [|apply IH; lia].
  destruct (startsWithPeriodOrComma line); [|apply IH; lia].
  set (merged := trimEnd lineBefore ++ trimStart line).
  set (meta := match metas !! (i - 1)%nat with Some _ => _ | None => _ end).
  destruct (IH i (take (i - 1) lines ++ merged :: drop (i + 1) lines)
               (take (i - 1) metas ++ meta :: drop (i + 1) metas) Hi)
    as (Hink & Hlen & Hmeta).
  assert (Hl1 : length (take (i - 1) lines ++ merged :: drop (i + 1) lines)
                = (length lines - 1)%nat).
  { rewrite length_app, length_take. cbn [length]. rewrite length_drop. lia. }
  split_and!.
  - rewrite Hink. rewrite (lines_around lines i lineBefore line Hi Ebefore Eline)
      at 3.
    rewrite !inkOfLines_app. f_equal.
    change (merged :: ?l) with ([merged] ++ l).
    change (lineBefore :: line :: ?l) with ([lineBefore; line] ++ l).
    rewrite !inkOfLines_app. f_equal.
    unfold inkOfLines, merged. cbn [concat]. rewrite !app_nil_r, !ink_app.
    by rewrite ink_trimEnd, ink_trimStart.
  - lia.
  - intros Hsame. apply Hmeta. rewrite Hl1.
    rewrite length_app, length_take. cbn [length]. rewrite length_drop. lia.
Qed.

Lemma dropWhile_app_stop {A} (p : A -> bool) (a : list A) c b :
  p c = false -> dropWhile p (a ++ c :: b) = dropWhile p a ++ c :: b.
Proof.
  intros Hc. induction a as [|x a IH]; cbn [app dropWhile].
  - by rewrite Hc.
  - by destruct (p x).
Qed.

Lemma dropWhile_head {A} (p : A -> bool) (l : list A) c r :
  dropWhile p l = c :: r -> p c = false.
Proof.
  induction l as [|x l IH]; cbn [dropWhile]; [done|].
  destruct (p x) eqn:E; [done|]. intros H. by simplify_eq.
Qed.

Lemma dropWhile_takeWhile {A} (p : A -> bool) (l : list A) :
  dropWhile p (takeWhile p l) = [].
Proof.
  induction l as [|x l IH]; cbn [takeWhile]; [done|].
  destruct (p x) eqn:E; [|done]. cbn [dropWhile]. by rewrite E.
Qed.

(** Trimming a line at its end and appending to it keeps the first
    character of the line that is not white space in front. *)
Lemma trimEnd_keeps_first_ink (lineBefore x : jsstring) c r :
  dropWhile isWhiteSpace lineBefore = c :: r ->
  exists r', dropWhile isWhiteSpace (trimEnd lineBefore ++ x) = c :: r'.
Proof.
  intros H. pose proof (dropWhile_head _ _ _ _ H) as Hc.
  pose proof (takeWhile_dropWhile isWhiteSpace lineBefore) as Hsplit.
  pose proof (dropWhile_takeWhile isWhiteSpace lineBefore) as Htw.
  rewrite H in Hsplit.
  remember (takeWhile isWhiteSpace lineBefore) as tw eqn:Etw.
  clear Etw H. subst lineBefore. unfold trimEnd.
  rewrite rev_app_distr. cbn [rev]. rewrite <- app_assoc. cbn [app].
  rewrite dropWhile_app_stop by done.
  rewrite rev_app_distr. cbn [rev]. rewrite rev_involutive.
  rewrite <- !app_assoc. cbn [app].
  rewrite dropWhile_app_stop by done. rewrite Htw.
  eexists. reflexivity.
Qed.

Lemma merged_line (lineBefore x : jsstring) :
  isBlankLine lineBefore = false ->
  startsWithPeriodOrComma (trimEnd lineBefore ++ x)
  = startsWithPeriodOrComma lineBefore
  /\ isBlankLine (trimEnd lineBefore ++ x) = false.
Proof.
  unfold isBlankLine, startsWithPeriodOrComma. intros Hb.
  destruct (dropWhile isWhiteSpace lineBefore) as [|c r] eqn:E; [done|].
  destruct (trimEnd_keeps_first_ink lineBefore x c r E) as [r' ->]. done.
Qed.

Lemma joinPunctuationLines_invariant (hasPost : bool) :
  forall fuel i (lines : list jsstring) metas,
    (1 <= i)%nat -> (length lines - i <= fuel)%nat ->
    Forall (fun line => isBlankLine line = false) lines ->
    (forall j line, (1 <= j < i)%nat -> lines !! j = Some line ->
       startsWithPeriodOrComma line = true ->
       hasPost = true /\ j = (length lines - 1)%nat) ->
    let result := fst (joinPunctuationLines fuel hasPost i lines metas) in
    forall j line, (1 <= j)%nat -> result !! j = Some line ->
      startsWithPeriodOrComma line = true ->
      hasPost = true /\ j = (length result - 1)%nat.
Proof.
  induction fuel as [|fuel IH]; intros i lines metas Hi Hfuel Hnb Hinv;
    cbn [joinPunctuationLines].
  - cbn [fst]. intros j line Hj Hline Hp.
    apply (Hinv j line); [|done..]. apply lookup_lt_Some in Hline. lia.
  - case_bool_decide as Hlt; cbn [negb];
      [|cbn [fst]; intros j line Hj Hline Hp;
        apply (Hinv j line); [|done..]; apply lookup_lt_Some in Hline; lia].
    destruct (hasPost && bool_decide (i = length lines - 1)%nat) eqn:Elast.
    { apply IH; [lia|lia|done|]. intros j line Hj Hline Hp.
      destruct (decide (j = i)) as [->|Hne]; [|apply (Hinv j line); [lia|done..]].
      apply andb_true_iff in Elast as [-> Elast].
      by apply bool_decide_eq_true in Elast. }
    destruct (lines !! i) as [line0|] eqn:Eline;
      [|apply lookup_ge_None in Eline; lia].
    destruct (lines !! (i - 1)%nat) as [lineBefore|] eqn:Ebefore;
      [|apply lookup_ge_None in Ebefore; lia].
    destruct (startsWithPeriodOrComma line0) eqn:Ep.
    + set (merged := trimEnd lineBefore ++ trimStart line0).
      assert (Hbb : isBlankLine lineBefore = false).
      { rewrite Forall_forall in Hnb. apply Hnb.
        by eapply list_elem_of_lookup_2. }
      destruct (merged_line lineBefore (trimStart line0) Hbb) as [Hmp Hmb].
      fold merged in Hmp, Hmb.
      assert (Hl1 : length (take (i - 1) lines ++ merged :: drop (i + 1) lines)
                    = (length lines - 1)%nat).
      { rewrite length_app, length_take. cbn [length]. rewrite length_drop.
        lia. }
      apply IH; [done|lia| |].
      * apply Forall_app. split; [by apply Forall_take|].
        constructor; [done|by apply Forall_drop].
      * intros j line Hj Hline Hp. exfalso.
        destruct (decide (j = i - 1)%nat) as [->|Hne].
        -- rewrite list_lookup_middle in Hline
             by (rewrite length_take; lia).
           simplify_eq. rewrite Hmp in Hp.
           destruct (Hinv (i - 1)%nat lineBefore ltac:(lia) Ebefore Hp)
             as [_ Hlast]. lia.
        -- rewrite lookup_app_l in Hline by (rewrite length_take; lia).
           rewrite lookup_take_lt in Hline by lia.
           destruct (Hinv j line ltac:(lia) Hline Hp) as [_ Hlast]. lia.
    + apply IH; [lia|lia|done|]. intros j line Hj Hline Hp.
      destruct (decide (j = i)) as [->|Hne]; [|apply (Hinv j line); [lia|done..]].
      congruence.
Qed.

(** [X27] After the loop, run from the second line as the printer does, no
    line but the first starts with a period or a comma, save the last
    line when it is kept apart for a post comment.  This holds when no
    line is blank: a blank line before a punctuation line would leave
    the joined line, which the loop does not look at again, starting
    with the punctuation. *)
Theorem joinPunctuationLines_leaves_no_leading_punctuation
    (hasPost : bool) (lines : list jsstring) (metas : list LineMeta)
    (j : nat) (line : jsstring) :
  Forall (fun line => isBlankLine line = false) lines ->
  let result :=
    fst (joinPunctuationLines (length lines) hasPost 1 lines metas) in
  (1 <= j)%nat -> result !! j = Some line ->
  startsWithPeriodOrComma line = true ->
  hasPost = true /\ j = (length result - 1)%nat.
Proof.
  intros Hnb. apply joinPunctuationLines_invariant; [done|lia|done|].
  intros k l Hk. lia.
Qed.

Section WithRuntime.

Variable KEYWORDS : jsstring -> bool.
Variable toUpperCase toLowerCase : jsstring -> jsstring.
Variable options : AbapPluginOptions.

Import ClosingBracketsPositionRule.

(** A store that differs from another in that post comments were taken
    out of it. *)
Lemma takePostComment_frame index st :
  let st' := snd (takePostComment index st) in
  tokenHeap st' = tokenHeap st /\ body st' = body st
  /\ postComments st' ⊆ postComments st.
Proof.
  unfold takePostComment. destruct (postComments st !! index); cbn [snd];
    [|done].
  split_and!; [done..|]. apply delete_subseteq.
Qed.

Lemma printBodyStatement_frame active index statement st :
  let st' :=
    snd (printBodyStatement KEYWORDS toUpperCase toLowerCase active index
           statement options st) in
  tokenHeap st' = tokenHeap st /\ body st' = body st
  /\ postComments st' ⊆ postComments st.
Proof.
  unfold printBodyStatement. destruct (chain statement); [done|].
  unfold printStatement. destruct (_ && _); [done|]. cbn zeta.
  destruct (if bool_decide (0 < length (trim _))%nat then _ else _)
    as [lines1 metas1].
  pose proof (takePostComment_frame index st) as Hf.
  destruct (takePostComment index st) as [postComment st1].
  destruct (joinPunctuationLines _ _ _ _ _) as [lines3 metas3].
  exact Hf.
Qed.

Lemma printProgramStep_frame active docs prev st ix :
  let st' :=
    snd (printProgramStep KEYWORDS toUpperCase toLowerCase active options
           (docs, prev, st) ix) in
  tokenHeap st' = tokenHeap st /\ body st' = body st
  /\ postComments st' ⊆ postComments st.
Proof.
  unfold printProgramStep. destruct ix as [index statement].
  pose proof (printBodyStatement_frame active index statement st) as Hf.
  destruct (printBodyStatement _ _ _ _ _ _ _ _) as [doc st3]. exact Hf.
Qed.

(** [X28] Printing a program writes no token and no statement beyond what the
    bracket repositioning at its start wrote: rendering only reads, and
    takes post comments out of their table. *)
Theorem printing_writes_only_post_comments (st : Store) :
  let st1 := applyClosingBracketsPosition st in
  let st' :=
    snd (printProgram KEYWORDS toUpperCase toLowerCase options st) in
  tokenHeap st' = tokenHeap st1 /\ body st' = body st1
  /\ postComments st' ⊆ postComments st1.
Proof.
  unfold printProgram. case_bool_decide as Hempty.
  - unfold applyClosingBracketsPosition.
    rewrite bool_decide_eq_true_2 by done. done.
  - cbn zeta.
    set (st1 := applyClosingBracketsPosition st).
    set (active := Some _).
    assert (Hfold : forall l docs prev st0,
              let st2 := snd (fold_left
                                (printProgramStep KEYWORDS toUpperCase
                                   toLowerCase active options)
                                l (docs, prev, st0)) in
              tokenHeap st2 = tokenHeap st0 /\ body st2 = body st0
              /\ postComments st2 ⊆ postComments st0).
    { induction l as [|ix l IH]; intros docs prev st0; cbn [fold_left];
        [done|].
      pose proof (printProgramStep_frame active docs prev st0 ix) as Hf.
      destruct (printProgramStep _ _ _ _ _ _ _) as [[docs1 prev1] st3].
      cbn [snd] in Hf. destruct Hf as (Hh & Hb & Hp).
      destruct (IH docs1 prev1 st3) as (Hh' & Hb' & Hp').
      split_and!; [congruence|congruence|by etransitivity]. }
    specialize (Hfold (imap pair (body st1)) [] None st1).
    destruct (fold_left _ _ _) as [[docs prev] st2]. exact Hfold.
Qed.

End WithRuntime.

End PrinterExtras.

(** ** Comment-sign spacing: what the rule changes *)
Section CommentSignExtras.
Import SpaceAroundCommentSignRule PrinterPredicates.

Lemma startsWith_sign (rest : jsstring) :
  startsWith COMMENT_SIGN rest = true -> exists tl, rest = 34%N :: tl.
Proof.
  destruct rest as [|c tl]; [done|].
  change (startsWith COMMENT_SIGN (c :: tl)) with ((34 =? c)%N && true).
  rewrite andb_true_r. intros H. apply N.eqb_eq in H. subst c. by exists tl.
Qed.

Lemma takeWhile_leading (leading rest : jsstring) (c : N) :
  Forall (fun x => isWhiteSpace x = true) leading ->
  isWhiteSpace c = false ->
  takeWhile isWhiteSpace (leading ++ c :: rest) = leading.
Proof.
  intros Hl Hc. induction Hl as [|x l Hx _ IH]; cbn [app takeWhile].
  - by rewrite Hc.
  - by rewrite Hx, IH.
Qed.

(** [X30] With the option on (it is unless set to false), a comment
    whose sign, after leading white space, is directly followed by a
    letter or digit gets one space between the sign and that character.
    This is the only change the rule makes: every other comment, and
    every comment when the option is off, is returned as it is; the
    characters that are not white space are never changed. *)
Theorem formatCommentValue_inserts_one_space
    (rawValue : jsstring) (options : AbapPluginOptions) :
  (forall leading c tail,
     rawValue = leading ++ 34%N :: c :: tail ->
     Forall (fun x => isWhiteSpace x = true) leading ->
     isLetterOrDigit c = true ->
     abapSpaceAfterCommentSign options <> Some false ->
     formatCommentValue rawValue options
     = leading ++ 34%N :: 32%N :: c :: tail)
  /\ (abapSpaceAfterCommentSign options = Some false ->
      formatCommentValue rawValue options = rawValue)
  /\ (formatCommentValue rawValue options = rawValue
      \/ exists leading c tail,
           rawValue = leading ++ 34%N :: c :: tail
           /\ Forall (fun x => isWhiteSpace x = true) leading
           /\ isLetterOrDigit c = true
           /\ formatCommentValue rawValue options
              = leading ++ 34%N :: 32%N :: c :: tail)
  /\ ink (formatCommentValue rawValue options) = ink rawValue.
Proof.
  assert (H : formatCommentValue rawValue options = rawValue
              \/ exists leading c tail,
                   rawValue = leading ++ 34%N :: c :: tail
                   /\ Forall (fun x => isWhiteSpace x = true) leading
                   /\ isLetterOrDigit c = true
                   /\ formatCommentValue rawValue options
                      = leading ++ 34%N :: 32%N :: c :: tail).
  { unfold formatCommentValue.
    case_bool_decide; [by left|]. cbv zeta. unfold slice.
    rewrite drop_takeWhile.
    pose proof (takeWhile_dropWhile isWhiteSpace rawValue) as Hsplit.
    destruct (startsWith COMMENT_SIGN (dropWhile isWhiteSpace rawValue))
      eqn:Esign; cbn [negb]; [|by left].
    destruct (startsWith_sign _ Esign) as [tl Etl]. rewrite Etl in *.
    case_bool_decide; [by left|].
    destruct tl as [|c tail]; [by left|]. cbn [lookup list_lookup].
    change ((34%N :: c :: tail) !! 1%nat) with (Some c).
    destruct (isLetterOrDigit c) eqn:Ec; cbn [negb]; [|by left].
    right. exists (takeWhile isWhiteSpace rawValue), c, tail.
    split_and!; [done|apply takeWhile_Forall|done|done]. }
  split_and!.
  - intros leading c tail -> Hl Hc Hon. unfold formatCommentValue.
    rewrite bool_decide_eq_false_2 by done. cbv zeta. unfold slice.
    rewrite (takeWhile_leading leading (c :: tail) 34%N Hl eq_refl).
    rewrite drop_app_length.
    change (startsWith COMMENT_SIGN (34%N :: c :: tail)) with true.
    cbn [negb].
    rewrite bool_decide_eq_false_2 by (cbn [length]; lia).
    change ((34%N :: c :: tail) !! 1%nat) with (Some c).
    cbn iota. rewrite Hc. reflexivity.
  - intros Hoff. unfold formatCommentValue.
    by rewrite bool_decide_eq_true_2.
  - exact H.
  - destruct H as [->|(leading & c & tail & Hraw & _ & _ & ->)]; [done|].
    rewrite Hraw. unfold ink. rewrite !List.filter_app. f_equal.
Qed.

End CommentSignExtras.

(** ** The further properties at concrete inputs *)
Section FurtherWitnesses.
Import Abaplint IndentRule IndentPredicates.
Import ClosingBracketsPositionRule BracketPredicates.
Import NeedlessSpacesRule NeedlessPredicates.
Import Printer PrinterPredicates Parser ParserPredicates.
Import Examples FurtherExamples.
Local Open Scope Z_scope.

Lemma level_is_sentinel_or_nonnegative_witness :
  exists level,
    computeIndentationLevels selectLoopProgram !! 0%nat = Some level
    /\ 0 <= level.
Proof.
  destruct (level_is_sentinel_or_nonnegative selectLoopProgram 0
              (nodeAt Statements.Select 1) eq_refl)
    as (level & Hlevel & _ & Hreal).
  exists level. split; [exact Hlevel|]. apply Hreal. reflexivity.
Defined.

Lemma plain_block_restores_depth_witness :
  depth (indentLoop ifProgram ifProgram) = 0.
Proof.
  exact (proj2 (plain_block_restores_depth ifProgram []
                  (nodeAt Statements.If 1) (nodeAt Statements.EndIf 3)
                  [nodeAt Statements.Other 2]
                  eq_refl eq_refl eq_refl
                  ltac:(repeat constructor)
                  eq_refl eq_refl)).
Defined.

Lemma findAlignmentTarget_found_witness :
  findAlignmentTarget alignProgram 2 1 = Some (3%nat, 0)
  /\ exists target,
       alignProgram !! 3%nat = Some target
       /\ matches (get target) ALIGN_WITH_NEXT = true.
Proof.
  split; [reflexivity|].
  exact (proj1 (proj2 (proj2 (proj2 (proj2
           (findAlignmentTarget_found alignProgram 2 1 3 0 eq_refl)))))).
Defined.

Lemma findSelectBlocks_marks_closed_selects_witness :
  exists s j e,
    selectLoopProgram !! 0%nat = Some s /\ isSelect (get s) = true
    /\ (0 < j)%nat /\ selectLoopProgram !! j = Some e
    /\ get e = Statements.EndSelect.
Proof.
  apply (findSelectBlocks_marks_closed_selects selectLoopProgram 0).
  apply (bool_decide_unpack _). vm_compute. exact I.
Defined.

Lemma adjust_writes_listed_tokens_only_witness :
  fst (adjustClosingBracketsInTokens (Some (seq 0 7)%nat) (heapOf callTokens))
    7%nat
  = heapOf callTokens 7%nat.
Proof.
  apply (adjust_writes_listed_tokens_only (seq 0 7)%nat (heapOf callTokens) 7%nat).
  intros Hin. apply elem_of_seq in Hin. lia.
Defined.

(** In the call of [callProgram] the argument [1] is followed by a line
    break and by the closing bracket. *)
Lemma adjust_leaves_no_break_before_closer_witness :
  hasFollowingLineBreak (heapOf callTokens 4%nat) = true
  /\ hasFollowingLineBreak
       (fst (adjustClosingBracketsInTokens (Some (seq 0 7)%nat)
               (heapOf callTokens)) 4%nat) = false.
Proof.
  split; [reflexivity|].
  apply (adjust_leaves_no_break_before_closer (seq 0 7)%nat (heapOf callTokens)
           4%nat 4%nat 5%nat (NoDup_seq 0 7)%nat eq_refl eq_refl eq_refl).
Defined.

Lemma adjust_twice_changes_nothing_witness :
  let h' :=
    fst (adjustClosingBracketsInTokens (Some (seq 0 7)%nat) (heapOf callTokens)) in
  snd (adjustClosingBracketsInTokens (Some (seq 0 7)%nat) (heapOf callTokens))
  = true
  /\ snd (adjustClosingBracketsInTokens (Some (seq 0 7)%nat) h') = false.
Proof.
  intros h'. split; [reflexivity|].
  exact (f_equal snd
           (adjust_twice_changes_nothing (seq 0 7)%nat (heapOf callTokens)
              (NoDup_seq 0 7)%nat)).
Defined.

Lemma no_breaks_nothing_repositioned_witness :
  body (applyClosingBracketsPosition (programOf emptyCallTokens emptyCallBody))
  = emptyCallBody.
Proof.
  apply (no_breaks_nothing_repositioned
           (programOf emptyCallTokens emptyCallBody)).
  intros r. do 4 (destruct r as [|r]; [reflexivity|]). by destruct r.
Defined.

(** The first statement of [threeStatements] is touched; the third
    neither is touched nor follows a touched statement. *)
Lemma merge_pass_leaves_other_statements_witness :
  body (mergeTrailingComments {[0%nat]} threeStatements) !! 2%nat
  = Some (statementAt [] 4 0 4 0 0 (Some firstComment)).
Proof.
  rewrite (merge_pass_leaves_other_statements {[0%nat]} threeStatements 2).
  - reflexivity.
  - intros Hin. apply elem_of_singleton in Hin. discriminate.
  - intros i Hi Hin. apply elem_of_singleton in Hin. subst i. discriminate.
Defined.


Lemma scanRun_finds_a_run_inside_the_list_witness :
  match columnRun !! 0%nat with
  | Some first =>
      (0 < fst (scanRun (heapOf columnTokens) ∅ ∅ 10 first first
                  (drop 1 columnRun) 0 false)
       <= length columnRun)%nat
  | None => False
  end.
Proof.
  destruct (columnRun !! 0%nat) as [first|] eqn:Efirst;
    [|vm_compute in Efirst; discriminate].
  exact (scanRun_finds_a_run_inside_the_list (heapOf columnTokens) ∅ ∅ 10
           columnRun 0 first Efirst).
Defined.

Lemma positionToOffset_addresses_the_position_witness :
  twoLines
  !! Z.to_nat (ParserBuilder.positionToOffset
                 {| getRow := 2; getCol := 2; isVirtual := false |}
                 (buildLineOffsets twoLines))
  = Some 100%N.
Proof.
  rewrite (positionToOffset_addresses_the_position twoLines
             {| getRow := 2; getCol := 2; isVirtual := false |} (lit "cd")).
  - reflexivity.
  - cbn. lia.
  - reflexivity.
  - cbn. lia.
Defined.

Lemma joinPunctuationLines_keeps_the_ink_witness :
  inkOfLines
    (fst (joinPunctuationLines 2 false 1 [lit "lv_value = 42"; lit "  ."] []))
  = lit "lv_value=42.".
Proof.
  rewrite (proj1 (joinPunctuationLines_keeps_the_ink 2 false 1
                    [lit "lv_value = 42"; lit "  ."] [] ltac:(lia))).
  reflexivity.
Defined.

(** With a post comment, the last line is kept apart although it starts
    with the period. *)
Lemma joinPunctuationLines_leaves_no_leading_punctuation_witness :
  fst (joinPunctuationLines 2 true 1 [lit "foo( )"; lit "."] []) !! 1%nat
  = Some (lit ".")
  /\ 1%nat
     = (length (fst (joinPunctuationLines 2 true 1 [lit "foo( )"; lit "."] []))
        - 1)%nat.
Proof.
  split; [reflexivity|].
  exact (proj2 (joinPunctuationLines_leaves_no_leading_punctuation true
                  [lit "foo( )"; lit "."] [] 1 (lit ".")
                  ltac:(repeat constructor) ltac:(lia) eq_refl eq_refl)).
Defined.

Lemma fallback_passes_other_lines_through_witness :
  fst (printProgram onlyEndif asciiUpper asciiLower defaultOptions
         (parseAbap_fallback asciiUpper (lit "  x = 1") ParseThrows))
  = passThrough (lit "  x = 1").
Proof.
  apply (fallback_passes_other_lines_through onlyEndif asciiUpper asciiLower
           defaultOptions (lit "  x = 1") ParseThrows).
  intros line Hin.
  change (splitLines (normalizeNewlines (lit "  x = 1")))
    with [lit "  x = 1"] in Hin.
  apply list_elem_of_singleton in Hin. subst line. reflexivity.
Defined.

(** Of the tokens [a] on row 1 and [b] on row 2 the first is marked as
    followed by a line break. *)
Lemma convertTokens_marks_line_breaks_witness :
  let res :=
    ParserBuilder.convertTokens classByText asciiUpper
      [sourceToken "a" 1 7; sourceToken "b" 2 7] [] noObjects in
  exists r,
    fst res !! 0%nat = Some r
    /\ hasFollowingLineBreak (ParserBuilder.allocated (snd res) r) = true.
Proof.
  intros res.
  destruct (proj2 (convertTokens_marks_line_breaks classByText asciiUpper
                     [sourceToken "a" 1 7; sourceToken "b" 2 7] [] noObjects
                     0 (sourceToken "a" 1 7) eq_refl))
    as (r & Hr & _ & _ & Hbreak).
  exists r. split; [exact Hr|]. apply Hbreak.
  exists (sourceToken "b" 2 7). split; [reflexivity|]. cbn. lia.
Defined.

(** The chain [DATA: a, b.] is converted into one statement of four
    distinct tokens. *)
Lemma convertStatements_makes_distinct_tokens_witness :
  match ParserBuilder.convertStatements classByText asciiUpper nameData
          chainColon noPragmas concatByText chainNodes [0; 0] [] noObjects
  with
  | Some (body, _) => length (tokensOf body) = 4%nat /\ NoDup (tokensOf body)
  | None => False
  end.
Proof.
  destruct (ParserBuilder.convertStatements classByText asciiUpper nameData
              chainColon noPragmas concatByText chainNodes [0; 0] []
              noObjects) as [[body a']|] eqn:Erun;
    [|vm_compute in Erun; discriminate].
  split.
  - vm_compute in Erun. injection Erun as <- _. reflexivity.
  - exact (proj1 (proj2 (convertStatements_makes_distinct_tokens
                           classByText asciiUpper nameData chainColon
                           noPragmas concatByText chainNodes [0; 0] []
                           noObjects body a' Erun))).
Defined.

Lemma parseAbap_converts_plain_statements_witness :
  length (body (ParserBuilder.parseAbap_tokenized classByText asciiUpper
                  nameData noColon noPragmas concatByText [] ifProgram))
  = 3%nat.
Proof.
  apply (parseAbap_converts_plain_statements classByText asciiUpper nameData
           noColon noPragmas concatByText [] ifProgram).
  repeat constructor.
Defined.

End FurtherWitnesses.
